(** * Nu-Sui: gear-combination core of the bicycle gear trainer

    A shallow embedding of the computational core of [nu-sui_EN.py]
    (the Spanish file [nu-sui_ES.py] is the same program with translated
    display strings): the chain-crossing classifier, the gear-ratio and
    speed formulas, the construction of the drivetrain lists, the overlap
    report and the gear recommendation search.

    Python [float] is IEEE-754 binary64; it is modelled by the
    [spec_float] type of the Standard Library, whose operations compute
    on exact mantissa/exponent pairs.  Python [int] is [Z].  Exceptions
    are an explicit [result] type; the [handle_errors] decorator turns a
    raised exception into the value [None]. *)

From Stdlib Require Import ZArith Lia Bool List.
From Stdlib Require Import Floats.SpecFloat.
From stdpp Require Import base option list strings gmap sorting.

Open Scope Z_scope.

(* ===================================================================== *)
(** * Part I: the model                                                   *)
(* ===================================================================== *)

(** ** Binary64 arithmetic *)

Module F64.

Definition prec : Z := 53.
Definition emax : Z := 1024.

Definition mul : spec_float → spec_float → spec_float := SFmul prec emax.
Definition div : spec_float → spec_float → spec_float := SFdiv prec emax.
Definition sub : spec_float → spec_float → spec_float := SFsub prec emax.
Definition abs : spec_float → spec_float := SFabs.
Definition ltb : spec_float → spec_float → bool := SFltb.
Definition leb : spec_float → spec_float → bool := SFleb.

(** The float nearest to an integer (ties to even). *)
Definition of_Z (n : Z) : spec_float := binary_normalize prec emax n 0 false.

(** A decimal literal [num/den], e.g. [0.35] is [lit 35 100]: both
    integers are exact, and the division rounds the exact quotient. *)
Definition lit (num den : Z) : spec_float := div (of_Z num) (of_Z den).

Definition inf : spec_float := S754_infinity false.

Definition is_finite (x : spec_float) : bool :=
  match x with
  | S754_zero _ | S754_finite _ _ _ => true
  | _ => false
  end.

Definition is_zero (x : spec_float) : bool :=
  match x with
  | S754_zero _ => true
  | _ => false
  end.

(** Nearest integer to [m * 2^e], ties to the even integer. *)
Definition round_half_even (m : positive) (e : Z) : Z :=
  if 0 <=? e then Z.pos m * 2 ^ e
  else
    let d := 2 ^ (- e) in
    let q := Z.pos m / d in
    let r := Z.pos m mod d in
    match 2 * r ?= d with
    | Lt => q
    | Gt => q + 1
    | Eq => if Z.even q then q else q + 1
    end.

End F64.

Abbreviation float := spec_float.

(** ** Python values, exceptions and the error decorator *)

Inductive exn : Type :=
  | ValueError (msg : string)
  | ZeroDivisionError
  | OverflowError
  | TypeError
  | KeyError (key : string)
  | IndexError
  | UnboundLocalError (name : string).

Inductive result (A : Type) : Type :=
  | Ok (a : A)
  | Raise (e : exn).
Arguments Ok {A} a.
Arguments Raise {A} e.

#[global] Instance result_ret : MRet result := λ A a, Ok a.
#[global] Instance result_bind : MBind result := λ A B f r,
  match r with
  | Ok a => f a
  | Raise e => Raise e
  end.
#[global] Instance result_fmap : FMap result := λ A B f r,
  match r with
  | Ok a => Ok (f a)
  | Raise e => Raise e
  end.

(** [handle_errors(func)]: the wrapper catches every exception, shows a
    message box (not modelled) and returns [None]. *)
Definition handle_errors {A : Type} (r : result A) : option A :=
  match r with
  | Ok a => Some a
  | Raise _ => None
  end.

(** [float(n)] for an [int], as performed implicitly by [n * x]. *)
Definition float_of_int (n : Z) : result float :=
  let x := F64.of_Z n in
  if F64.is_finite x then Ok x else Raise OverflowError.

(** [round(x)] with a single float argument. *)
Definition py_round (x : float) : result Z :=
  match x with
  | S754_nan => Raise (ValueError "cannot convert float NaN to integer")
  | S754_infinity _ => Raise OverflowError
  | S754_zero _ => Ok 0
  | S754_finite s m e => Ok (cond_Zopp s (F64.round_half_even m e))
  end.

(** [x / y] on floats. *)
Definition float_div (x y : float) : result float :=
  if F64.is_zero y then Raise ZeroDivisionError else Ok (F64.div x y).

(** [a / b] on ints (true division): the exact quotient rounded once. *)
Definition int_exact (a : Z) : float :=
  match a with
  | Z0 => S754_zero false
  | Zpos p => S754_finite false p 0
  | Zneg p => S754_finite true p 0
  end.

Definition int_truediv (a b : Z) : result float :=
  if b =? 0 then Raise ZeroDivisionError
  else
    let q := F64.div (int_exact a) (int_exact b) in
    if F64.is_finite q then Ok q else Raise OverflowError.

(** ** Application constants *)

Definition MIN_CADENCE : Z := 60.
Definition MAX_CADENCE : Z := 100.
Definition MIN_TEETH : Z := 11.
Definition MAX_TEETH : Z := 53.

(** ** Wheel-size catalog

    The module-level dictionary [wheel_sizes]: circumference in metres
    for each size label. *)

Definition wheel_sizes_items : list (string * float) := [
    ("700x18C", F64.lit 207 100);
    ("700x19C", F64.lit 208 100);
    ("700x20C", F64.lit 2086 1000);
    ("700x23C", F64.lit 2096 1000);
    ("700x25C", F64.lit 2105 1000);
    ("700x26C", F64.lit 2115 1000);
    ("700C", F64.lit 213 100);
    ("700x28C", F64.lit 2136 1000);
    ("700x30C", F64.lit 2146 1000);
    ("700x32C", F64.lit 2155 1000);
    ("700x35C", F64.lit 2168 1000);
    ("700x38C", F64.lit 218 100);
    ("700x40C", F64.lit 22 10);
    ("700x44C", F64.lit 2235 1000);
    ("700x45C", F64.lit 2242 1000);
    ("700x47C", F64.lit 2268 1000);
    ("650x20C", F64.lit 1938 1000);
    ("650x23C", F64.lit 1944 1000);
    ("650x35A", F64.lit 209 100);
    ("650x38B", F64.lit 2105 1000);
    ("650x38A", F64.lit 2125 1000);
    ("12x1.75", F64.lit 935 1000);
    ("12x1.95", F64.lit 94 100);
    ("14x1.50", F64.lit 102 100);
    ("14x1.75", F64.lit 1055 1000);
    ("16x1.50", F64.lit 1185 1000);
    ("16x1.75", F64.lit 1195 1000);
    ("16x2.00", F64.lit 1245 1000);
    ("16x1-1/8", F64.lit 129 100);
    ("16x1-3/8", F64.lit 13 10);
    ("18x1.50", F64.lit 134 100);
    ("18x1.75", F64.lit 135 100);
    ("20x1.25", F64.lit 145 100);
    ("20x1.35", F64.lit 146 100);
    ("20x1.50", F64.lit 149 100);
    ("20x1.75", F64.lit 1515 1000);
    ("20x1.95", F64.lit 1565 1000);
    ("20x1-1/8", F64.lit 1545 1000);
    ("20x1-3/8", F64.lit 1615 1000);
    ("22x1-3/8", F64.lit 177 100);
    ("22x1-1/2", F64.lit 1785 1000);
    ("24x3/4", F64.lit 1785 1000);
    ("24x1", F64.lit 1753 1000);
    ("24x1-1/8", F64.lit 1795 1000);
    ("24x1-1/4", F64.lit 1905 1000);
    ("24x1.75", F64.lit 189 100);
    ("24x2.00", F64.lit 1925 1000);
    ("24x2.125", F64.lit 1965 1000);
    ("26x7/8", F64.lit 192 100);
    ("26x1.25", F64.lit 195 100);
    ("26x1.40", F64.lit 2005 1000);
    ("26x1.50", F64.lit 201 100);
    ("26x1.75", F64.lit 2023 1000);
    ("26x1.95", F64.lit 205 100);
    ("26x2.00", F64.lit 2055 1000);
    ("26x2.1", F64.lit 2068 1000);
    ("26x2.125", F64.lit 207 100);
    ("26x2.35", F64.lit 2083 1000);
    ("26x3.00", F64.lit 217 100);
    ("26x1-1.0", F64.lit 1913 1000);
    ("26x1", F64.lit 1952 1000);
    ("26x1-1/8", F64.lit 197 100);
    ("26x1-3/8", F64.lit 2068 1000);
    ("26x1-1/2", F64.lit 21 10);
    ("27x1", F64.lit 2145 1000);
    ("27x1-1/8", F64.lit 2155 1000);
    ("27x1-1/4", F64.lit 2161 1000);
    ("27x1-3/8", F64.lit 2169 1000);
    ("27.5x1.50", F64.lit 2079 1000);
    ("27.5x1.95", F64.lit 209 100);
    ("27.5x2.10", F64.lit 2148 1000);
    ("27.5x2.25", F64.lit 2182 1000);
    ("29x2.25", F64.lit 2281 1000);
    ("29x2.1", F64.lit 2288 1000);
    ("29x2.2", F64.lit 2298 1000);
    ("29x2.3", F64.lit 2326 1000) ].

Definition wheel_sizes : gmap string float := list_to_map wheel_sizes_items.

(** ** The application object

    Only the attributes read by the core are kept; [self.wheel_sizes] is
    bound once to the module-level [wheel_sizes] and is read from there.
    The three Tk variables of the recommendation form hold the parsed
    values of [int(self.cadencia_var.get())],
    [float(self.target_speed_var.get())] and [float(self.slope_var.get())]. *)

Record NuSui : Type := {
  crankset_teeth : list Z;
  cassette_teeth : list Z;
  wheel_size_var : string;
  cadencia_var : Z;
  target_speed_var : float;
  slope_var : float
}.

(** ** Chain-crossing classifier *)

Definition msg_large : string :=
  "Large chainring with large sprocket: increases wear and reduces efficiency".
Definition msg_small : string :=
  "Small chainring with small sprocket: increases wear and reduces efficiency".
Definition msg_middle : string :=
  "Middle chainring with extreme sprocket: may cause wear".
Definition msg_intermediate : string :=
  "Intermediate chainring with extreme sprocket: may cause wear".

(** [max(lo, round(n * c))] for an int [n] and a float constant [c]. *)
Definition extreme (lo : Z) (n : Z) (c : float) : result Z :=
  x ← float_of_int n;
  r ← py_round (F64.mul x c);
  mret (Z.max lo r).

Definition num_chainrings (self : NuSui) : Z := Z.of_nat (length (crankset_teeth self)).
Definition num_sprockets (self : NuSui) : Z := Z.of_nat (length (cassette_teeth self)).

(** [is_chain_crossing(self, chainring_idx, sprocket_idx)].  The debug
    [print] calls do not influence the returned pair and are left out. *)
Definition is_chain_crossing (self : NuSui) (chainring_idx sprocket_idx : Z)
  : result (bool * option string) :=
  let num_chainrings := num_chainrings self in
  let num_sprockets := num_sprockets self in
  if num_chainrings <=? 1 then Ok (false, None)
  else if num_chainrings =? 2 then
    extreme_count ← extreme 2 num_sprockets (F64.lit 35 100);
    if (chainring_idx =? 0) && (sprocket_idx >=? num_sprockets - extreme_count)
    then Ok (true, Some msg_large)
    else if (chainring_idx =? num_chainrings - 1) && (sprocket_idx <? extreme_count)
    then Ok (true, Some msg_small)
    else Ok (false, None)
  else if num_chainrings =? 3 then
    extreme_count_large ← extreme 2 num_sprockets (F64.lit 4 10);
    extreme_count_small ← extreme 2 num_sprockets (F64.lit 4 10);
    medium_extreme_large ← extreme 1 num_sprockets (F64.lit 15 100);
    medium_extreme_small ← extreme 1 num_sprockets (F64.lit 15 100);
    if (chainring_idx =? 0) && (sprocket_idx >=? num_sprockets - extreme_count_large)
    then Ok (true, Some msg_large)
    else if (chainring_idx =? num_chainrings - 1) && (sprocket_idx <? extreme_count_small)
    then Ok (true, Some msg_small)
    else if (chainring_idx =? 1)
            && ((sprocket_idx >=? num_sprockets - medium_extreme_large)
                || (sprocket_idx <? medium_extreme_small))
    then Ok (true, Some msg_middle)
    else Ok (false, None)
  else
    extreme_count ← extreme 1 num_sprockets (F64.lit 3 10);
    if (chainring_idx =? 0) && (sprocket_idx >=? num_sprockets - extreme_count)
    then Ok (true, Some msg_large)
    else if (chainring_idx =? num_chainrings - 1) && (sprocket_idx <? extreme_count)
    then Ok (true, Some msg_small)
    else if (2 <? num_chainrings)
            && ((0 <? chainring_idx) && (chainring_idx <? num_chainrings - 1))
            && ((sprocket_idx =? 0) || (sprocket_idx >=? num_sprockets - 1))
    then Ok (true, Some msg_intermediate)
    else Ok (false, None).

(** The boolean component of the classifier's answer. *)
Definition crossing_flag (self : NuSui) (chainring_idx sprocket_idx : Z) : result bool :=
  fst <$> is_chain_crossing self chainring_idx sprocket_idx.

(** ** Python list helpers *)

(** [enumerate(l)] *)
Definition enumerate {A : Type} (l : list A) : list (Z * A) :=
  imap (λ i x, (Z.of_nat i, x)) l.

(** [l[i]] for an index produced by [range]. *)
Definition getitem {A : Type} (l : list A) (i : nat) : result A :=
  match l !! i with
  | Some x => Ok x
  | None => Raise IndexError
  end.

(** [l.index(x)] *)
Definition py_index (x : Z) (l : list Z) : result Z :=
  match list_find (λ y, y = x) l with
  | Some (i, _) => Ok (Z.of_nat i)
  | None => Raise (ValueError "x is not in list")
  end.

(** A [for] loop whose body may raise, threading the loop variables. *)
Fixpoint for_each {A S : Type} (body : S → A → result S) (l : list A) (st : S) : result S :=
  match l with
  | [] => Ok st
  | x :: l' => st' ← body st x; for_each body l' st'
  end.

(** [min(a, b)], [max(a, b)], [min(l)] and [max(l)] on floats: the first
    argument is kept unless a later one compares strictly smaller
    (larger). *)
Definition py_min2 (a b : float) : float := if F64.ltb b a then b else a.
Definition py_max2 (a b : float) : float := if F64.ltb a b then b else a.

Definition py_min (l : list float) : result float :=
  match l with
  | [] => Raise (ValueError "min() arg is an empty sequence")
  | x :: l' => Ok (foldl py_min2 x l')
  end.

Definition py_max (l : list float) : result float :=
  match l with
  | [] => Raise (ValueError "max() arg is an empty sequence")
  | x :: l' => Ok (foldl py_max2 x l')
  end.

(** [l.sort()] and [l.sort(reverse=True)] on lists of ints. *)
Definition py_sort (l : list Z) : list Z := merge_sort Z.le l.
Definition py_sort_reverse (l : list Z) : list Z := merge_sort (flip Z.le) l.

(** ** Building the drivetrain configuration *)

Record BikeType : Type := {
  name : string;
  value : string;
  chainrings : list Z;
  sprockets : list Z
}.

Definition bike_types : list BikeType := [
  {| name := "MTB (Mountain)"; value := "mtb";
     chainrings := [24; 34; 42]; sprockets := [14; 16; 18; 20; 22; 24; 34] |};
  {| name := "Road"; value := "road";
     chainrings := [34; 50]; sprockets := [14; 16; 18; 20; 22; 24; 28] |};
  {| name := "Urban/Commuter"; value := "urban";
     chainrings := [24; 34; 42]; sprockets := [14; 16; 18; 20; 22; 24; 28] |};
  {| name := "Custom"; value := "custom"; chainrings := []; sprockets := [] |} ].

(** Default wheel size per bike type (first component of
    [wheel_options[bike_value]]). *)
Definition wheel_options (bike_value : string) : option string :=
  if String.eqb bike_value "mtb" then Some "26x2.1"
  else if String.eqb bike_value "road" then Some "700x25C"
  else if String.eqb bike_value "urban" then Some "700x35C"
  else if String.eqb bike_value "custom" then Some "700C"
  else None.

Definition set_teeth (self : NuSui) (crankset cassette : list Z) : NuSui :=
  {| crankset_teeth := crankset; cassette_teeth := cassette;
     wheel_size_var := wheel_size_var self; cadencia_var := cadencia_var self;
     target_speed_var := target_speed_var self; slope_var := slope_var self |}.

Definition set_wheel_size (self : NuSui) (size : string) : NuSui :=
  {| crankset_teeth := crankset_teeth self; cassette_teeth := cassette_teeth self;
     wheel_size_var := size; cadencia_var := cadencia_var self;
     target_speed_var := target_speed_var self; slope_var := slope_var self |}.

(** [select_bike_type(self, bike_type)]: the record always has the three
    required keys, so the [ValueError] branch cannot be taken. *)
Definition select_bike_type (self : NuSui) (bike_type : BikeType) : NuSui :=
  let self := set_teeth self (py_sort_reverse (chainrings bike_type))
                             (py_sort (sprockets bike_type)) in
  let bike_value := value bike_type in
  let self := match wheel_options bike_value with
              | Some default_size => set_wheel_size self default_size
              | None => self
              end in
  if String.eqb bike_value "custom" then set_teeth self [] [] else self.

(** [save_custom_gears(self, window)] on the two parsed entry lists (a
    blank entry gives the empty list).  Returns the new state and whether
    the configuration was saved; on the validation error the lists stay
    assigned but unsorted. *)
Definition save_custom_gears (self : NuSui) (platos pinones : list Z) : NuSui * bool :=
  let self := set_teeth self platos pinones in
  if bool_decide (crankset_teeth self = []) || bool_decide (cassette_teeth self = [])
  then (self, false)
  else (set_teeth self (py_sort_reverse (crankset_teeth self)) (py_sort (cassette_teeth self)), true).

(** [validate_gear_configuration(self)] *)
Definition validate_gear_configuration (self : NuSui) : bool :=
  if bool_decide (crankset_teeth self = []) || bool_decide (cassette_teeth self = [])
  then false
  else forallb (λ teeth, (MIN_TEETH <=? teeth) && (teeth <=? MAX_TEETH))
               (crankset_teeth self ++ cassette_teeth self).

(** ** Gear math *)

(** The body of [calculate_gear_ratio]; callers see it through
    [handle_errors]. *)
Definition calculate_gear_ratio (chainring sprocket : Z) : result float :=
  if sprocket =? 0 then Raise (ValueError "Sprocket cannot have 0 teeth")
  else int_truediv chainring sprocket.

(** An operand that must be a float: [None] in arithmetic or in a
    numeric format specification raises [TypeError]. *)
Definition require_float (v : option float) : result float :=
  match v with
  | Some x => Ok x
  | None => Raise TypeError
  end.

Definition wheel_circumference (self : NuSui) : result float :=
  match wheel_sizes !! wheel_size_var self with
  | Some w => Ok w
  | None => Raise (KeyError (wheel_size_var self))
  end.

(** The body of [calculate_speed]: [(gear_ratio * wheel_circum * cadence
    * 60) / 1000]. *)
Definition calculate_speed (self : NuSui) (gear_ratio : option float) (cadence : Z)
  : result float :=
  wheel_circum ← wheel_circumference self;
  g ← require_float gear_ratio;
  c ← float_of_int cadence;
  float_div (F64.mul (F64.mul (F64.mul g wheel_circum) c) (F64.of_Z 60)) (F64.of_Z 1000).

(** ** Recommendation engine *)

(** [1 - slope/100 * 0.1] *)
Definition slope_factor (slope : float) : float :=
  F64.sub (F64.of_Z 1) (F64.mul (F64.div slope (F64.of_Z 100)) (F64.lit 1 10)).

(** The value [diff] computed in the body of both search loops. *)
Definition speed_diff (self : NuSui) (chainring sprocket : Z) : result float :=
  let gear_ratio := handle_errors (calculate_gear_ratio chainring sprocket) in
  let speed := handle_errors (calculate_speed self gear_ratio (cadencia_var self)) in
  s ← require_float speed;
  let adjusted_speed := F64.mul s (slope_factor (slope_var self)) in
  Ok (F64.abs (F64.sub adjusted_speed (target_speed_var self))).

(** Loop variables of the search; [best_i] and [best_j] are unbound
    ([None]) until the second loop assigns them. *)
Record search : Type := {
  best_chainring : option Z;
  best_sprocket : option Z;
  min_diff : float;
  best_i : option Z;
  best_j : option Z
}.

Definition search_init : search :=
  {| best_chainring := None; best_sprocket := None; min_diff := F64.inf;
     best_i := None; best_j := None |}.

(** Body of the first loop: crossing pairs are skipped. *)
Definition first_pass_body (self : NuSui) (i : Z) (chainring : Z) (st : search)
    (js : Z * Z) : result search :=
  let '(j, sprocket) := js in
  '(crossing, _) ← is_chain_crossing self i j;
  if crossing : bool then Ok st
  else
    diff ← speed_diff self chainring sprocket;
    if F64.ltb diff (min_diff st)
    then Ok {| best_chainring := Some chainring; best_sprocket := Some sprocket;
               min_diff := diff; best_i := best_i st; best_j := best_j st |}
    else Ok st.

(** Body of the second loop: every pair competes. *)
Definition second_pass_body (self : NuSui) (i : Z) (chainring : Z) (st : search)
    (js : Z * Z) : result search :=
  let '(j, sprocket) := js in
  diff ← speed_diff self chainring sprocket;
  if F64.ltb diff (min_diff st)
  then Ok {| best_chainring := Some chainring; best_sprocket := Some sprocket;
             min_diff := diff; best_i := Some i; best_j := Some j |}
  else Ok st.

(** The two nested [for] loops over [enumerate(self.crankset_teeth)] and
    [enumerate(self.cassette_teeth)]. *)
Definition gear_loops (self : NuSui)
    (body : Z → Z → search → Z * Z → result search) (st : search) : result search :=
  for_each (λ st ic, for_each (body (fst ic) (snd ic)) (enumerate (cassette_teeth self)) st)
           (enumerate (crankset_teeth self)) st.

Definition advice_steep : string :=
  "For steep slopes, maintain a high cadence and use lighter gears to avoid straining your knees.".
Definition advice_mild : string :=
  "Maintain a constant cadence. If you feel you're exerting too much force, switch to a lighter gear.".
Definition advice_descent : string :=
  "On descents, you can use harder gears or simply stop pedaling if the speed is high.".
Definition advice_flat : string :=
  "On flat terrain, try to maintain a comfortable cadence (80-90 RPM) and adjust the gear according to the wind and your physical condition.".

(** The [if slope > 8 / elif slope > 0 / elif slope < -5 / else] chain. *)
Definition slope_advice (slope : float) : string :=
  if F64.ltb (F64.of_Z 8) slope then advice_steep
  else if F64.ltb (F64.of_Z 0) slope then advice_mild
  else if F64.ltb slope (F64.of_Z (-5)) then advice_descent
  else advice_flat.

(** What the results panel displays. *)
Record Recommendation : Type := {
  rec_chainring : Z;
  rec_sprocket : Z;
  rec_chainring_idx : Z;
  rec_sprocket_idx : Z;
  rec_actual_speed : float;
  rec_gear_ratio : float;
  rec_development : float;
  rec_crossing : bool;
  rec_crossing_message : option string;
  rec_advice : string
}.

Definition unbound (name : string) (v : option Z) : result Z :=
  match v with
  | Some x => Ok x
  | None => Raise (UnboundLocalError name)
  end.

(** The body of [calculate_recommended_gear].  [Ok None] means that the
    panel stays empty ([best_chainring and best_sprocket] is falsy). *)
Definition calculate_recommended_gear (self : NuSui) : result (option Recommendation) :=
  let cadence := cadencia_var self in
  st ← gear_loops self (first_pass_body self) search_init;
  '(st, crossing, crossing_message) ←
    match best_chainring st with
    | None =>
        st ← gear_loops self (second_pass_body self)
               {| best_chainring := best_chainring st; best_sprocket := best_sprocket st;
                  min_diff := F64.inf; best_i := best_i st; best_j := best_j st |};
        bi ← unbound "best_i" (best_i st);
        bj ← unbound "best_j" (best_j st);
        '(crossing, crossing_message) ← is_chain_crossing self bi bj;
        Ok (st, crossing, crossing_message)
    | Some _ => Ok (st, false, None)
    end;
  match best_chainring st, best_sprocket st with
  | Some chainring, Some sprocket =>
      if (chainring =? 0) || (sprocket =? 0) then Ok None
      else
        let gear_ratio := handle_errors (calculate_gear_ratio chainring sprocket) in
        let actual_speed := handle_errors (calculate_speed self gear_ratio cadence) in
        chainring_idx ← py_index chainring (crankset_teeth self);
        sprocket_idx ← py_index sprocket (cassette_teeth self);
        speed ← require_float actual_speed;
        ratio ← require_float gear_ratio;
        wheel_circum ← wheel_circumference self;
        Ok (Some {| rec_chainring := chainring; rec_sprocket := sprocket;
                    rec_chainring_idx := chainring_idx + 1;
                    rec_sprocket_idx := sprocket_idx + 1;
                    rec_actual_speed := speed; rec_gear_ratio := ratio;
                    rec_development := F64.mul ratio wheel_circum;
                    rec_crossing := crossing; rec_crossing_message := crossing_message;
                    rec_advice := slope_advice (slope_var self) |})
  | _, _ => Ok None
  end.

(** ** Overlap analysis *)

(** The lines of the report, with the numbers they display. *)
Inductive overlap_line : Type :=
  | NeedTwoChainrings
  | BetweenUsable (chainring1 chainring2 : Z)
  | BetweenIncluding (chainring1 chainring2 : Z)
  | BetweenPlain (chainring1 chainring2 : Z)
  | OverlapRange (overlap_start overlap_end : float)
  | OverlapPercentage (overlap_pct : float)
  | EvaluationLow
  | EvaluationModerate
  | EvaluationHigh
  | NoOverlap
  | TotalRangeUsable (range_ratio : float)
  | CannotCalculateRange
  | TotalRangeAll (range_ratio : float)
  | RangeLimited
  | RangeModerate
  | RangeWide.

(** [[ratios[j] for j in range(len(ratios)) if not crosses[i][j]]] *)
Fixpoint usable_from (ratios : list float) (crosses : list (list bool)) (i j : nat)
  : result (list float) :=
  match ratios with
  | [] => Ok []
  | r :: ratios' =>
      row ← getitem crosses i;
      c ← getitem row j;
      rest ← usable_from ratios' crosses i (S j);
      Ok (if c : bool then rest else r :: rest)
  end.

Definition usable_ratios (ratios : list float) (crosses : list (list bool)) (i : nat)
  : result (list float) :=
  usable_from ratios crosses i 0.

(** [if crosses:] on an optional list. *)
Definition truthy {A : Type} (v : option (list A)) : option (list A) :=
  match v with
  | Some (x :: l) => Some (x :: l)
  | _ => None
  end.

Definition ranges_of (header : overlap_line) (ratios1 ratios2 : list float)
  : result (overlap_line * (float * float) * (float * float)) :=
  min_ratio1 ← py_min ratios1;
  max_ratio1 ← py_max ratios1;
  min_ratio2 ← py_min ratios2;
  max_ratio2 ← py_max ratios2;
  Ok (header, (min_ratio1, max_ratio1), (min_ratio2, max_ratio2)).

(** The part of the loop body after the four range ends are known. *)
Definition overlap_lines (header : overlap_line) (min_ratio1 max_ratio1 min_ratio2 max_ratio2 : float)
  : result (list overlap_line) :=
  let overlap_start := py_max2 min_ratio1 min_ratio2 in
  let overlap_end := py_min2 max_ratio1 max_ratio2 in
  if F64.leb overlap_start overlap_end then
    q ← float_div (F64.sub overlap_end overlap_start) (F64.sub max_ratio1 min_ratio1);
    let overlap_pct := F64.mul q (F64.of_Z 100) in
    Ok [header; OverlapRange overlap_start overlap_end; OverlapPercentage overlap_pct;
        if F64.ltb overlap_pct (F64.of_Z 10) then EvaluationLow
        else if F64.ltb overlap_pct (F64.of_Z 30) then EvaluationModerate
        else EvaluationHigh]
  else Ok [header; NoOverlap].

(** One iteration of the loop over adjacent chainrings. *)
Definition overlap_between (self : NuSui) (all_ratios : list (list float))
    (crosses : option (list (list bool))) (i : nat) : result (list overlap_line) :=
  chainring1 ← getitem (crankset_teeth self) i;
  chainring2 ← getitem (crankset_teeth self) (i + 1);
  ratios1 ← getitem all_ratios i;
  ratios2 ← getitem all_ratios (i + 1);
  '(header, (min_ratio1, max_ratio1), (min_ratio2, max_ratio2)) ←
    match truthy crosses with
    | Some crosses =>
        filtered_ratios1 ← usable_ratios ratios1 crosses i;
        filtered_ratios2 ← usable_ratios ratios2 crosses (i + 1);
        match filtered_ratios1, filtered_ratios2 with
        | _ :: _, _ :: _ =>
            ranges_of (BetweenUsable chainring1 chainring2) filtered_ratios1 filtered_ratios2
        | _, _ => ranges_of (BetweenIncluding chainring1 chainring2) ratios1 ratios2
        end
    | None => ranges_of (BetweenPlain chainring1 chainring2) ratios1 ratios2
    end;
  overlap_lines header min_ratio1 max_ratio1 min_ratio2 max_ratio2.

(** The general range section at the end of the report. *)
Definition total_range (all_ratios : list (list float)) (crosses : option (list (list bool)))
  : result (list overlap_line) :=
  usable_part ←
    match truthy crosses with
    | Some crosses =>
        all_filtered_ratios ←
          for_each (λ acc ir, filtered ← usable_ratios (snd ir) crosses (fst ir);
                              Ok (acc ++ filtered))
                   (imap (λ i ratios, (i, ratios)) all_ratios) [];
        match all_filtered_ratios with
        | [] => Ok [CannotCalculateRange]
        | _ :: _ =>
            min_ratio ← py_min all_filtered_ratios;
            max_ratio ← py_max all_filtered_ratios;
            range_ratio ← float_div max_ratio min_ratio;
            Ok [TotalRangeUsable range_ratio]
        end
    | None => Ok []
    end;
  let all_ratios_flat := concat all_ratios in
  min_ratio ← py_min all_ratios_flat;
  max_ratio ← py_max all_ratios_flat;
  range_ratio ← float_div max_ratio min_ratio;
  Ok (usable_part ++
      [TotalRangeAll range_ratio;
       if F64.ltb range_ratio (F64.of_Z 3) then RangeLimited
       else if F64.ltb range_ratio (F64.of_Z 5) then RangeModerate
       else RangeWide]).

(** The body of [calculate_overlap_analysis]. *)
Definition calculate_overlap_analysis (self : NuSui) (all_ratios : list (list float))
    (crosses : option (list (list bool))) : result (list overlap_line) :=
  if (length all_ratios <=? 1)%nat then Ok [NeedTwoChainrings]
  else
    pairs ← for_each (λ acc i, lines ← overlap_between self all_ratios crosses i;
                               Ok (acc ++ lines))
                     (seq 0 (length all_ratios - 1)) [];
    totals ← total_range all_ratios crosses;
    Ok (pairs ++ totals).

(** The data that [setup_overlap_tab] prepares for the analysis: one row
    of ratios and one row of crossing flags per chainring.  A ratio that
    is [None] cannot be used by the numeric code that follows and is
    reported as [TypeError]. *)
Definition overlap_tab_data (self : NuSui) : result (list (list float) * list (list bool)) :=
  for_each
    (λ acc ic,
       row ← for_each
               (λ row js,
                  gear_ratio ← require_float
                    (handle_errors (calculate_gear_ratio (snd ic) (snd js)));
                  '(crossing, _) ← is_chain_crossing self (fst ic) (fst js);
                  Ok (fst row ++ [gear_ratio], snd row ++ [crossing]))
               (enumerate (cassette_teeth self)) ([], []);
       Ok (fst acc ++ [fst row], snd acc ++ [snd row]))
    (enumerate (crankset_teeth self)) ([], []).

(** The text inserted in the overlap panel: [calculate_overlap_analysis]
    is called through [handle_errors]. *)
Definition overlap_tab_text (self : NuSui) : result (option (list overlap_line)) :=
  data ← overlap_tab_data self;
  Ok (handle_errors (calculate_overlap_analysis self (fst data) (Some (snd data)))).
(** ** Specification-side notions used in the statements *)

(** [r] is a positive 53-bit float whose distance to the exact quotient
    [a/b] (for [a, b > 0]) is at most half a unit in its last place:
    the quotient rounded once to nearest. *)
Definition nearest_quotient (a b : Z) (r : float) : bool :=
  match r with
  | S754_finite false m e =>
      (Z.pos (digits2_pos m) =? F64.prec) && (e <? 0)
      && (2 * Z.abs (a * 2 ^ (- e) - Z.pos m * b) <=? b)
  | _ => false
  end.

(** The integers [lo, lo+1, ..., hi]. *)
Definition teeth_range : list Z := seqZ MIN_TEETH (MAX_TEETH - MIN_TEETH + 1).

(** Order key of a float that is not a NaN: floats compare as their keys
    compare lexicographically. *)
Definition fkey (x : float) : Z * Z * Z :=
  match x with
  | S754_nan => (0, 0, 0)
  | S754_zero _ => (0, 0, 0)
  | S754_infinity s => (if s then -2 else 2, 0, 0)
  | S754_finite false m e => (1, e, Z.pos m)
  | S754_finite true m e => (-1, - e, - Z.pos m)
  end.

Definition lex_lt (p q : Z * Z * Z) : Prop :=
  p.1.1 < q.1.1 ∨ (p.1.1 = q.1.1 ∧ (p.1.2 < q.1.2 ∨ (p.1.2 = q.1.2 ∧ p.2 < q.2))).

Definition lex_le (p q : Z * Z * Z) : Prop :=
  p.1.1 < q.1.1 ∨ (p.1.1 = q.1.1 ∧ (p.1.2 < q.1.2 ∨ (p.1.2 = q.1.2 ∧ p.2 ≤ q.2))).

Definition not_nan (x : float) : Prop := x ≠ S754_nan.

(** Strict and weak order on floats, as the comparison operators decide
    them. *)
Definition flt (x y : float) : Prop := F64.ltb x y = true.
Definition fle (x y : float) : Prop := F64.leb x y = true.

(** Chainrings are kept large to small, sprockets small to large. *)
Definition descending (l : list Z) : Prop := Sorted (flip Z.le) l.
Definition ascending (l : list Z) : Prop := Sorted Z.le l.

(** [below k x]: [x] is zero or finite with magnitude below [2^k];
    [above k x]: [x] is finite with magnitude at least [2^(k-1)]. *)
Definition below (k : Z) (x : float) : bool :=
  match x with
  | S754_zero _ => true
  | S754_finite _ m e => Z.pos (digits2_pos m) + e <=? k
  | _ => false
  end.

Definition above (k : Z) (x : float) : bool :=
  match x with
  | S754_finite _ m e => k <=? Z.pos (digits2_pos m) + e
  | _ => false
  end.


(** ** Notions used to state the properties of the search *)

(** The pairs [((i, chainring), (j, sprocket))] visited by the two nested
    loops, in the order of the visit. *)
Definition gear_pairs (self : NuSui) : list ((Z * Z) * (Z * Z)) :=
  ic ← enumerate (crankset_teeth self);
  js ← enumerate (cassette_teeth self);
  [(ic, js)].

(** The configuration has chainring [chainring] at index [i] and sprocket
    [sprocket] at index [j]. *)
Definition gear (self : NuSui) (i j chainring sprocket : Z) : Prop :=
  ((i, chainring), (j, sprocket)) ∈ gear_pairs self.

Definition some_non_crossing (self : NuSui) : Prop :=
  ∃ i j chainring sprocket,
    gear self i j chainring sprocket ∧ crossing_flag self i j = Ok false.

(** The pairs that compete in the search: the non-crossing ones, or all
    of them when there is no non-crossing one. *)
Definition candidate (self : NuSui) (i j chainring sprocket : Z) : Prop :=
  gear self i j chainring sprocket
  ∧ (crossing_flag self i j = Ok false ∨ ¬ some_non_crossing self).

(** [(i', j')] is visited before [(i, j)]. *)
Definition visited_before (i' j' i j : Z) : Prop := i' < i ∨ (i' = i ∧ j' < j).

(** The same order on the visited pairs. *)
Definition idx_lt (p q : (Z * Z) * (Z * Z)) : Prop :=
  visited_before p.1.1 p.2.1 q.1.1 q.2.1.

(** Inputs of the recommendation form within the range of a Python
    session: a wheel size of the catalog, a cadence, a target speed and a
    slope that are finite and below [2^64] in magnitude (the sliders give
    60..100, 5..50 and -10..20), and a sprocket list whose length is a
    machine-size integer. *)
Definition bounded_inputs (self : NuSui) : Prop :=
  is_Some (wheel_sizes !! wheel_size_var self)
  ∧ Z.abs (cadencia_var self) < 2 ^ 64
  ∧ below 64 (target_speed_var self) = true
  ∧ below 64 (slope_var self) = true
  ∧ num_sprockets self < 2 ^ 63.

(** Total views of the classifier and of the speed difference, used where
    both are known not to raise. *)
Definition crossing_of (self : NuSui) (p : (Z * Z) * (Z * Z)) : bool :=
  match is_chain_crossing self p.1.1 p.2.1 with
  | Ok (crossing, _) => crossing
  | Raise _ => false
  end.

Definition diff_of (self : NuSui) (p : (Z * Z) * (Z * Z)) : float :=
  match speed_diff self p.1.2 p.2.2 with
  | Ok diff => diff
  | Raise _ => S754_nan
  end.

(** The loop variables after a pair [p] has been recorded. *)
Definition recorded (with_indices : bool) (p : (Z * Z) * (Z * Z)) (diff : float) : search :=
  {| best_chainring := Some p.1.2; best_sprocket := Some p.2.2; min_diff := diff;
     best_i := if with_indices then Some p.1.1 else None;
     best_j := if with_indices then Some p.2.1 else None |}.

(** The pure step of either loop on a pair that competes. *)
Definition search_step (self : NuSui) (with_indices : bool) (st : search)
    (p : (Z * Z) * (Z * Z)) : search :=
  if F64.ltb (diff_of self p) (min_diff st)
  then recorded with_indices p (diff_of self p)
  else st.

(** ** Gear table *)

(** A cell of the speed table: ["---"] for a crossing pair, otherwise the
    speed that [f"{speed:.1f}"] formats. *)
Inductive table_cell : Type :=
  | Hidden
  | Shown (speed : float).

(** What [create_gear_table] puts on screen: one row per chainring (its
    tooth count and the cells), and the two numbers of the warning. *)
Record GearTable : Type := {
  table_rows : list (Z * list table_cell);
  crossing_count : Z;
  total_combinations : Z
}.

(** Body of the inner loop of [create_gear_table]; the loop variables are
    [row_values] (without its label) and [crossing_count]. *)
Definition gear_table_cell (self : NuSui) (cadence : Z) (i chainring : Z)
    (acc : list table_cell * Z) (js : Z * Z) : result (list table_cell * Z) :=
  let '(j, sprocket) := js in
  let gear_ratio := handle_errors (calculate_gear_ratio chainring sprocket) in
  let speed := handle_errors (calculate_speed self gear_ratio cadence) in
  '(crossing, _) ← is_chain_crossing self i j;
  if crossing : bool then Ok (acc.1 ++ [Hidden], acc.2 + 1)
  else
    v ← require_float speed;
    Ok (acc.1 ++ [Shown v], acc.2).

(** Body of the outer loop: a row is filled and inserted in the tree. *)
Definition gear_table_row (self : NuSui) (cadence : Z)
    (acc : list (Z * list table_cell) * Z) (ic : Z * Z)
  : result (list (Z * list table_cell) * Z) :=
  row ← for_each (gear_table_cell self cadence ic.1 ic.2)
                 (enumerate (cassette_teeth self)) ([], acc.2);
  Ok (acc.1 ++ [(ic.2, row.1)], row.2).

(** The body of [create_gear_table]. *)
Definition create_gear_table (self : NuSui) (cadence : Z) : result GearTable :=
  let total_combinations := num_chainrings self * num_sprockets self in
  filled ← for_each (gear_table_row self cadence) (enumerate (crankset_teeth self)) ([], 0);
  _ ← wheel_circumference self;
  Ok {| table_rows := filled.1; crossing_count := filled.2;
        total_combinations := total_combinations |}.

(** Number of ["---"] cells. *)
Fixpoint count_hidden (cells : list table_cell) : Z :=
  match cells with
  | [] => 0
  | Hidden :: cells' => 1 + count_hidden cells'
  | Shown _ :: cells' => count_hidden cells'
  end.

(** A cell agrees with the classifier and the speed formula for the pair
    [(i, chainring)], [(j, sprocket)]. *)
Definition cell_agrees (self : NuSui) (cadence : Z) (ic js : Z * Z) (c : table_cell) : Prop :=
  match c with
  | Hidden => crossing_flag self ic.1 js.1 = Ok true
  | Shown v =>
      crossing_flag self ic.1 js.1 = Ok false
      ∧ ∃ g, calculate_gear_ratio ic.2 js.2 = Ok g
             ∧ calculate_speed self (Some g) cadence = Ok v
  end.

Definition row_agrees (self : NuSui) (cadence : Z) (ic : Z * Z) (row : Z * list table_cell)
  : Prop :=
  row.1 = ic.2
  ∧ Forall2 (cell_agrees self cadence ic) (enumerate (cassette_teeth self)) row.2.

(** ** Wheel sizes offered for each bike type (second component of
    [wheel_options[bike_value]]) *)
Definition wheel_option_sizes (bike_value : string) : option (list string) :=
  if String.eqb bike_value "mtb"
  then Some ["26x2.1"; "26x2.35"; "27.5x2.10"; "27.5x2.25"; "29x2.1"; "29x2.25"; "29x2.3"]
  else if String.eqb bike_value "road" then Some ["700x23C"; "700x25C"; "700x28C"; "700C"]
  else if String.eqb bike_value "urban"
  then Some ["700x35C"; "700x38C"; "700x40C"; "26x1.75"]
  else if String.eqb bike_value "custom" then Some (wheel_sizes_items.*1)
  else None.

(** ** Specification-side notions for the gear math *)

(** The ratio as a float, NaN standing for a raised exception. *)
Definition ratio_of (chainring sprocket : Z) : float :=
  match calculate_gear_ratio chainring sprocket with
  | Ok r => r
  | Raise _ => S754_nan
  end.

(** [x] is not negative: a zero, or a finite or infinite number with the
    sign bit clear. *)
Definition sign_clear (x : float) : bool :=
  match x with
  | S754_zero _ => true
  | S754_finite s _ _ => negb s
  | S754_infinity s => negb s
  | S754_nan => false
  end.

(** ** Invariant of the second search loop *)

(** When the loop variables [best_i] and [best_j] are bound, they are
    the indices of the recorded chainring and sprocket. *)
Definition indexed_gear (self : NuSui) (st : search) : Prop :=
  ∀ i j, best_i st = Some i → best_j st = Some j →
    ∃ chainring sprocket,
      best_chainring st = Some chainring ∧ best_sprocket st = Some sprocket
      ∧ gear self i j chainring sprocket.

(** ** Data of the overlap analysis *)

(** The two matrices that [setup_overlap_tab] builds for a validated
    configuration: the ratio and the crossing flag of every pair. *)
Definition ratio_rows (self : NuSui) : list (list float) :=
  (λ ic : Z * Z, (λ js : Z * Z, ratio_of ic.2 js.2) <$> enumerate (cassette_teeth self))
    <$> enumerate (crankset_teeth self).

Definition crossing_rows (self : NuSui) : list (list bool) :=
  (λ ic : Z * Z, (λ js : Z * Z, crossing_of self (ic, js)) <$> enumerate (cassette_teeth self))
    <$> enumerate (crankset_teeth self).

(** The sprockets, with their indices, that do not cross the chain on
    the chainring [ic]. *)
Definition usable_sprockets (self : NuSui) (ic : Z * Z) : list (Z * Z) :=
  filter (λ js, crossing_of self (ic, js) = false) (enumerate (cassette_teeth self)).

(** ** Checks over the valid tooth counts *)

(** The ratios of one chainring with every valid sprocket, computed
    once. *)
Definition ratio_row_of (c : Z) : list (Z * float) :=
  (λ s, (s, ratio_of c s)) <$> teeth_range.

(** Every ratio of the row is finite and not zero, and the difference
    between the ratios of a sprocket and of a larger one is not zero. *)
Definition ratio_gaps_nonzero (c : Z) : bool :=
  let row := ratio_row_of c in
  forallb (λ x,
    negb (F64.is_zero x.2) && F64.is_finite x.2
    && forallb (λ y, (y.1 <=? x.1) || negb (F64.is_zero (F64.sub x.2 y.2))) row) row.
(** ** Concrete configurations used as test inputs *)

Definition road_10 : NuSui :=
  {| crankset_teeth := [50; 34];
     cassette_teeth := [11; 12; 14; 16; 18; 21; 24; 28; 32; 36];
     wheel_size_var := "700x25C"; cadencia_var := 90;
     target_speed_var := F64.of_Z 20; slope_var := F64.of_Z 0 |}.

Definition mtb_preset : NuSui :=
  {| crankset_teeth := [42; 34; 24];
     cassette_teeth := [14; 16; 18; 20; 22; 24; 34];
     wheel_size_var := "26x2.1"; cadencia_var := 80;
     target_speed_var := F64.of_Z 20; slope_var := F64.of_Z 0 |}.


(** Two chainrings with the same tooth count and a single sprocket, as
    typed into the manual configuration dialog ("34,34" and "14"). *)
Definition twin_chainrings : NuSui :=
  {| crankset_teeth := [34; 34];
     cassette_teeth := [14];
     wheel_size_var := "700C"; cadencia_var := 80;
     target_speed_var := F64.of_Z 20; slope_var := F64.of_Z 0 |}.

Definition road_preset : NuSui :=
  {| crankset_teeth := [50; 34];
     cassette_teeth := [14; 16; 18; 20; 22; 24; 28];
     wheel_size_var := "700x25C"; cadencia_var := 90;
     target_speed_var := F64.of_Z 20; slope_var := F64.of_Z 0 |}.

(** Two equal chainrings and a repeated sprocket: the pairs (0, 1) and
    (1, 2) both give the ratio 34/16 and neither crosses the chain. *)
Definition tied_gears : NuSui :=
  {| crankset_teeth := [34; 34];
     cassette_teeth := [14; 16; 16; 18];
     wheel_size_var := "700C"; cadencia_var := 80;
     target_speed_var := F64.of_Z 22; slope_var := F64.of_Z 0 |}.

(** Four chainrings, for the general rule of the classifier. *)
Definition quad_chainrings : NuSui :=
  {| crankset_teeth := [52; 44; 36; 28];
     cassette_teeth := [11; 13; 15; 17; 19; 21; 24; 28; 32; 36];
     wheel_size_var := "700C"; cadencia_var := 80;
     target_speed_var := F64.of_Z 25; slope_var := F64.of_Z 0 |}.

(** A wheel size typed into the combobox that the catalog does not
    have. *)
Definition unknown_wheel : NuSui :=
  {| crankset_teeth := [50; 34];
     cassette_teeth := [14; 16; 18; 20; 22; 24; 28];
     wheel_size_var := "28x1.5"; cadencia_var := 90;
     target_speed_var := F64.of_Z 20; slope_var := F64.of_Z 0 |}.

(** The state after selecting the custom bike type. *)
Definition custom_selected : NuSui :=
  {| crankset_teeth := []; cassette_teeth := [];
     wheel_size_var := "700C"; cadencia_var := 80;
     target_speed_var := F64.of_Z 20; slope_var := F64.of_Z 0 |}.

(** A single chainring. *)
Definition single_chainring : NuSui :=
  {| crankset_teeth := [38];
     cassette_teeth := [11; 13; 15; 18; 21; 24; 28; 32];
     wheel_size_var := "700C"; cadencia_var := 80;
     target_speed_var := F64.of_Z 25; slope_var := F64.of_Z 0 |}.
(* ===================================================================== *)
(** * Part II: properties                                                 *)
(* ===================================================================== *)

(** ** Order of binary64 numbers *)

Section FloatOrder.

Lemma compare_cont_Eq (p q : positive) : Pos.compare_cont Eq p q = (p ?= q)%positive.
Proof. reflexivity. Qed.

Ltac float_cases :=
  unfold flt, fle, F64.ltb, F64.leb, SFltb, SFleb, SFcompare, not_nan, lex_lt, lex_le, fkey;
  intros;
  repeat match goal with
  | x : float |- _ => destruct x as [[]|[]| |[] ? ?]
  end;
  simpl in *; try congruence; try tauto; try lia;
  rewrite ?compare_cont_Eq;
  repeat match goal with
  | |- context [(?a ?= ?b)%Z] => destruct (Z.compare_spec a b)
  | |- context [(?a ?= ?b)%positive] => destruct (Pos.compare_spec a b)
  end;
  simpl; split; intros; try congruence; try lia.

Lemma flt_key (x y : float) :
  not_nan x → not_nan y → flt x y ↔ lex_lt (fkey x) (fkey y).
Proof. float_cases. Qed.

Lemma fle_key (x y : float) :
  not_nan x → not_nan y → fle x y ↔ lex_le (fkey x) (fkey y).
Proof. float_cases. Qed.

Lemma flt_not_nan (x y : float) : flt x y → not_nan x ∧ not_nan y.
Proof. unfold flt, F64.ltb, SFltb, not_nan. destruct x, y; simpl; intros; split; congruence. Qed.

Lemma fle_not_nan (x y : float) : fle x y → not_nan x ∧ not_nan y.
Proof. unfold fle, F64.leb, SFleb, not_nan. destruct x, y; simpl; intros; split; congruence. Qed.

Lemma fle_refl (x : float) : not_nan x → fle x x.
Proof. intros Hx. apply fle_key; auto. unfold lex_le. lia. Qed.

Lemma flt_fle (x y : float) : flt x y → fle x y.
Proof.
  intros H. destruct (flt_not_nan _ _ H) as [Hx Hy].
  apply fle_key; auto. apply flt_key in H; auto. unfold lex_lt, lex_le in *. lia.
Qed.

Lemma not_flt_fle (x y : float) :
  not_nan x → not_nan y → F64.ltb x y = false → fle y x.
Proof.
  intros Hx Hy H. apply fle_key; auto.
  assert (Hn : ¬ flt x y) by (unfold flt; congruence).
  rewrite flt_key in Hn by auto. unfold lex_lt, lex_le in *. lia.
Qed.

Lemma fle_not_flt (x y : float) : fle x y → F64.ltb y x = false.
Proof.
  intros H. destruct (fle_not_nan _ _ H) as [Hx Hy].
  apply fle_key in H; auto.
  destruct (F64.ltb y x) eqn:E; [|reflexivity].
  apply (flt_key y x) in E; auto. unfold lex_lt, lex_le in *. lia.
Qed.

Lemma flt_fle_trans (x y z : float) : flt x y → fle y z → flt x z.
Proof.
  intros H1 H2. destruct (flt_not_nan _ _ H1) as [Hx Hy].
  destruct (fle_not_nan _ _ H2) as [_ Hz].
  apply flt_key; auto. apply flt_key in H1; auto. apply fle_key in H2; auto.
  unfold lex_lt, lex_le in *. lia.
Qed.

Lemma fle_flt_trans (x y z : float) : fle x y → flt y z → flt x z.
Proof.
  intros H1 H2. destruct (fle_not_nan _ _ H1) as [Hx Hy].
  destruct (flt_not_nan _ _ H2) as [_ Hz].
  apply flt_key; auto. apply fle_key in H1; auto. apply flt_key in H2; auto.
  unfold lex_lt, lex_le in *. lia.
Qed.

Lemma fle_trans (x y z : float) : fle x y → fle y z → fle x z.
Proof.
  intros H1 H2. destruct (fle_not_nan _ _ H1) as [Hx Hy].
  destruct (fle_not_nan _ _ H2) as [_ Hz].
  apply fle_key; auto. apply fle_key in H1; auto. apply fle_key in H2; auto.
  unfold lex_lt, lex_le in *. lia.
Qed.

Lemma finite_not_nan (x : float) : F64.is_finite x = true → not_nan x.
Proof. unfold not_nan. destruct x; simpl; congruence. Qed.

Lemma finite_flt_inf (x : float) : F64.is_finite x = true → flt x F64.inf.
Proof.
  unfold flt, F64.ltb, F64.inf.
  destruct x as [[]|[]| |[] ? ?]; simpl; intros; try discriminate; reflexivity.
Qed.

End FloatOrder.


(** ** Magnitude of the results of binary64 operations *)

Section Magnitude.

Lemma digits2_size (p : positive) : digits2_pos p = Pos.size p.
Proof. induction p; simpl; congruence. Qed.

Lemma digits2_gt (p : positive) : Z.pos p < 2 ^ Z.pos (digits2_pos p).
Proof.
  rewrite digits2_size. pose proof (Pos.size_gt p) as H.
  apply Pos2Z.pos_lt_pos in H. rewrite Pos2Z.inj_pow in H. exact H.
Qed.

Lemma digits2_le (p : positive) : 2 ^ Z.pos (digits2_pos p) ≤ 2 * Z.pos p.
Proof.
  rewrite digits2_size. pose proof (Pos.size_le p) as H.
  apply Pos2Z.pos_le_pos in H. rewrite Pos2Z.inj_pow in H. exact H.
Qed.

Lemma Zdigits2_nonneg (m : Z) : 0 ≤ Zdigits2 m.
Proof. destruct m; simpl; lia. Qed.

Lemma Zdigits2_bound (m k : Z) : 0 ≤ m → 0 ≤ k → m < 2 ^ k → Zdigits2 m ≤ k.
Proof.
  intros Hm Hk Hlt. destruct m as [|p|p]; simpl; [lia| |lia].
  pose proof (digits2_le p) as Hle.
  destruct (Z.le_gt_cases (Z.pos (digits2_pos p)) k) as [|Hgt]; [assumption|].
  exfalso.
  assert (2 ^ (k + 1) ≤ 2 ^ Z.pos (digits2_pos p)) by (apply Z.pow_le_mono_r; lia).
  rewrite Z.pow_add_r in H by lia. lia.
Qed.

Lemma Zdigits2_gt (m : Z) : 0 ≤ m → m < 2 ^ Zdigits2 m.
Proof.
  intros Hm. destruct m as [|p|p]; simpl; [lia| |lia]. apply digits2_gt.
Qed.

Lemma Zdigits2_succ (m : Z) : 0 ≤ m → Zdigits2 (m + 1) ≤ Zdigits2 m + 1.
Proof.
  intros Hm. pose proof (Zdigits2_gt m Hm) as H. pose proof (Zdigits2_nonneg m).
  apply Zdigits2_bound; [lia..|].
  rewrite Z.pow_add_r by lia. lia.
Qed.

Lemma Zdigits2_mul (p q : positive) :
  Zdigits2 (Z.pos (p * q)) ≤ Z.pos (digits2_pos p) + Z.pos (digits2_pos q).
Proof.
  apply Zdigits2_bound; [lia..|].
  rewrite Pos2Z.inj_mul, Z.pow_add_r by lia.
  pose proof (digits2_gt p). pose proof (digits2_gt q). nia.
Qed.

Lemma shr_1_digits (r : shr_record) :
  0 ≤ shr_m r →
  0 ≤ shr_m (shr_1 r) ∧ Zdigits2 (shr_m (shr_1 r)) = Z.max 0 (Zdigits2 (shr_m r) - 1).
Proof.
  destruct r as [m b s]. simpl. intros Hm.
  destruct m as [|[p|p|]|p]; simpl; lia.
Qed.

Lemma iter_shr_1_digits (n : positive) (r : shr_record) :
  0 ≤ shr_m r →
  0 ≤ shr_m (SpecFloat.iter_pos shr_1 n r)
  ∧ Zdigits2 (shr_m (SpecFloat.iter_pos shr_1 n r)) = Z.max 0 (Zdigits2 (shr_m r) - Z.pos n).
Proof.
  revert r. induction n as [n IH|n IH|]; intros r Hr; simpl.
  - destruct (shr_1_digits r Hr) as [H1 E1].
    destruct (IH _ H1) as [H2 E2]. destruct (IH _ H2) as [H3 E3].
    split; [assumption|]. rewrite E3, E2, E1. lia.
  - destruct (IH _ Hr) as [H2 E2]. destruct (IH _ H2) as [H3 E3].
    split; [assumption|]. rewrite E3, E2. lia.
  - destruct (shr_1_digits r Hr) as [H1 E1]. split; [assumption|]. rewrite E1. lia.
Qed.

Lemma shr_record_of_loc_m (m : Z) (l : location) : shr_m (shr_record_of_loc m l) = m.
Proof. destruct l as [|[]]; reflexivity. Qed.

(** One normalising shift keeps the magnitude bound. *)
Lemma shr_fexp_below (m e : Z) (l : location) (k : Z) :
  0 ≤ m → Zdigits2 m + e ≤ k → -1074 ≤ k →
  let '(mrs, e') := shr_fexp F64.prec F64.emax m e l in
  0 ≤ shr_m mrs ∧ Zdigits2 (shr_m mrs) + e' ≤ k ∧ e' ≤ k.
Proof.
  intros Hm Hk Hmin. unfold shr_fexp, shr.
  pose proof (Zdigits2_nonneg m) as Hd.
  assert (Hf : fexp F64.prec F64.emax (Zdigits2 m + e) ≤ k).
  { unfold fexp, emin, F64.prec, F64.emax. lia. }
  destruct (fexp F64.prec F64.emax (Zdigits2 m + e) - e) as [|n|n] eqn:En.
  - rewrite shr_record_of_loc_m. lia.
  - destruct (iter_shr_1_digits n (shr_record_of_loc m l)) as [H0 E];
      [rewrite shr_record_of_loc_m; assumption|].
    rewrite shr_record_of_loc_m in E. split; [assumption|]. rewrite E.
    unfold fexp, emin, F64.prec, F64.emax in *. lia.
  - rewrite shr_record_of_loc_m. lia.
Qed.

Lemma round_nearest_even_bound (m : Z) (l : location) :
  0 ≤ m → 0 ≤ round_nearest_even m l ∧ Zdigits2 (round_nearest_even m l) ≤ Zdigits2 m + 1.
Proof.
  intros Hm. pose proof (Zdigits2_succ m Hm).
  unfold round_nearest_even. destruct l as [|[]]; try destruct (Z.even m); lia.
Qed.

(** Rounding a magnitude below [2^k] yields a finite number below
    [2^(k+1)]. *)
Lemma binary_round_aux_below (s : bool) (m e : Z) (l : location) (k : Z) :
  0 ≤ m → Zdigits2 m + e ≤ k → -1074 ≤ k → k ≤ 970 →
  below (k + 1) (binary_round_aux F64.prec F64.emax s m e l) = true.
Proof.
  intros Hm Hk Hmin Hmax. unfold binary_round_aux.
  pose proof (shr_fexp_below m e l k Hm Hk Hmin) as H1.
  destruct (shr_fexp F64.prec F64.emax m e l) as [mrs1 e1].
  destruct H1 as (Hm1 & Hd1 & He1).
  destruct (round_nearest_even_bound (shr_m mrs1) (loc_of_shr_record mrs1) Hm1) as [Hm2 Hd2].
  pose proof (shr_fexp_below _ e1 loc_Exact (k + 1) Hm2 ltac:(lia) ltac:(lia)) as H3.
  destruct (shr_fexp F64.prec F64.emax _ e1 loc_Exact) as [mrs3 e3].
  destruct H3 as (Hm3 & Hd3 & He3).
  destruct (shr_m mrs3) as [|p|p] eqn:E3; simpl; [reflexivity| |lia].
  unfold F64.emax, F64.prec. 
  destruct (Z.leb_spec e3 (1024 - 53)); [|lia].
  simpl. simpl in Hd3. apply Z.leb_le. lia.
Qed.

Lemma below_mono (k k' : Z) (x : float) : below k x = true → k ≤ k' → below k' x = true.
Proof.
  destruct x; simpl; try congruence. rewrite !Z.leb_le. lia.
Qed.

Lemma below_finite (k : Z) (x : float) : below k x = true → F64.is_finite x = true.
Proof. destruct x; simpl; congruence. Qed.

Lemma above_nonzero (k : Z) (x : float) : above k x = true → F64.is_zero x = false.
Proof. destruct x; simpl; congruence. Qed.

Lemma below_abs (k : Z) (x : float) : below k x = true → below k (F64.abs x) = true.
Proof. destruct x; simpl; congruence. Qed.

Lemma mul_below (kx ky : Z) (x y : float) :
  below kx x = true → below ky y = true → -1074 ≤ kx + ky → kx + ky ≤ 970 →
  below (kx + ky + 1) (F64.mul x y) = true.
Proof.
  intros Hx Hy Hmin Hmax.
  destruct x as [sx| | |sx mx ex], y as [sy| | |sy my ey]; simpl in *; try congruence.
  apply Z.leb_le in Hx, Hy. pose proof (Zdigits2_mul mx my).
  apply binary_round_aux_below; lia.
Qed.

Lemma iter_xO_digits (m d : positive) :
  Z.pos (digits2_pos (Pos.iter xO m d)) = Z.pos (digits2_pos m) + Z.pos d.
Proof.
  induction d as [|d IH] using Pos.peano_ind.
  - simpl. lia.
  - rewrite Pos.iter_succ. simpl. lia.
Qed.

Lemma shl_align_digits (m : positive) (e e' : Z) :
  Z.pos (digits2_pos (shl_align m e e').1) + (shl_align m e e').2
  = Z.pos (digits2_pos m) + e.
Proof.
  unfold shl_align. destruct (e' - e) as [|d|d] eqn:E; simpl; try reflexivity.
  rewrite iter_xO_digits. lia.
Qed.

Lemma shl_align_min (m : positive) (e e' : Z) :
  e' ≤ e → Z.pos (digits2_pos (shl_align m e e').1) + e' = Z.pos (digits2_pos m) + e.
Proof.
  intros Hle. unfold shl_align. destruct (e' - e) as [|d|d] eqn:E; simpl; try lia.
  rewrite iter_xO_digits. lia.
Qed.

Lemma binary_round_below (s : bool) (m : positive) (e k : Z) :
  Z.pos (digits2_pos m) + e ≤ k → -1074 ≤ k → k ≤ 970 →
  below (k + 1) (binary_round F64.prec F64.emax s m e) = true.
Proof.
  intros Hk Hmin Hmax. unfold binary_round.
  pose proof (shl_align_digits m e (fexp F64.prec F64.emax (Z.pos (digits2_pos m) + e))) as E.
  destruct (shl_align m e _) as [mz ez]. simpl in E.
  apply binary_round_aux_below; simpl; lia.
Qed.

Lemma binary_normalize_below (m e k : Z) :
  Zdigits2 m + e ≤ k → -1074 ≤ k → k ≤ 970 →
  below (k + 1) (binary_normalize F64.prec F64.emax m e false) = true.
Proof.
  intros Hk Hmin Hmax. destruct m as [|p|p]; simpl; [reflexivity|..];
    apply binary_round_below; simpl in Hk; lia.
Qed.

Lemma of_Z_below (n k : Z) :
  Z.abs n < 2 ^ k → 0 ≤ k → k ≤ 970 → below (k + 1) (F64.of_Z n) = true.
Proof.
  intros Hn Hk Hmax. unfold F64.of_Z. apply binary_normalize_below; [|lia..].
  assert (Zdigits2 n = Zdigits2 (Z.abs n)) as -> by (destruct n; reflexivity).
  pose proof (Zdigits2_bound (Z.abs n) k). lia.
Qed.

Lemma Zdigits2_abs (m : Z) : Zdigits2 m = Zdigits2 (Z.abs m).
Proof. destruct m; reflexivity. Qed.

Lemma Zdigits2_add (a b : Z) (d : Z) :
  Zdigits2 a ≤ d → Zdigits2 b ≤ d → Zdigits2 (a + b) ≤ d + 1 ∧ Zdigits2 (a - b) ≤ d + 1.
Proof.
  intros Ha Hb. rewrite (Zdigits2_abs a) in Ha. rewrite (Zdigits2_abs b) in Hb.
  rewrite (Zdigits2_abs (a + b)), (Zdigits2_abs (a - b)).
  pose proof (Zdigits2_gt (Z.abs a) ltac:(lia)) as Ga.
  pose proof (Zdigits2_gt (Z.abs b) ltac:(lia)) as Gb.
  pose proof (Zdigits2_nonneg (Z.abs a)). pose proof (Zdigits2_nonneg (Z.abs b)).
  assert (2 ^ Zdigits2 (Z.abs a) ≤ 2 ^ d) by (apply Z.pow_le_mono_r; lia).
  assert (2 ^ Zdigits2 (Z.abs b) ≤ 2 ^ d) by (apply Z.pow_le_mono_r; lia).
  assert (2 ^ (d + 1) = 2 * 2 ^ d) by (rewrite Z.pow_add_r by lia; lia).
  split; apply Zdigits2_bound; lia.
Qed.

Lemma sub_below (kx ky k : Z) (x y : float) :
  below kx x = true → below ky y = true → kx ≤ k → ky ≤ k → -1074 ≤ k → k + 1 ≤ 970 →
  below (k + 2) (F64.sub x y) = true.
Proof.
  intros Hx Hy Hkx Hky Hmin Hmax.
  destruct x as [sx| | |sx mx ex], y as [sy| | |sy my ey]; simpl in *; try congruence.
  - destruct sx, sy; reflexivity.
  - apply Z.leb_le in Hy. apply Z.leb_le. lia.
  - apply Z.leb_le in Hx. apply Z.leb_le. lia.
  - apply Z.leb_le in Hx, Hy.
    pose proof (shl_align_min mx ex (Z.min ex ey) ltac:(lia)) as Ea.
    pose proof (shl_align_min my ey (Z.min ex ey) ltac:(lia)) as Eb.
    set (a := (shl_align mx ex (Z.min ex ey)).1) in *.
    set (b := (shl_align my ey (Z.min ex ey)).1) in *.
    replace (k + 2) with ((k + 1) + 1) by lia.
    apply binary_normalize_below; [|lia..].
    destruct (Zdigits2_add (cond_Zopp sx (Z.pos a)) (cond_Zopp sy (Z.pos b))
                (k - Z.min ex ey)) as [_ Hd].
    + rewrite Zdigits2_abs. destruct sx; simpl; lia.
    + rewrite Zdigits2_abs. destruct sy; simpl; lia.
    + lia.
Qed.

Lemma div_core_below (m1 m2 : positive) (e1 e2 k : Z) :
  Z.pos (digits2_pos m1) + e1 - (Z.pos (digits2_pos m2) + e2) + 1 ≤ k → -1074 ≤ k →
  let '(q, e', _) := SFdiv_core_binary F64.prec F64.emax (Z.pos m1) e1 (Z.pos m2) e2 in
  0 ≤ q ∧ Zdigits2 q + e' ≤ k.
Proof.
  intros Hk Hmin. unfold SFdiv_core_binary.
  set (d1 := Zdigits2 (Z.pos m1)). set (d2 := Zdigits2 (Z.pos m2)).
  set (e' := Z.min (fexp F64.prec F64.emax (d1 + e1 - (d2 + e2))) (e1 - e2)).
  set (s := e1 - e2 - e').
  assert (Hs : 0 ≤ s) by (unfold s, e'; lia).
  set (m' := match s with Z.pos _ => Z.shiftl (Z.pos m1) s | 0 => Z.pos m1 | Z.neg _ => 0 end).
  assert (Hm' : m' = Z.pos m1 * 2 ^ s).
  { unfold m'. destruct s as [|p|p] eqn:Es; [simpl; lia| |lia].
    rewrite Z.shiftl_mul_pow2 by lia. reflexivity. }
  pose proof (Z_div_mod m' (Z.pos m2) ltac:(lia)) as Hdiv.
  destruct (Z.div_eucl m' (Z.pos m2)) as [q r]. destruct Hdiv as [Hq Hr].
  assert (H2s : 0 < 2 ^ s) by (apply Z.pow_pos_nonneg; lia).
  assert (Hq0 : 0 ≤ q) by nia.
  split; [assumption|].
  pose proof (digits2_gt m1) as G1. pose proof (digits2_le m2) as L2.
  fold d1 in Hk. change (Z.pos (digits2_pos m1)) with d1 in *.
  change (Z.pos (digits2_pos m2)) with d2 in *.
  assert (Hd1 : 0 < d1) by (unfold d1; simpl; lia).
  assert (Hd2 : 0 < d2) by (unfold d2; simpl; lia).
  assert (He' : e' ≤ k).
  { unfold e', fexp, emin, F64.prec, F64.emax. lia. }
  destruct (Z.le_gt_cases 0 (d1 + s - d2 + 1)) as [Ht|Ht].
  - assert (Zdigits2 q ≤ d1 + s - d2 + 1); [|unfold s in *; lia].
    apply Zdigits2_bound; [assumption..|].
    assert (E1 : 2 ^ (d1 + s) = 2 ^ d1 * 2 ^ s) by (apply Z.pow_add_r; lia).
    assert (E2 : 2 ^ (d1 + s - d2 + 1) * 2 ^ d2 = 2 * 2 ^ (d1 + s)).
    { rewrite <- Z.pow_add_r by lia. replace (d1 + s - d2 + 1 + d2) with (1 + (d1 + s)) by lia.
      rewrite Z.pow_add_r by lia. reflexivity. }
    assert (0 < 2 ^ d2) by (apply Z.pow_pos_nonneg; lia).
    nia.
  - assert (q = 0); [|subst q; simpl; lia].
    assert (2 ^ (d1 + s) * 2 ≤ 2 ^ d2).
    { replace d2 with ((d1 + s) + 1 + (d2 - (d1 + s) - 1)) at 1 by lia.
      rewrite !Z.pow_add_r by lia.
      assert (0 < 2 ^ (d2 - (d1 + s) - 1)) by (apply Z.pow_pos_nonneg; lia).
      assert (0 < 2 ^ (d1 + s)) by (apply Z.pow_pos_nonneg; lia).
      nia. }
    assert (E1 : 2 ^ (d1 + s) = 2 ^ d1 * 2 ^ s) by (apply Z.pow_add_r; lia).
    nia.
Qed.

Lemma div_below (kx ly : Z) (x y : float) :
  below kx x = true → above ly y = true → -1074 ≤ kx - ly + 1 → kx - ly + 1 ≤ 970 →
  below (kx - ly + 2) (F64.div x y) = true.
Proof.
  intros Hx Hy Hmin Hmax.
  destruct x as [sx| | |sx mx ex], y as [sy| | |sy my ey]; simpl in *; try congruence.
  apply Z.leb_le in Hx, Hy.
  pose proof (div_core_below mx my ex ey (kx - ly + 1) ltac:(lia) Hmin) as H.
  destruct (SFdiv_core_binary F64.prec F64.emax (Z.pos mx) ex (Z.pos my) ey) as [[q e'] l].
  destruct H as [Hq Hd].
  replace (kx - ly + 2) with ((kx - ly + 1) + 1) by lia.
  apply binary_round_aux_below; lia.
Qed.

Lemma int_exact_below (a k : Z) : Z.abs a < 2 ^ k → 0 ≤ k → below k (int_exact a) = true.
Proof.
  intros Ha Hk. destruct a as [|p|p]; simpl; [reflexivity|..];
    apply Z.leb_le; pose proof (Zdigits2_bound (Z.pos p) k); simpl in *; lia.
Qed.

Lemma int_exact_above (a : Z) : a ≠ 0 → above 1 (int_exact a) = true.
Proof. destruct a as [|p|p]; simpl; intros; [contradiction|..]; apply Z.leb_le; lia. Qed.

End Magnitude.
(** ** Chain-crossing classifier *)



(** C6: with at most one chainring the classifier answers [(False, None)]
    for every pair of indices: a single-chainring configuration never
    reports a crossing. *)
Theorem single_chainring_never_crossing (self : NuSui) (chainring_idx sprocket_idx : Z) :
  (length (crankset_teeth self) ≤ 1)%nat →
  is_chain_crossing self chainring_idx sprocket_idx = Ok (false, None).
Proof.
  intros Hlen. unfold is_chain_crossing, num_chainrings.
  destruct (Z.leb_spec (Z.of_nat (length (crankset_teeth self))) 1) as [_|Hgt]; [reflexivity|lia].
Qed.

Lemma single_chainring_never_crossing_witness :
  is_chain_crossing
    {| crankset_teeth := [34]; cassette_teeth := [14; 16; 18; 20; 22; 24; 28];
       wheel_size_var := "700C"; cadencia_var := 80;
       target_speed_var := F64.of_Z 20; slope_var := F64.of_Z 0 |} 0 6
  = Ok (false, None).
Proof. apply single_chainring_never_crossing. simpl. lia. Defined.

(** C10: the classifier reads the two lists only through their lengths:
    two application states whose chainring lists have equal length and
    whose sprocket lists have equal length get the same answer (flag and
    reason) for every index pair, whatever the tooth counts are. *)
Theorem is_chain_crossing_depends_on_lengths (self1 self2 : NuSui) (chainring_idx sprocket_idx : Z) :
  length (crankset_teeth self1) = length (crankset_teeth self2) →
  length (cassette_teeth self1) = length (cassette_teeth self2) →
  is_chain_crossing self1 chainring_idx sprocket_idx
  = is_chain_crossing self2 chainring_idx sprocket_idx.
Proof.
  intros Hc Hs. unfold is_chain_crossing, num_chainrings, num_sprockets.
  rewrite Hc, Hs. reflexivity.
Qed.

Lemma is_chain_crossing_double (self : NuSui) (extreme_count chainring_idx sprocket_idx : Z) :
  num_chainrings self = 2 →
  extreme 2 (num_sprockets self) (F64.lit 35 100) = Ok extreme_count →
  is_chain_crossing self chainring_idx sprocket_idx =
    if (chainring_idx =? 0) && (sprocket_idx >=? num_sprockets self - extreme_count)
    then Ok (true, Some msg_large)
    else if (chainring_idx =? 1) && (sprocket_idx <? extreme_count)
    then Ok (true, Some msg_small)
    else Ok (false, None).
Proof.
  intros Hn He. unfold is_chain_crossing. rewrite Hn. simpl Z.leb. simpl Z.eqb.
  cbv iota. rewrite He. reflexivity.
Qed.

Lemma is_chain_crossing_triple (self : NuSui) (extreme_count medium_extreme chainring_idx sprocket_idx : Z) :
  num_chainrings self = 3 →
  extreme 2 (num_sprockets self) (F64.lit 4 10) = Ok extreme_count →
  extreme 1 (num_sprockets self) (F64.lit 15 100) = Ok medium_extreme →
  is_chain_crossing self chainring_idx sprocket_idx =
    if (chainring_idx =? 0) && (sprocket_idx >=? num_sprockets self - extreme_count)
    then Ok (true, Some msg_large)
    else if (chainring_idx =? 2) && (sprocket_idx <? extreme_count)
    then Ok (true, Some msg_small)
    else if (chainring_idx =? 1)
            && ((sprocket_idx >=? num_sprockets self - medium_extreme)
                || (sprocket_idx <? medium_extreme))
    then Ok (true, Some msg_middle)
    else Ok (false, None).
Proof.
  intros Hn He Hm. unfold is_chain_crossing. rewrite Hn. simpl Z.leb. simpl Z.eqb.
  cbv iota. rewrite He, Hm. reflexivity.
Qed.

(** Case analysis on the integer comparisons of a classifier branch. *)
Ltac crossing_cases :=
  repeat match goal with
  | |- context [?a =? ?b] => destruct (Z.eqb_spec a b)
  | |- context [?a >=? ?b] => rewrite (Z.geb_leb a b); destruct (Z.leb_spec b a)
  | |- context [?a <? ?b] => destruct (Z.ltb_spec a b)
  end;
  simpl; try (rewrite bool_decide_eq_true_2 by lia; reflexivity);
  try (rewrite bool_decide_eq_false_2 by lia; reflexivity).

Lemma is_chain_crossing_depends_on_lengths_witness :
  is_chain_crossing road_10 1 2
  = is_chain_crossing
      {| crankset_teeth := [53; 39];
         cassette_teeth := [12; 13; 14; 15; 17; 19; 21; 23; 25; 27];
         wheel_size_var := "26x2.1"; cadencia_var := 60;
         target_speed_var := F64.of_Z 35; slope_var := F64.of_Z 4 |} 1 2.
Proof. apply is_chain_crossing_depends_on_lengths; reflexivity. Defined.





(** ** Gear ratio *)

Lemma int_truediv_not_ValueError (a b : Z) (msg : string) :
  int_truediv a b ≠ Raise (ValueError msg).
Proof.
  unfold int_truediv. destruct (b =? 0); [discriminate|].
  destruct (F64.is_finite _); discriminate.
Qed.

Lemma gear_ratio_table :
  forallb (λ chainring,
    forallb (λ sprocket,
      match calculate_gear_ratio chainring sprocket with
      | Ok r => nearest_quotient chainring sprocket r
      | Raise _ => false
      end) teeth_range) teeth_range = true.
Proof. vm_compute. reflexivity. Qed.

Lemma elem_of_teeth_range (teeth : Z) :
  MIN_TEETH ≤ teeth ≤ MAX_TEETH → teeth ∈ teeth_range.
Proof.
  intros H. unfold teeth_range. apply elem_of_seqZ.
  unfold MIN_TEETH, MAX_TEETH in *. lia.
Qed.

(** C7: [calculate_gear_ratio(chainring, sprocket)] is the true division
    [chainring / sprocket] whenever [sprocket] is nonzero, and it raises
    the [ValueError] (the spec's [InvalidConfiguration]) if and only if
    [sprocket] is zero.  For tooth counts between [MIN_TEETH] and
    [MAX_TEETH] the division returns the float nearest to the exact
    quotient. *)
Theorem calculate_gear_ratio_spec (chainring sprocket : Z) :
  (sprocket ≠ 0 →
     calculate_gear_ratio chainring sprocket = int_truediv chainring sprocket)
  ∧ ((∃ msg, calculate_gear_ratio chainring sprocket = Raise (ValueError msg))
     ↔ sprocket = 0)
  ∧ (MIN_TEETH ≤ chainring ≤ MAX_TEETH → MIN_TEETH ≤ sprocket ≤ MAX_TEETH →
     ∃ r, calculate_gear_ratio chainring sprocket = Ok r
          ∧ r = F64.div (int_exact chainring) (int_exact sprocket)
          ∧ nearest_quotient chainring sprocket r = true).
Proof.
  split; [|split].
  - intros Hs. unfold calculate_gear_ratio.
    destruct (Z.eqb_spec sprocket 0); [contradiction|reflexivity].
  - unfold calculate_gear_ratio. destruct (Z.eqb_spec sprocket 0) as [->|Hs]; split.
    + reflexivity.
    + intros _. eexists. reflexivity.
    + intros [msg H]. exfalso. exact (int_truediv_not_ValueError _ _ _ H).
    + intros ?. contradiction.
  - intros Hc Hs.
    pose proof gear_ratio_table as Ht.
    rewrite forallb_forall in Ht.
    specialize (Ht chainring (proj1 (list_elem_of_In _ _) (elem_of_teeth_range _ Hc))).
    rewrite forallb_forall in Ht.
    specialize (Ht sprocket (proj1 (list_elem_of_In _ _) (elem_of_teeth_range _ Hs))).
    destruct (calculate_gear_ratio chainring sprocket) as [r|] eqn:Hr; [|discriminate].
    exists r. split; [reflexivity|]. split; [|exact Ht].
    unfold calculate_gear_ratio, int_truediv in Hr.
    destruct (sprocket =? 0); [discriminate|].
    destruct (F64.is_finite _); congruence.
Qed.

Lemma calculate_gear_ratio_spec_witness :
  calculate_gear_ratio 50 14 = Ok (S754_finite false 8042142191733029 (-51)).
Proof.
  destruct (calculate_gear_ratio_spec 50 14) as (_ & _ & H).
  destruct H as (r & Hr & Hd & _); [vm_compute; split; discriminate ..|].
  rewrite Hr, Hd. vm_compute. reflexivity.
Defined.

(** ** Building the drivetrain configuration *)

Section Sorting.

#[local] Instance flip_le_total : Total (flip Z.le).
Proof. intros x y. unfold flip. lia. Qed.

#[local] Instance flip_le_trans : Transitive (flip Z.le).
Proof. intros x y z. unfold flip. lia. Qed.

#[local] Instance flip_le_antisym : AntiSymm (=) (flip Z.le).
Proof. intros x y. unfold flip. lia. Qed.

Lemma py_sort_ascending (l : list Z) : ascending (py_sort l).
Proof. apply Sorted_merge_sort; apply _. Qed.

Lemma py_sort_perm (l : list Z) : py_sort l ≡ₚ l.
Proof. apply merge_sort_Permutation. Qed.

Lemma py_sort_reverse_descending (l : list Z) : descending (py_sort_reverse l).
Proof. apply Sorted_merge_sort; apply _. Qed.

Lemma py_sort_reverse_perm (l : list Z) : py_sort_reverse l ≡ₚ l.
Proof. apply merge_sort_Permutation. Qed.

(** Sorting forgets the order of the input. *)
Lemma py_sort_order_irrelevant (l l' : list Z) : l ≡ₚ l' → py_sort l = py_sort l'.
Proof.
  intros Hp. apply (Sorted_unique Z.le); try apply py_sort_ascending.
  rewrite !py_sort_perm. exact Hp.
Qed.

Lemma py_sort_reverse_order_irrelevant (l l' : list Z) :
  l ≡ₚ l' → py_sort_reverse l = py_sort_reverse l'.
Proof.
  intros Hp. apply (Sorted_unique (flip Z.le)); try apply py_sort_reverse_descending.
  rewrite !py_sort_reverse_perm. exact Hp.
Qed.

End Sorting.

Lemma select_bike_type_teeth (self : NuSui) (bike_type : BikeType) :
  value bike_type ≠ "custom" →
  crankset_teeth (select_bike_type self bike_type) = py_sort_reverse (chainrings bike_type)
  ∧ cassette_teeth (select_bike_type self bike_type) = py_sort (sprockets bike_type).
Proof.
  intros Hv. unfold select_bike_type.
  destruct (String.eqb_spec (value bike_type) "custom") as [E|_]; [contradiction|].
  destruct (wheel_options (value bike_type)); split; reflexivity.
Qed.

Lemma select_bike_type_custom (self : NuSui) (bike_type : BikeType) :
  value bike_type = "custom" →
  crankset_teeth (select_bike_type self bike_type) = []
  ∧ cassette_teeth (select_bike_type self bike_type) = [].
Proof.
  intros Hv. unfold select_bike_type. rewrite Hv. split; reflexivity.
Qed.

Lemma save_custom_gears_teeth (self : NuSui) (platos pinones : list Z) :
  platos ≠ [] → pinones ≠ [] →
  save_custom_gears self platos pinones
  = (set_teeth (set_teeth self platos pinones) (py_sort_reverse platos) (py_sort pinones), true).
Proof.
  intros Hp Hq. unfold save_custom_gears. simpl.
  rewrite !bool_decide_eq_false_2 by assumption. reflexivity.
Qed.

(** C9: selecting any of the preset bike types, or saving any two
    non-empty manually entered teeth lists, leaves in the configuration
    the same tooth counts (as multisets) with the chainrings in
    descending and the sprockets in ascending order; the lists obtained do
    not depend on the order in which the teeth were given. *)
Theorem drivetrain_lists_sorted :
  (∀ self bike_type, bike_type ∈ bike_types →
     let self' := select_bike_type self bike_type in
     crankset_teeth self' ≡ₚ chainrings bike_type
     ∧ cassette_teeth self' ≡ₚ sprockets bike_type
     ∧ descending (crankset_teeth self') ∧ ascending (cassette_teeth self'))
  ∧ (∀ self platos pinones, platos ≠ [] → pinones ≠ [] →
     let self' := (save_custom_gears self platos pinones).1 in
     (save_custom_gears self platos pinones).2 = true
     ∧ crankset_teeth self' ≡ₚ platos ∧ cassette_teeth self' ≡ₚ pinones
     ∧ descending (crankset_teeth self') ∧ ascending (cassette_teeth self'))
  ∧ (∀ self bike_type bike_type',
       value bike_type = value bike_type' →
       chainrings bike_type ≡ₚ chainrings bike_type' →
       sprockets bike_type ≡ₚ sprockets bike_type' →
       crankset_teeth (select_bike_type self bike_type)
         = crankset_teeth (select_bike_type self bike_type')
       ∧ cassette_teeth (select_bike_type self bike_type)
         = cassette_teeth (select_bike_type self bike_type'))
  ∧ (∀ self platos platos' pinones pinones',
       platos ≠ [] → pinones ≠ [] → platos ≡ₚ platos' → pinones ≡ₚ pinones' →
       crankset_teeth (save_custom_gears self platos pinones).1
         = crankset_teeth (save_custom_gears self platos' pinones').1
       ∧ cassette_teeth (save_custom_gears self platos pinones).1
         = cassette_teeth (save_custom_gears self platos' pinones').1).
Proof.
  split; [|split; [|split]].
  - intros self bike_type Hin self'. subst self'.
    destruct (decide (value bike_type = "custom")) as [Hc|Hc].
    + assert (chainrings bike_type = [] ∧ sprockets bike_type = []) as [E1 E2].
      { unfold bike_types in Hin.
        repeat (apply elem_of_cons in Hin as [->|Hin]; [try discriminate; auto|]).
        apply elem_of_nil in Hin. contradiction. }
      destruct (select_bike_type_custom self bike_type Hc) as [Ec Es].
      rewrite Ec, Es, E1, E2. repeat split; constructor.
    + destruct (select_bike_type_teeth self bike_type Hc) as [Ec Es].
      rewrite Ec, Es.
      auto using py_sort_perm, py_sort_reverse_perm, py_sort_ascending,
                 py_sort_reverse_descending.
  - intros self platos pinones Hp Hq self'. subst self'.
    rewrite (save_custom_gears_teeth self platos pinones) by assumption. simpl.
    auto using py_sort_perm, py_sort_reverse_perm, py_sort_ascending,
               py_sort_reverse_descending.
  - intros self bike_type bike_type' Hv Hc Hs.
    destruct (decide (value bike_type = "custom")) as [Hcu|Hcu].
    + destruct (select_bike_type_custom self bike_type Hcu) as [Ec Es].
      destruct (select_bike_type_custom self bike_type' ltac:(congruence)) as [Ec' Es'].
      rewrite Ec, Es, Ec', Es'. split; reflexivity.
    + destruct (select_bike_type_teeth self bike_type Hcu) as [Ec Es].
      destruct (select_bike_type_teeth self bike_type' ltac:(congruence)) as [Ec' Es'].
      rewrite Ec, Es, Ec', Es'.
      auto using py_sort_order_irrelevant, py_sort_reverse_order_irrelevant.
  - intros self platos platos' pinones pinones' Hp Hq Hpp Hqq.
    assert (platos' ≠ []) by (intros ->; apply Permutation_nil_r in Hpp; auto).
    assert (pinones' ≠ []) by (intros ->; apply Permutation_nil_r in Hqq; auto).
    rewrite (save_custom_gears_teeth self platos pinones),
            (save_custom_gears_teeth self platos' pinones') by assumption. simpl.
    auto using py_sort_order_irrelevant, py_sort_reverse_order_irrelevant.
Qed.

Lemma drivetrain_lists_sorted_witness :
  crankset_teeth (save_custom_gears road_preset [34; 50; 42] [28; 11; 14]).1 = [50; 42; 34]
  ∧ cassette_teeth (save_custom_gears road_preset [34; 50; 42] [28; 11; 14]).1 = [11; 14; 28]
  ∧ descending (crankset_teeth (save_custom_gears road_preset [34; 50; 42] [28; 11; 14]).1)
  ∧ ascending (cassette_teeth (save_custom_gears road_preset [34; 50; 42] [28; 11; 14]).1)
  ∧ crankset_teeth (select_bike_type road_preset
                      {| name := "MTB (Mountain)"; value := "mtb";
                         chainrings := [24; 34; 42];
                         sprockets := [14; 16; 18; 20; 22; 24; 34] |}) ≡ₚ [24; 34; 42].
Proof.
  destruct drivetrain_lists_sorted as (Hpreset & Hmanual & _ & _).
  destruct (Hmanual road_preset [34; 50; 42] [28; 11; 14]) as (_ & _ & _ & Hd & Ha);
    [discriminate | discriminate |].
  destruct (Hpreset road_preset
              {| name := "MTB (Mountain)"; value := "mtb";
                 chainrings := [24; 34; 42];
                 sprockets := [14; 16; 18; 20; 22; 24; 34] |}) as (Hp & _);
    [unfold bike_types; apply elem_of_cons; left; reflexivity|].
  split; [reflexivity|]. split; [reflexivity|]. split; [exact Hd|]. split; [exact Ha|].
  exact Hp.
Defined.

(** ** Exceptions *)

Lemma bind_Ok {A B : Type} (r : result A) (f : A → result B) (b : B) :
  r ≫= f = Ok b → ∃ a, r = Ok a ∧ f a = Ok b.
Proof. destruct r as [a|e]; simpl; [eauto|discriminate]. Qed.

Lemma bind_Ok_eq {A B : Type} (r : result A) (f : A → result B) (a : A) :
  r = Ok a → r ≫= f = f a.
Proof. intros ->. reflexivity. Qed.

(** Inversion of a successful run through a chain of binds. *)
Ltac inv_bind H :=
  repeat match type of H with
  | _ ≫= _ = Ok _ =>
      let a := fresh "a" in
      let Ha := fresh "Ha" in
      apply bind_Ok in H as (a & Ha & H)
  end.

(** ** Advice *)

Lemma recommendation_advice (self : NuSui) (r : Recommendation) :
  calculate_recommended_gear self = Ok (Some r) →
  rec_advice r = slope_advice (slope_var self).
Proof.
  unfold calculate_recommended_gear. intros H.
  apply bind_Ok in H as (st & _ & H).
  apply bind_Ok in H as ([[st' crossing] msg] & _ & H).
  destruct (best_chainring st') as [chainring|]; [|discriminate].
  destruct (best_sprocket st') as [sprocket|]; [|discriminate].
  destruct ((chainring =? 0) || (sprocket =? 0)); [discriminate|].
  inv_bind H. injection H as <-. reflexivity.
Qed.

Lemma advice_distinct :
  advice_steep ≠ advice_mild ∧ advice_steep ≠ advice_descent ∧ advice_steep ≠ advice_flat
  ∧ advice_mild ≠ advice_descent ∧ advice_mild ≠ advice_flat ∧ advice_descent ≠ advice_flat.
Proof. repeat split; discriminate. Qed.

(** C8: the advice shown with a recommendation is a function of the
    slope alone, given by the buckets tested in this order: [slope > 8]
    steep-climb advice, else [slope > 0] mild-climb advice, else [slope <
    -5] descent advice, else flat advice.  Every slope with [-5 <= slope
    <= 0], in particular [slope = 0], gets the flat advice. *)
Theorem advice_by_slope :
  (∀ self r, calculate_recommended_gear self = Ok (Some r) →
     rec_advice r = slope_advice (slope_var self))
  ∧ (∀ slope,
       (flt (F64.of_Z 8) slope → slope_advice slope = advice_steep)
       ∧ (¬ flt (F64.of_Z 8) slope → flt (F64.of_Z 0) slope →
          slope_advice slope = advice_mild)
       ∧ (¬ flt (F64.of_Z 8) slope → ¬ flt (F64.of_Z 0) slope →
          flt slope (F64.of_Z (-5)) → slope_advice slope = advice_descent)
       ∧ (¬ flt (F64.of_Z 8) slope → ¬ flt (F64.of_Z 0) slope →
          ¬ flt slope (F64.of_Z (-5)) → slope_advice slope = advice_flat))
  ∧ (∀ slope, fle (F64.of_Z (-5)) slope → fle slope (F64.of_Z 0) →
       slope_advice slope = advice_flat)
  ∧ slope_advice (F64.of_Z 0) = advice_flat.
Proof.
  split; [exact recommendation_advice|]. split; [|split].
  - intros slope. unfold slope_advice, flt.
    destruct (F64.ltb (F64.of_Z 8) slope);
      destruct (F64.ltb (F64.of_Z 0) slope);
      destruct (F64.ltb slope (F64.of_Z (-5)));
      repeat split; intros; try reflexivity; try congruence; exfalso; auto.
  - intros slope Hlo Hhi. unfold slope_advice.
    assert (H8 : F64.ltb (F64.of_Z 8) slope = false).
    { apply fle_not_flt. apply flt_fle. eapply fle_flt_trans; [exact Hhi|].
      vm_compute. reflexivity. }
    rewrite H8, (fle_not_flt _ _ Hhi), (fle_not_flt _ _ Hlo). reflexivity.
  - vm_compute. reflexivity.
Qed.

Lemma advice_by_slope_witness :
  slope_advice (F64.of_Z 12) = advice_steep
  ∧ slope_advice (F64.of_Z 3) = advice_mild
  ∧ slope_advice (F64.of_Z (-7)) = advice_descent
  ∧ slope_advice (F64.of_Z (-5)) = advice_flat
  ∧ fmap (M:=option) rec_advice <$> calculate_recommended_gear road_preset
    = Ok (Some advice_flat).
Proof.
  destruct advice_by_slope as (Hrec & Hbuckets & Hflat & _).
  split; [apply (Hbuckets (F64.of_Z 12)); vm_compute; reflexivity|].
  split; [apply (Hbuckets (F64.of_Z 3)); vm_compute; congruence|].
  split; [apply (Hbuckets (F64.of_Z (-7))); vm_compute; congruence|].
  split; [apply (Hflat (F64.of_Z (-5))); vm_compute; reflexivity|].
  destruct (calculate_recommended_gear road_preset) as [[r|]|] eqn:E;
    [|vm_compute in E; discriminate ..].
  simpl. rewrite (Hrec road_preset r E). vm_compute. reflexivity.
Defined.

(** ** Overlap analysis *)

(** The division of the overlap percentage raises as soon as the range of
    the first chainring is a single point and the ranges meet. *)
Lemma overlap_lines_single_point (header : overlap_line)
    (min_ratio1 max_ratio1 min_ratio2 max_ratio2 : float) :
  F64.is_zero (F64.sub max_ratio1 min_ratio1) = true →
  fle (py_max2 min_ratio1 min_ratio2) (py_min2 max_ratio1 max_ratio2) →
  overlap_lines header min_ratio1 max_ratio1 min_ratio2 max_ratio2 = Raise ZeroDivisionError.
Proof.
  intros Hz Hle. unfold overlap_lines. unfold fle in Hle. rewrite Hle.
  unfold float_div. rewrite Hz. reflexivity.
Qed.

(** C4 (the code departs from the claim): for the validated configuration
    with chainrings [34, 34] and the single sprocket [14], the range of
    the first chainring is the single ratio 34/14, the ranges meet, and
    the overlap percentage is not a defined 100%: the division raises
    [ZeroDivisionError], which [handle_errors] turns into [None]. *)
Theorem overlap_single_point_divides_by_zero :
  validate_gear_configuration twin_chainrings = true
  ∧ (∃ ratio,
       overlap_tab_data twin_chainrings = Ok ([[ratio]; [ratio]], [[true]; [true]])
       ∧ F64.is_zero (F64.sub ratio ratio) = true
       ∧ fle (py_max2 ratio ratio) (py_min2 ratio ratio)
       ∧ calculate_overlap_analysis twin_chainrings [[ratio]; [ratio]]
           (Some [[true]; [true]]) = Raise ZeroDivisionError)
  ∧ overlap_tab_text twin_chainrings = Ok None.
Proof.
  split; [vm_compute; reflexivity|]. split; [|vm_compute; reflexivity].
  eexists. split; [vm_compute; reflexivity|].
  repeat split; vm_compute; reflexivity.
Qed.

(** ** Loops *)

Lemma for_each_app {A S : Type} (body : S → A → result S) (l1 l2 : list A) (st : S) :
  for_each body (l1 ++ l2) st = for_each body l1 st ≫= for_each body l2.
Proof.
  revert st. induction l1 as [|x l1 IH]; intros st; simpl; [reflexivity|].
  destruct (body st x) as [st'|e]; simpl; [apply IH|reflexivity].
Qed.

Lemma for_each_pair_with {A B S : Type} (body : A → S → B → result S) (a : A) (l : list B) (st : S) :
  for_each (λ st (p : A * B), body p.1 st p.2) (b ← l; [(a, b)]) st = for_each (body a) l st.
Proof.
  revert st. induction l as [|b l IH]; intros st; simpl; [reflexivity|].
  destruct (body a st b) as [st'|e]; simpl; [apply IH|reflexivity].
Qed.

Lemma gear_loops_flat (self : NuSui) (body : Z → Z → search → Z * Z → result search) (st : search) :
  gear_loops self body st
  = for_each (λ st p, body p.1.1 p.1.2 st p.2) (gear_pairs self) st.
Proof.
  unfold gear_loops, gear_pairs.
  generalize (enumerate (crankset_teeth self)) as l. intros l. revert st.
  induction l as [|ic l IH]; intros st; [reflexivity|].
  change ((ic :: l) ≫= _) with
    ((js ← enumerate (cassette_teeth self); [(ic, js)])
     ++ (l ≫= λ ic, js ← enumerate (cassette_teeth self); [(ic, js)])).
  rewrite for_each_app.
  rewrite (for_each_pair_with (λ ic st js, body ic.1 ic.2 st js)).
  simpl. destruct (for_each _ _ st) as [st'|e]; simpl; [apply IH|reflexivity].
Qed.

(** ** Order of the visit *)

Lemma elem_of_enumerate {A : Type} (l : list A) (i : Z) (x : A) :
  (i, x) ∈ enumerate l ↔ ∃ n : nat, i = Z.of_nat n ∧ l !! n = Some x.
Proof.
  unfold enumerate. rewrite elem_of_lookup_imap. split.
  - intros (n & y & E & H). injection E as -> ->. eauto.
  - intros (n & -> & H). eauto.
Qed.

Lemma elem_of_gear_pairs (self : NuSui) (p : (Z * Z) * (Z * Z)) :
  p ∈ gear_pairs self
  ↔ p.1 ∈ enumerate (crankset_teeth self) ∧ p.2 ∈ enumerate (cassette_teeth self).
Proof.
  unfold gear_pairs. rewrite list_elem_of_bind. split.
  - intros (ic & H & Hic). apply list_elem_of_bind in H as (js & H & Hjs).
    apply list_elem_of_singleton in H as ->. auto.
  - intros [H1 H2]. exists p.1. split; [|assumption].
    apply list_elem_of_bind. exists p.2. split; [|assumption].
    destruct p. apply list_elem_of_singleton. reflexivity.
Qed.

Lemma imap_from_sorted {A : Type} (l : list A) (k : nat) :
  StronglySorted (λ a b : Z * A, a.1 < b.1) (imap (λ i x, (Z.of_nat (k + i), x)) l)
  ∧ Forall (λ a : Z * A, Z.of_nat k ≤ a.1) (imap (λ i x, (Z.of_nat (k + i), x)) l).
Proof.
  revert k. induction l as [|x l IH]; intros k; [split; constructor|].
  rewrite imap_cons.
  assert (E : imap ((λ i x0, (Z.of_nat (k + i), x0)) ∘ S) l
              = imap (λ i x0, (Z.of_nat (S k + i), x0)) l).
  { apply imap_ext. intros i y _. simpl. f_equal. lia. }
  rewrite E. destruct (IH (S k)) as [Hs Hf]. split.
  - constructor; [assumption|].
    eapply Forall_impl; [exact Hf|]. simpl. intros a Ha. lia.
  - constructor; [simpl; lia|].
    eapply Forall_impl; [exact Hf|]. simpl. intros a Ha. lia.
Qed.

Lemma enumerate_sorted {A : Type} (l : list A) :
  StronglySorted (λ a b : Z * A, a.1 < b.1) (enumerate l).
Proof. exact (proj1 (imap_from_sorted l 0)). Qed.

Lemma pairs_with_sorted (ic : Z * Z) (l : list (Z * Z)) :
  StronglySorted (λ a b : Z * Z, a.1 < b.1) l →
  StronglySorted idx_lt (js ← l; [(ic, js)]).
Proof.
  induction 1 as [|js l' Hc IHc Hfc]; [constructor|].
  simpl. constructor; [exact IHc|].
  rewrite Forall_forall. intros q Hq.
  apply list_elem_of_bind in Hq as (js' & Hq & Hjs').
  apply list_elem_of_singleton in Hq as ->.
  rewrite Forall_forall in Hfc. specialize (Hfc js' Hjs').
  unfold idx_lt, visited_before. simpl. lia.
Qed.

Lemma gear_pairs_sorted (self : NuSui) : StronglySorted idx_lt (gear_pairs self).
Proof.
  unfold gear_pairs.
  pose proof (enumerate_sorted (crankset_teeth self)) as Hs.
  induction Hs as [|ic l Hs IH Hf]; [constructor|].
  change ((ic :: l) ≫= _) with
    ((js ← enumerate (cassette_teeth self); [(ic, js)])
     ++ (l ≫= λ ic, js ← enumerate (cassette_teeth self); [(ic, js)])).
  apply StronglySorted_app. split; [|split; [|exact IH]].
  - intros p q Hp Hq.
    apply list_elem_of_bind in Hp as (js & Hp & _).
    apply list_elem_of_singleton in Hp as ->.
    apply list_elem_of_bind in Hq as (ic' & Hq & Hic').
    apply list_elem_of_bind in Hq as (js' & Hq & _).
    apply list_elem_of_singleton in Hq as ->.
    rewrite Forall_forall in Hf. specialize (Hf ic' Hic').
    unfold idx_lt, visited_before. simpl. lia.
  - apply pairs_with_sorted, enumerate_sorted.
Qed.

(** ** The classifier and the speed difference do not raise *)

Lemma py_round_finite (x : float) : F64.is_finite x = true → ∃ r, py_round x = Ok r.
Proof. destruct x; simpl; intros; try discriminate; eauto. Qed.

Lemma extreme_total (lo n : Z) (c : float) :
  0 ≤ n < 2 ^ 63 → below 0 c = true → ∃ r, extreme lo n c = Ok r.
Proof.
  intros Hn Hc. unfold extreme, float_of_int.
  pose proof (of_Z_below n 63 ltac:(lia) ltac:(lia) ltac:(lia)) as Hx.
  rewrite (below_finite _ _ Hx). simpl.
  pose proof (mul_below _ _ _ _ Hx Hc ltac:(lia) ltac:(lia)) as Hm.
  destruct (py_round_finite _ (below_finite _ _ Hm)) as [r ->]. simpl. eauto.
Qed.

Lemma is_chain_crossing_total (self : NuSui) (i j : Z) :
  num_sprockets self < 2 ^ 63 →
  ∃ crossing msg, is_chain_crossing self i j = Ok (crossing, msg).
Proof.
  intros Hn.
  assert (H0 : 0 ≤ num_sprockets self < 2 ^ 63) by (unfold num_sprockets in *; lia).
  unfold is_chain_crossing.
  destruct (num_chainrings self <=? 1); [eauto|].
  destruct (num_chainrings self =? 2); [|destruct (num_chainrings self =? 3)].
  - destruct (extreme_total 2 _ (F64.lit 35 100) H0 eq_refl) as [e ->]. simpl.
    repeat match goal with |- context [if ?b then _ else _] => destruct b end; eauto.
  - destruct (extreme_total 2 _ (F64.lit 4 10) H0 eq_refl) as [e ->].
    destruct (extreme_total 1 _ (F64.lit 15 100) H0 eq_refl) as [m ->]. simpl.
    repeat match goal with |- context [if ?b then _ else _] => destruct b end; eauto.
  - destruct (extreme_total 1 _ (F64.lit 3 10) H0 eq_refl) as [e ->]. simpl.
    repeat match goal with |- context [if ?b then _ else _] => destruct b end; eauto.
Qed.

Lemma crossing_of_spec (self : NuSui) (p : (Z * Z) * (Z * Z)) :
  num_sprockets self < 2 ^ 63 →
  ∃ msg, is_chain_crossing self p.1.1 p.2.1 = Ok (crossing_of self p, msg).
Proof.
  intros Hn. unfold crossing_of.
  destruct (is_chain_crossing_total self p.1.1 p.2.1 Hn) as (b & msg & ->). eauto.
Qed.

Lemma wheel_sizes_below (key : string) (w : float) :
  wheel_sizes !! key = Some w → below 2 w = true.
Proof.
  intros H. apply elem_of_list_to_map_2 in H.
  assert (Hall : forallb (λ kv : string * float, below 2 kv.2) wheel_sizes_items = true)
    by (vm_compute; reflexivity).
  rewrite forallb_forall in Hall.
  exact (Hall (key, w) (proj1 (list_elem_of_In _ _) H)).
Qed.

Lemma calculate_gear_ratio_below (chainring sprocket : Z) :
  Z.abs chainring < 2 ^ 6 → sprocket ≠ 0 →
  ∃ g, calculate_gear_ratio chainring sprocket = Ok g ∧ below 7 g = true.
Proof.
  intros Hc Hs. unfold calculate_gear_ratio, int_truediv.
  destruct (Z.eqb_spec sprocket 0); [contradiction|].
  pose proof (div_below 6 1 _ _ (int_exact_below _ 6 Hc ltac:(lia))
                (int_exact_above _ Hs) ltac:(lia) ltac:(lia)) as Hq.
  simpl in Hq. rewrite (below_finite _ _ Hq). eauto.
Qed.

Lemma calculate_speed_below (self : NuSui) (g : float) (cadence : Z) :
  is_Some (wheel_sizes !! wheel_size_var self) →
  Z.abs cadence < 2 ^ 64 → below 7 g = true →
  ∃ v, calculate_speed self (Some g) cadence = Ok v ∧ below 75 v = true.
Proof.
  intros [w Hw] Hcad Hg. unfold calculate_speed, wheel_circumference, float_of_int.
  set (c60 := F64.of_Z 60). set (c1000 := F64.of_Z 1000).
  rewrite Hw. cbn [mbind result_bind require_float].
  pose proof (of_Z_below cadence 64 Hcad ltac:(lia) ltac:(lia)) as Hc.
  rewrite (below_finite _ _ Hc). cbn [mbind result_bind].
  pose proof (mul_below 7 2 _ _ Hg (wheel_sizes_below _ _ Hw) ltac:(lia) ltac:(lia)) as H1.
  pose proof (mul_below _ _ _ _ H1 Hc ltac:(lia) ltac:(lia)) as H2.
  assert (H60 : below 6 c60 = true) by (vm_compute; reflexivity).
  pose proof (mul_below _ _ _ _ H2 H60 ltac:(lia) ltac:(lia)) as H3.
  assert (H1000 : above 10 c1000 = true) by (vm_compute; reflexivity).
  unfold float_div. rewrite (above_nonzero _ _ H1000).
  eexists. split; [reflexivity|].
  pose proof (div_below _ 10 _ _ H3 H1000 ltac:(lia) ltac:(lia)) as H4.
  eapply below_mono; [exact H4|lia].
Qed.

Lemma slope_factor_below (slope : float) :
  below 64 slope = true → below 59 (slope_factor slope) = true.
Proof.
  intros Hs. unfold slope_factor.
  assert (H100 : above 7 (F64.of_Z 100) = true) by (vm_compute; reflexivity).
  assert (H01 : below (-3) (F64.lit 1 10) = true) by (vm_compute; reflexivity).
  assert (H1 : below 1 (F64.of_Z 1) = true) by (vm_compute; reflexivity).
  pose proof (div_below 64 7 _ _ Hs H100 ltac:(lia) ltac:(lia)) as Hd.
  pose proof (mul_below _ _ _ _ Hd H01 ltac:(lia) ltac:(lia)) as Hm.
  pose proof (sub_below 1 _ 57 _ _ H1 Hm ltac:(lia) ltac:(lia) ltac:(lia) ltac:(lia)) as Hr.
  exact Hr.
Qed.

Lemma speed_diff_finite (self : NuSui) (chainring sprocket : Z) :
  bounded_inputs self →
  MIN_TEETH ≤ chainring ≤ MAX_TEETH → MIN_TEETH ≤ sprocket ≤ MAX_TEETH →
  ∃ diff, speed_diff self chainring sprocket = Ok diff ∧ F64.is_finite diff = true.
Proof.
  intros (Hw & Hcad & Ht & Hs & _) Hc Hsp. unfold MIN_TEETH, MAX_TEETH in *.
  unfold speed_diff.
  destruct (calculate_gear_ratio_below chainring sprocket ltac:(lia) ltac:(lia)) as (g & -> & Hg).
  cbn [handle_errors].
  destruct (calculate_speed_below self g (cadencia_var self) Hw Hcad Hg) as (v & -> & Hv).
  cbn [handle_errors require_float mbind result_bind]. eexists. split; [reflexivity|].
  pose proof (mul_below _ _ _ _ Hv (slope_factor_below _ Hs) ltac:(lia) ltac:(lia)) as Ha.
  pose proof (sub_below _ 64 135 _ _ Ha Ht ltac:(lia) ltac:(lia) ltac:(lia) ltac:(lia)) as Hd.
  apply (below_finite 137). apply below_abs. exact Hd.
Qed.

(** ** The two loops as pure folds *)

Lemma first_pass_body_eq (self : NuSui) (i c j s : Z) (st : search)
    (crossing : bool) (msg : option string) (diff : float) :
  is_chain_crossing self i j = Ok (crossing, msg) →
  speed_diff self c s = Ok diff →
  first_pass_body self i c st (j, s)
  = Ok (if crossing then st
        else if F64.ltb diff (min_diff st)
             then {| best_chainring := Some c; best_sprocket := Some s; min_diff := diff;
                     best_i := best_i st; best_j := best_j st |}
             else st).
Proof.
  intros Hc Hd. unfold first_pass_body. rewrite Hc. cbn [mbind result_bind].
  destruct crossing; [reflexivity|]. rewrite Hd. cbn [mbind result_bind].
  destruct (F64.ltb diff (min_diff st)); reflexivity.
Qed.

Lemma second_pass_body_eq (self : NuSui) (i c j s : Z) (st : search) (diff : float) :
  speed_diff self c s = Ok diff →
  second_pass_body self i c st (j, s)
  = Ok (if F64.ltb diff (min_diff st)
        then {| best_chainring := Some c; best_sprocket := Some s; min_diff := diff;
                best_i := Some i; best_j := Some j |}
        else st).
Proof.
  intros Hd. unfold second_pass_body. rewrite Hd. cbn [mbind result_bind].
  destruct (F64.ltb diff (min_diff st)); reflexivity.
Qed.

Lemma diff_of_eq (self : NuSui) (p : (Z * Z) * (Z * Z)) (diff : float) :
  speed_diff self p.1.2 p.2.2 = Ok diff → diff_of self p = diff.
Proof. intros H. unfold diff_of. rewrite H. reflexivity. Qed.

Lemma first_pass_pure (self : NuSui) (pairs : list ((Z * Z) * (Z * Z))) (st : search) :
  num_sprockets self < 2 ^ 63 →
  (∀ p, p ∈ pairs → ∃ diff, speed_diff self p.1.2 p.2.2 = Ok diff) →
  best_i st = None → best_j st = None →
  for_each (λ st p, first_pass_body self p.1.1 p.1.2 st p.2) pairs st
  = Ok (foldl (search_step self false) st (filter (λ p, crossing_of self p = false) pairs)).
Proof.
  intros Hn. revert st. induction pairs as [|p pairs IH]; intros st Hd Hi Hj; [reflexivity|].
  rewrite filter_cons.
  destruct (crossing_of_spec self p Hn) as [msg Hc].
  destruct (Hd p ltac:(left)) as [diff Hdiff].
  assert (Hd' : ∀ q, q ∈ pairs → ∃ diff, speed_diff self q.1.2 q.2.2 = Ok diff)
    by (intros q Hq; apply Hd; right; exact Hq).
  pose proof (diff_of_eq self p diff Hdiff) as Ediff.
  cbn [for_each]. destruct p as [[i c] [j s]]. cbn [fst snd] in *.
  rewrite (first_pass_body_eq self i c j s st _ msg diff Hc Hdiff).
  cbn [mbind result_bind].
  destruct (crossing_of self (i, c, (j, s))).
  - rewrite decide_False by discriminate. apply IH; assumption.
  - rewrite decide_True by reflexivity. cbn [foldl].
    unfold search_step at 2. rewrite Ediff.
    destruct (F64.ltb diff (min_diff st)).
    + rewrite IH by (try assumption; reflexivity).
      unfold recorded. cbn [fst snd]. rewrite Hi, Hj. reflexivity.
    + apply IH; assumption.
Qed.

Lemma second_pass_pure (self : NuSui) (pairs : list ((Z * Z) * (Z * Z))) (st : search) :
  (∀ p, p ∈ pairs → ∃ diff, speed_diff self p.1.2 p.2.2 = Ok diff) →
  for_each (λ st p, second_pass_body self p.1.1 p.1.2 st p.2) pairs st
  = Ok (foldl (search_step self true) st pairs).
Proof.
  revert st. induction pairs as [|p pairs IH]; intros st Hd; [reflexivity|].
  destruct (Hd p ltac:(left)) as [diff Hdiff].
  assert (Hd' : ∀ q, q ∈ pairs → ∃ diff, speed_diff self q.1.2 q.2.2 = Ok diff)
    by (intros q Hq; apply Hd; right; exact Hq).
  pose proof (diff_of_eq self p diff Hdiff) as Ediff.
  cbn [for_each foldl]. destruct p as [[i c] [j s]]. cbn [fst snd] in *.
  rewrite (second_pass_body_eq self i c j s st diff Hdiff).
  cbn [mbind result_bind]. unfold search_step at 2. rewrite Ediff.
  destruct (F64.ltb diff (min_diff st)); apply IH; assumption.
Qed.

(** The fold records the first pair of least difference. *)
Lemma search_fold_first_minimum (self : NuSui) (with_indices : bool)
    (pairs : list ((Z * Z) * (Z * Z))) (st : search) :
  min_diff st = F64.inf →
  (∀ p, p ∈ pairs → F64.is_finite (diff_of self p) = true) →
  pairs ≠ [] →
  ∃ l1 p l2,
    pairs = l1 ++ p :: l2
    ∧ foldl (search_step self with_indices) st pairs = recorded with_indices p (diff_of self p)
    ∧ (∀ x, x ∈ l1 → flt (diff_of self p) (diff_of self x))
    ∧ (∀ x, x ∈ l2 → fle (diff_of self p) (diff_of self x)).
Proof.
  intros Hinf. induction pairs as [|a pairs IH] using rev_ind; intros Hfin Hne; [contradiction|].
  rewrite foldl_app. cbn [foldl].
  assert (Ha : F64.is_finite (diff_of self a) = true)
    by (apply Hfin, elem_of_app; right; left).
  destruct pairs as [|b pairs'].
  - exists [], a, []. cbn [foldl]. unfold search_step. rewrite Hinf.
    pose proof (finite_flt_inf _ Ha) as Hlt. unfold flt in Hlt. rewrite Hlt.
    repeat split; [intros x Hx; inversion Hx ..].
  - destruct IH as (l1 & p & l2 & E & Hst & H1 & H2).
    { intros q Hq. apply Hfin, elem_of_app. left. exact Hq. }
    { discriminate. }
    rewrite Hst. unfold search_step at 1. cbn [recorded min_diff].
    assert (Hp : F64.is_finite (diff_of self p) = true).
    { apply Hfin, elem_of_app. left. rewrite E. apply elem_of_app. right. left. }
    destruct (F64.ltb (diff_of self a) (diff_of self p)) eqn:Hlt.
    + exists (b :: pairs'), a, []. split; [reflexivity|]. split; [reflexivity|].
      split; [|intros x Hx; inversion Hx].
      intros x Hx. rewrite E in Hx.
      apply elem_of_app in Hx as [Hx|Hx]; [|apply elem_of_cons in Hx as [->|Hx]].
      * eapply flt_fle_trans; [exact Hlt|]. apply flt_fle, H1, Hx.
      * exact Hlt.
      * eapply flt_fle_trans; [exact Hlt|]. apply H2, Hx.
    + exists l1, p, (l2 ++ [a]). split; [rewrite E, <- app_assoc; reflexivity|].
      split; [reflexivity|]. split; [exact H1|].
      intros x Hx. apply elem_of_app in Hx as [Hx|Hx]; [apply H2, Hx|].
      apply list_elem_of_singleton in Hx as ->.
      apply not_flt_fle; auto using finite_not_nan.
Qed.

(** ** Validated configurations *)

Lemma validated_teeth (self : NuSui) :
  validate_gear_configuration self = true →
  crankset_teeth self ≠ [] ∧ cassette_teeth self ≠ []
  ∧ (∀ teeth, teeth ∈ crankset_teeth self → MIN_TEETH ≤ teeth ≤ MAX_TEETH)
  ∧ (∀ teeth, teeth ∈ cassette_teeth self → MIN_TEETH ≤ teeth ≤ MAX_TEETH).
Proof.
  unfold validate_gear_configuration. intros H.
  destruct (decide (crankset_teeth self = [])) as [E|E];
    [rewrite bool_decide_eq_true_2 in H by assumption; discriminate|].
  destruct (decide (cassette_teeth self = [])) as [E'|E'];
    [rewrite (bool_decide_eq_true_2 _ E'), orb_true_r in H; discriminate|].
  rewrite !bool_decide_eq_false_2 in H by assumption. cbn [orb] in H.
  rewrite forallb_forall in H.
  assert (Hall : ∀ teeth, teeth ∈ crankset_teeth self ++ cassette_teeth self →
                          MIN_TEETH ≤ teeth ≤ MAX_TEETH).
  { intros t Ht. apply list_elem_of_In, H in Ht. lia. }
  repeat split; try assumption; apply Hall, elem_of_app; auto.
Qed.

Lemma enumerate_teeth {A : Type} (l : list A) (ix : Z * A) : ix ∈ enumerate l → ix.2 ∈ l.
Proof.
  destruct ix as [i x]. rewrite elem_of_enumerate. intros (n & _ & H).
  apply list_elem_of_lookup. eauto.
Qed.

Lemma gear_pairs_nonempty (self : NuSui) :
  crankset_teeth self ≠ [] → cassette_teeth self ≠ [] → gear_pairs self ≠ [].
Proof.
  unfold gear_pairs, enumerate.
  destruct (crankset_teeth self) as [|c cr]; [contradiction|].
  destruct (cassette_teeth self) as [|s cs]; [contradiction|]. discriminate.
Qed.

Lemma py_index_total (x : Z) (l : list Z) : x ∈ l → ∃ n, py_index x l = Ok n.
Proof.
  intros H. unfold py_index.
  destruct (list_find_elem_of (λ y, y = x) l x H eq_refl) as [[i y] ->]. eauto.
Qed.


Lemma StronglySorted_filter {A : Type} (R : relation A) (P : A → Prop)
    `{∀ x, Decision (P x)} (l : list A) :
  StronglySorted R l → StronglySorted R (filter P l).
Proof.
  induction 1 as [|x l Hs IH Hf]; [constructor|].
  rewrite filter_cons. destruct (decide (P x)); [|exact IH].
  constructor; [exact IH|].
  rewrite Forall_forall in *. intros y Hy. apply list_elem_of_filter in Hy as [_ Hy]. auto.
Qed.

(** In a list sorted by the order of the visit, the elements visited
    before [p] are exactly those in front of it. *)
Lemma sorted_before (l1 l2 : list ((Z * Z) * (Z * Z))) (p x : (Z * Z) * (Z * Z)) :
  StronglySorted idx_lt (l1 ++ p :: l2) → x ∈ l1 ++ p :: l2 → idx_lt x p → x ∈ l1.
Proof.
  intros Hs Hx Hlt. apply StronglySorted_app in Hs as (H12 & _ & H2).
  apply elem_of_app in Hx as [Hx|Hx]; [assumption|]. exfalso.
  apply elem_of_cons in Hx as [->|Hx].
  - unfold idx_lt, visited_before in Hlt. lia.
  - apply StronglySorted_cons in H2 as [Hf _].
    rewrite Forall_forall in Hf. specialize (Hf x Hx).
    unfold idx_lt, visited_before in *. lia.
Qed.

Lemma crossing_flag_of (self : NuSui) (p : (Z * Z) * (Z * Z)) :
  num_sprockets self < 2 ^ 63 →
  crossing_flag self p.1.1 p.2.1 = Ok (crossing_of self p).
Proof.
  intros Hn. unfold crossing_flag.
  destruct (crossing_of_spec self p Hn) as [msg ->]. reflexivity.
Qed.

Lemma crossing_of_false (self : NuSui) (p : (Z * Z) * (Z * Z)) :
  crossing_flag self p.1.1 p.2.1 = Ok false → crossing_of self p = false.
Proof.
  unfold crossing_flag, crossing_of.
  destruct (is_chain_crossing self p.1.1 p.2.1) as [[b msg]|e]; simpl; congruence.
Qed.

(** ** The recommendation search *)

(** The panel is filled for a recorded pair of a validated
    configuration. *)
Lemma display_recorded (self : NuSui) (with_indices : bool) (p : (Z * Z) * (Z * Z))
    (diff : float) (crossing : bool) (msg : option string) :
  validate_gear_configuration self = true → bounded_inputs self →
  p ∈ gear_pairs self →
  ∃ r,
    match best_chainring (recorded with_indices p diff),
          best_sprocket (recorded with_indices p diff) with
    | Some chainring, Some sprocket =>
        if (chainring =? 0) || (sprocket =? 0) then Ok None
        else
          let gear_ratio := handle_errors (calculate_gear_ratio chainring sprocket) in
          let actual_speed :=
            handle_errors (calculate_speed self gear_ratio (cadencia_var self)) in
          chainring_idx ← py_index chainring (crankset_teeth self);
          sprocket_idx ← py_index sprocket (cassette_teeth self);
          speed ← require_float actual_speed;
          ratio ← require_float gear_ratio;
          wheel_circum ← wheel_circumference self;
          Ok (Some {| rec_chainring := chainring; rec_sprocket := sprocket;
                      rec_chainring_idx := chainring_idx + 1;
                      rec_sprocket_idx := sprocket_idx + 1;
                      rec_actual_speed := speed; rec_gear_ratio := ratio;
                      rec_development := F64.mul ratio wheel_circum;
                      rec_crossing := crossing; rec_crossing_message := msg;
                      rec_advice := slope_advice (slope_var self) |})
    | _, _ => Ok None
    end = Ok (Some r)
    ∧ rec_chainring r = p.1.2 ∧ rec_sprocket r = p.2.2 ∧ rec_crossing r = crossing
    ∧ py_index p.1.2 (crankset_teeth self) = Ok (rec_chainring_idx r - 1)
    ∧ py_index p.2.2 (cassette_teeth self) = Ok (rec_sprocket_idx r - 1).
Proof.
  intros Hv Hb Hp.
  destruct (validated_teeth self Hv) as (_ & _ & Hcr & Hcs).
  apply elem_of_gear_pairs in Hp as [Hp1 Hp2].
  apply enumerate_teeth in Hp1, Hp2.
  pose proof (Hcr _ Hp1) as Hc. pose proof (Hcs _ Hp2) as Hs.
  unfold MIN_TEETH, MAX_TEETH in Hc, Hs.
  cbn [recorded best_chainring best_sprocket].
  destruct (Z.eqb_spec p.1.2 0); [lia|]. destruct (Z.eqb_spec p.2.2 0); [lia|].
  cbn [orb].
  destruct (calculate_gear_ratio_below p.1.2 p.2.2 ltac:(lia) ltac:(lia)) as (g & -> & Hg).
  cbn [handle_errors].
  destruct Hb as (Hw & Hcad & _).
  destruct (calculate_speed_below self g (cadencia_var self) Hw Hcad Hg) as (v & -> & _).
  destruct (py_index_total _ _ Hp1) as [n1 ->].
  destruct (py_index_total _ _ Hp2) as [n2 ->].
  unfold wheel_circumference. destruct Hw as [w ->].
  cbn [handle_errors require_float mbind result_bind].
  eexists. split; [reflexivity|].
  cbn [rec_chainring rec_sprocket rec_crossing rec_chainring_idx rec_sprocket_idx].
  repeat split; f_equal; lia.
Qed.

Lemma recommendation_search (self : NuSui) :
  validate_gear_configuration self = true → bounded_inputs self →
  ∃ r p,
    calculate_recommended_gear self = Ok (Some r)
    ∧ rec_chainring r = p.1.2 ∧ rec_sprocket r = p.2.2
    ∧ rec_crossing r = crossing_of self p
    ∧ py_index p.1.2 (crankset_teeth self) = Ok (rec_chainring_idx r - 1)
    ∧ py_index p.2.2 (cassette_teeth self) = Ok (rec_sprocket_idx r - 1)
    ∧ candidate self p.1.1 p.2.1 p.1.2 p.2.2
    ∧ (∀ x, candidate self x.1.1 x.2.1 x.1.2 x.2.2 →
         fle (diff_of self p) (diff_of self x)
         ∧ (idx_lt x p → flt (diff_of self p) (diff_of self x))).
Proof.
  intros Hv Hb.
  destruct (validated_teeth self Hv) as (Hne1 & Hne2 & Hcr & Hcs).
  assert (Hn : num_sprockets self < 2 ^ 63) by apply Hb.
  assert (Hdiff : ∀ p, p ∈ gear_pairs self →
            ∃ diff, speed_diff self p.1.2 p.2.2 = Ok diff ∧ F64.is_finite diff = true).
  { intros p Hp. apply elem_of_gear_pairs in Hp as [Hp1 Hp2].
    apply enumerate_teeth in Hp1, Hp2. apply speed_diff_finite; auto. }
  assert (Hok : ∀ p, p ∈ gear_pairs self → ∃ diff, speed_diff self p.1.2 p.2.2 = Ok diff).
  { intros p Hp. destruct (Hdiff p Hp) as (d & Hd & _). eauto. }
  assert (Hfin : ∀ p, p ∈ gear_pairs self → F64.is_finite (diff_of self p) = true).
  { intros p Hp. destruct (Hdiff p Hp) as (d & Hd & Hf).
    rewrite (diff_of_eq _ _ _ Hd). exact Hf. }
  assert (Hgear : ∀ x : (Z * Z) * (Z * Z), gear self x.1.1 x.2.1 x.1.2 x.2.2 ↔ x ∈ gear_pairs self).
  { intros [[i c] [j s]]. reflexivity. }
  pose proof (gear_pairs_sorted self) as Hsorted.
  unfold calculate_recommended_gear.
  rewrite gear_loops_flat,
    (first_pass_pure self (gear_pairs self) search_init Hn Hok eq_refl eq_refl).
  cbn [mbind result_bind].
  set (usable := filter (λ p, crossing_of self p = false) (gear_pairs self)).
  assert (Husable : ∀ x, x ∈ usable ↔ crossing_of self x = false ∧ x ∈ gear_pairs self)
    by (intros x; unfold usable; rewrite list_elem_of_filter; reflexivity).
  destruct (decide (usable = [])) as [Hnil|Hnil].
  - (* every pair crosses: the second loop decides *)
    rewrite Hnil. cbn [foldl search_init best_chainring best_sprocket best_i best_j].
    rewrite gear_loops_flat, (second_pass_pure self _ _ Hok).
    cbn [mbind result_bind].
    destruct (search_fold_first_minimum self true (gear_pairs self)
                {| best_chainring := None; best_sprocket := None; min_diff := F64.inf;
                   best_i := None; best_j := None |} eq_refl Hfin
                (gear_pairs_nonempty self Hne1 Hne2))
      as (l1 & p & l2 & E & -> & H1 & H2).
    assert (Hp : p ∈ gear_pairs self) by (rewrite E; apply elem_of_app; right; left).
    cbn [recorded best_i best_j unbound mbind result_bind].
    destruct (crossing_of_spec self p Hn) as [msg Hc]. rewrite Hc.
    cbn [mbind result_bind].
    destruct (display_recorded self true p (diff_of self p) (crossing_of self p) msg Hv Hb Hp)
      as (r & Hr & Ec & Es & Ex & Ei & Ej).
    exists r, p. split; [exact Hr|]. split; [exact Ec|]. split; [exact Es|].
    split; [exact Ex|]. split; [exact Ei|]. split; [exact Ej|].
    assert (Hnone : ¬ some_non_crossing self).
    { intros (i & j & c & s & Hg & Hf).
      assert (Hin : (i, c, (j, s)) ∈ usable).
      { apply Husable. split; [|exact Hg].
        exact (crossing_of_false self (i, c, (j, s)) Hf). }
      rewrite Hnil in Hin. apply elem_of_nil in Hin. exact Hin. }
    split; [split; [apply (proj2 (Hgear p)), Hp|right; exact Hnone]|].
    intros x [Hx _]. apply (proj1 (Hgear x)) in Hx. split.
    + rewrite E in Hx. apply elem_of_app in Hx as [Hx|Hx]; [apply flt_fle, H1, Hx|].
      apply elem_of_cons in Hx as [->|Hx]; [|apply H2, Hx].
      apply fle_refl, finite_not_nan, Hfin, Hp.
    + intros Hlt. apply H1. rewrite E in Hsorted, Hx.
      exact (sorted_before _ _ _ _ Hsorted Hx Hlt).
  - (* some pair does not cross: the first loop decides *)
    destruct (search_fold_first_minimum self false usable search_init eq_refl
                ltac:(intros q Hq; apply Hfin, Husable, Hq) Hnil)
      as (l1 & p & l2 & E & -> & H1 & H2).
    assert (Hpu : p ∈ usable) by (rewrite E; apply elem_of_app; right; left).
    destruct (proj1 (Husable p) Hpu) as [Hpc Hp].
    cbn [recorded best_chainring mbind result_bind].
    destruct (display_recorded self false p (diff_of self p) false None Hv Hb Hp)
      as (r & Hr & Ec & Es & Ex & Ei & Ej).
    exists r, p. split; [exact Hr|]. split; [exact Ec|]. split; [exact Es|].
    split; [congruence|]. split; [exact Ei|]. split; [exact Ej|].
    assert (Hpf : crossing_flag self p.1.1 p.2.1 = Ok false)
      by (rewrite (crossing_flag_of self p Hn), Hpc; reflexivity).
    assert (Hsome : some_non_crossing self).
    { exists p.1.1, p.2.1, p.1.2, p.2.2. split; [apply (proj2 (Hgear p)), Hp|exact Hpf]. }
    split; [split; [apply (proj2 (Hgear p)), Hp|left; exact Hpf]|].
    intros x [Hx [Hxf|Hxn]]; [|contradiction].
    apply (proj1 (Hgear x)) in Hx.
    assert (Hxu : x ∈ usable).
    { apply Husable. split; [|exact Hx]. exact (crossing_of_false self x Hxf). }
    assert (Hsu : StronglySorted idx_lt usable) by (apply StronglySorted_filter, Hsorted).
    split.
    + rewrite E in Hxu. apply elem_of_app in Hxu as [Hxu|Hxu]; [apply flt_fle, H1, Hxu|].
      apply elem_of_cons in Hxu as [->|Hxu]; [|apply H2, Hxu].
      apply fle_refl, finite_not_nan, Hfin, Hp.
    + intros Hlt. apply H1. rewrite E in Hsu, Hxu.
      exact (sorted_before _ _ _ _ Hsu Hxu Hlt).
Qed.



Lemma road_preset_bounded : bounded_inputs road_preset.
Proof.
  unfold bounded_inputs. split; [eexists; vm_compute; reflexivity|].
  repeat split; vm_compute; reflexivity.
Qed.


(** C5: for a validated configuration and form inputs in range, the
    recommended pair is the first pair, in the order of the loops
    (chainring index outer, sprocket index inner), among the competing
    pairs of least absolute difference between adjusted and target speed:
    no competing pair has a smaller difference, every competing pair
    visited earlier has a strictly larger one, so a pair visited later
    with an equal difference does not replace it. *)
Theorem recommendation_first_minimum (self : NuSui) :
  validate_gear_configuration self = true → bounded_inputs self →
  ∃ r i j diff,
    calculate_recommended_gear self = Ok (Some r)
    ∧ candidate self i j (rec_chainring r) (rec_sprocket r)
    ∧ speed_diff self (rec_chainring r) (rec_sprocket r) = Ok diff
    ∧ ∀ i' j' chainring sprocket,
        candidate self i' j' chainring sprocket →
        ∃ diff',
          speed_diff self chainring sprocket = Ok diff'
          ∧ fle diff diff'
          ∧ (visited_before i' j' i j → flt diff diff')
          ∧ (fle diff' diff → ¬ visited_before i' j' i j).
Proof.
  intros Hv Hb.
  destruct (validated_teeth self Hv) as (_ & _ & Hcr & Hcs).
  assert (Hdiff : ∀ x, x ∈ gear_pairs self →
            ∃ d, speed_diff self x.1.2 x.2.2 = Ok d ∧ diff_of self x = d).
  { intros x Hx. apply elem_of_gear_pairs in Hx as [Hx1 Hx2].
    apply enumerate_teeth in Hx1, Hx2.
    destruct (speed_diff_finite self x.1.2 x.2.2 Hb (Hcr _ Hx1) (Hcs _ Hx2)) as (d & Hd & _).
    exists d. split; [exact Hd|]. exact (diff_of_eq self x d Hd). }
  destruct (recommendation_search self Hv Hb)
    as (r & p & Hr & Ec & Es & _ & _ & _ & Hcand & Hmin).
  assert (Hp : p ∈ gear_pairs self) by (destruct p as [[? ?] [? ?]]; apply Hcand).
  destruct (Hdiff p Hp) as (d & Hd & Ed).
  exists r, p.1.1, p.2.1, d. split; [exact Hr|].
  rewrite Ec, Es. split; [exact Hcand|]. split; [exact Hd|].
  intros i' j' chainring sprocket Hx.
  destruct (Hdiff (i', chainring, (j', sprocket)) (proj1 Hx)) as (d' & Hd' & Ed').
  destruct (Hmin (i', chainring, (j', sprocket)) Hx) as [Hle Hlt].
  rewrite Ed, Ed' in Hle, Hlt.
  exists d'. split; [exact Hd'|]. split; [exact Hle|]. split; [exact Hlt|].
  intros Hge Hbefore. specialize (Hlt Hbefore).
  pose proof (fle_not_flt _ _ Hge) as Hno. unfold flt in Hlt. congruence.
Qed.

Lemma tied_gears_bounded : bounded_inputs tied_gears.
Proof.
  unfold bounded_inputs. split; [eexists; vm_compute; reflexivity|].
  repeat split; vm_compute; reflexivity.
Qed.

Lemma recommendation_first_minimum_witness :
  speed_diff tied_gears 34 16 = Ok (S754_finite false 4935945191598080 (-54))
  ∧ crossing_flag tied_gears 0 1 = Ok false ∧ crossing_flag tied_gears 1 2 = Ok false
  ∧ ∃ r, calculate_recommended_gear tied_gears = Ok (Some r)
         ∧ rec_chainring r = 34 ∧ rec_sprocket r = 16
         ∧ candidate tied_gears 0 1 (rec_chainring r) (rec_sprocket r).
Proof.
  split; [vm_compute; reflexivity|].
  split; [vm_compute; reflexivity|]. split; [vm_compute; reflexivity|].
  destruct (recommendation_first_minimum tied_gears) as (r & i & j & d & Hr & Hc & Hd & Hmin);
    [vm_compute; reflexivity | exact tied_gears_bounded |].
  exists r. split; [exact Hr|].
  vm_compute in Hr. injection Hr as <-. cbn [rec_chainring rec_sprocket].
  split; [reflexivity|]. split; [reflexivity|].
  split; [|left; vm_compute; reflexivity].
  unfold gear. apply elem_of_gear_pairs.
  split; apply elem_of_enumerate; [exists 0%nat|exists 1%nat]; auto.
Defined.

(** * Part III: further properties of the code *)

(** ** More on the chain-crossing classifier *)

Lemma is_chain_crossing_general (self : NuSui) (extreme_count chainring_idx sprocket_idx : Z) :
  4 ≤ num_chainrings self →
  extreme 1 (num_sprockets self) (F64.lit 3 10) = Ok extreme_count →
  is_chain_crossing self chainring_idx sprocket_idx =
    if (chainring_idx =? 0) && (sprocket_idx >=? num_sprockets self - extreme_count)
    then Ok (true, Some msg_large)
    else if (chainring_idx =? num_chainrings self - 1) && (sprocket_idx <? extreme_count)
    then Ok (true, Some msg_small)
    else if ((0 <? chainring_idx) && (chainring_idx <? num_chainrings self - 1))
            && ((sprocket_idx =? 0) || (sprocket_idx >=? num_sprockets self - 1))
    then Ok (true, Some msg_intermediate)
    else Ok (false, None).
Proof.
  intros Hn He. unfold is_chain_crossing.
  destruct (Z.leb_spec (num_chainrings self) 1); [lia|].
  destruct (Z.eqb_spec (num_chainrings self) 2); [lia|].
  destruct (Z.eqb_spec (num_chainrings self) 3); [lia|].
  rewrite He. cbn [mbind result_bind].
  destruct (Z.ltb_spec 2 (num_chainrings self)); [|lia]. reflexivity.
Qed.



Lemma crossing_reason_iff (self : NuSui) (chainring_idx sprocket_idx : Z)
    (crossing : bool) (reason : option string) :
  is_chain_crossing self chainring_idx sprocket_idx = Ok (crossing, reason) →
  (crossing = true ↔ is_Some reason).
Proof.
  unfold is_chain_crossing. intros H.
  repeat match type of H with
  | (if ?b then _ else _) = _ => destruct b
  | _ ≫= _ = Ok _ =>
      let a := fresh "a" in let Ha := fresh "Ha" in apply bind_Ok in H as (a & Ha & H)
  end;
  injection H as <- <-; split; intros; try discriminate; try reflexivity; eauto;
  match goal with H : is_Some None |- _ => destruct H; discriminate end.
Qed.

(** X2: the flag and the reason go together: the classifier returns a reason
    exactly when it reports a crossing, and the reason is one of the
    four warning texts. *)
Theorem crossing_reason_given_iff_crossing (self : NuSui) (chainring_idx sprocket_idx : Z)
    (crossing : bool) (reason : option string) :
  is_chain_crossing self chainring_idx sprocket_idx = Ok (crossing, reason) →
  (crossing = true ↔ is_Some reason)
  ∧ (∀ msg, reason = Some msg →
       msg = msg_large ∨ msg = msg_small ∨ msg = msg_middle ∨ msg = msg_intermediate).
Proof.
  intros H. split; [exact (crossing_reason_iff _ _ _ _ _ H)|].
  unfold is_chain_crossing in H. intros msg Hr. subst reason.
  repeat match type of H with
  | (if ?b then _ else _) = _ => destruct b
  | _ ≫= _ = Ok _ =>
      let a := fresh "a" in let Ha := fresh "Ha" in apply bind_Ok in H as (a & Ha & H)
  end;
  first [discriminate | injection H as _ Hm; subst msg; auto].
Qed.

Lemma crossing_reason_given_iff_crossing_witness :
  is_chain_crossing mtb_preset 1 0 = Ok (true, Some msg_middle)
  ∧ (true = true ↔ is_Some (Some msg_middle))
  ∧ (∀ msg, Some msg_middle = Some msg →
       msg = msg_large ∨ msg = msg_small ∨ msg = msg_middle ∨ msg = msg_intermediate).
Proof.
  split; [vm_compute; reflexivity|].
  apply (crossing_reason_given_iff_crossing mtb_preset 1 0 true (Some msg_middle)).
  vm_compute. reflexivity.
Defined.

(** X3: the classifier does not raise, whatever the indices, on any
    configuration whose sprocket list has a machine-size length. *)
Theorem classifier_never_raises (self : NuSui) (chainring_idx sprocket_idx : Z) :
  num_sprockets self < 2 ^ 63 →
  ∃ crossing reason,
    is_chain_crossing self chainring_idx sprocket_idx = Ok (crossing, reason).
Proof. apply is_chain_crossing_total. Qed.

Lemma classifier_never_raises_witness :
  ∃ crossing reason, is_chain_crossing quad_chainrings (-3) 400 = Ok (crossing, reason).
Proof. apply classifier_never_raises. vm_compute. reflexivity. Defined.

(** The crossing flags of the four shapes of configuration, with the
    thresholds that the classifier computes. *)
Lemma crossing_flag_shape (self : NuSui) :
  num_sprockets self < 2 ^ 63 →
  (num_chainrings self ≤ 1 ∧ ∀ ci si, crossing_flag self ci si = Ok false)
  ∨ (num_chainrings self = 2
     ∧ ∃ e, extreme 2 (num_sprockets self) (F64.lit 35 100) = Ok e ∧ 2 ≤ e
            ∧ ∀ ci si, crossing_flag self ci si =
         Ok (bool_decide ((ci = 0 ∧ si >= num_sprockets self - e) ∨ (ci = 1 ∧ si < e))))
  ∨ (num_chainrings self = 3
     ∧ ∃ e m, extreme 2 (num_sprockets self) (F64.lit 4 10) = Ok e
              ∧ extreme 1 (num_sprockets self) (F64.lit 15 100) = Ok m ∧ 2 ≤ e ∧ 1 ≤ m
              ∧ ∀ ci si, crossing_flag self ci si =
         Ok (bool_decide ((ci = 0 ∧ si >= num_sprockets self - e) ∨ (ci = 2 ∧ si < e)
                          ∨ (ci = 1 ∧ (si >= num_sprockets self - m ∨ si < m)))))
  ∨ (4 ≤ num_chainrings self
     ∧ ∃ e, extreme 1 (num_sprockets self) (F64.lit 3 10) = Ok e ∧ 1 ≤ e
            ∧ ∀ ci si, crossing_flag self ci si =
         Ok (bool_decide
               ((ci = 0 ∧ si >= num_sprockets self - e)
                ∨ (ci = num_chainrings self - 1 ∧ si < e)
                ∨ (0 < ci < num_chainrings self - 1
                   ∧ (si = 0 ∨ si >= num_sprockets self - 1))))).
Proof.
  intros Hn.
  assert (H0 : 0 ≤ num_sprockets self < 2 ^ 63) by (unfold num_sprockets in *; lia).
  assert (Hex : ∀ lo c, below 0 c = true →
            ∃ e, extreme lo (num_sprockets self) c = Ok e ∧ lo ≤ e).
  { intros lo c Hc. destruct (extreme_total lo _ c H0 Hc) as [e He]. exists e.
    split; [exact He|]. unfold extreme in He.
    apply bind_Ok in He as (x & _ & He). apply bind_Ok in He as (r & _ & He).
    injection He as <-. lia. }
  destruct (Z.le_gt_cases (num_chainrings self) 1) as [H1|H1].
  { left. split; [exact H1|]. intros ci si. unfold crossing_flag, is_chain_crossing.
    destruct (Z.leb_spec (num_chainrings self) 1); [reflexivity|lia]. }
  right. destruct (Z.eq_dec (num_chainrings self) 2) as [H2|H2].
  { left. split; [exact H2|].
    destruct (Hex 2 (F64.lit 35 100) eq_refl) as (e & He & Hle). exists e.
    split; [exact He|]. split; [exact Hle|].
    intros ci si. unfold crossing_flag.
    rewrite (is_chain_crossing_double self e ci si H2 He). crossing_cases. }
  right. destruct (Z.eq_dec (num_chainrings self) 3) as [H3|H3].
  { left. split; [exact H3|].
    destruct (Hex 2 (F64.lit 4 10) eq_refl) as (e & He & Hle).
    destruct (Hex 1 (F64.lit 15 100) eq_refl) as (m & Hm & Hlm).
    exists e, m. split; [exact He|]. split; [exact Hm|]. split; [exact Hle|].
    split; [exact Hlm|].
    intros ci si. unfold crossing_flag.
    rewrite (is_chain_crossing_triple self e m ci si H3 He Hm). crossing_cases. }
  right. assert (H4 : 4 ≤ num_chainrings self) by lia. split; [exact H4|].
  destruct (Hex 1 (F64.lit 3 10) eq_refl) as (e & He & Hle). exists e.
  split; [exact He|]. split; [exact Hle|].
  intros ci si. unfold crossing_flag.
  rewrite (is_chain_crossing_general self e ci si H4 He). crossing_cases.
Qed.

(** Solving the goals on crossing flags once the shape is known. *)
Ltac flag_cases :=
  repeat match goal with
  | H : bool_decide _ = true |- _ => apply bool_decide_eq_true in H
  | H : bool_decide _ = false |- _ => apply bool_decide_eq_false in H
  | |- context [bool_decide ?P] => destruct (bool_decide_reflect P)
  end;
  try reflexivity; try congruence; exfalso; lia.

(** X4: the crossing matrix is symmetric about its centre: the pair
    [(chainring_idx, sprocket_idx)] crosses exactly when the mirrored
    pair does (largest chainring with the last sprockets, smallest with
    the first ones). *)
Theorem crossing_matrix_symmetric (self : NuSui) (chainring_idx sprocket_idx : Z) :
  num_sprockets self < 2 ^ 63 →
  0 ≤ sprocket_idx < num_sprockets self →
  crossing_flag self (num_chainrings self - 1 - chainring_idx)
                     (num_sprockets self - 1 - sprocket_idx)
  = crossing_flag self chainring_idx sprocket_idx.
Proof.
  intros Hn Hj.
  destruct (crossing_flag_shape self Hn)
    as [[H1 H]|[[H2 (e & _ & He & H)]|[[H3 (e & m & _ & _ & He & Hm & H)]|[H4 (e & _ & He & H)]]]];
    rewrite !H; f_equal; flag_cases.
Qed.

Lemma crossing_matrix_symmetric_witness :
  crossing_flag mtb_preset 2 2 = crossing_flag mtb_preset 0 4.
Proof.
  apply (crossing_matrix_symmetric mtb_preset 0 4); vm_compute; [reflexivity|].
  split; [discriminate|reflexivity].
Defined.

(** X5: on the largest chainring a crossing extends to every later sprocket,
    on the smallest chainring to every earlier one: the crossing gears of
    the two outer chainrings are a block at one end of the cassette. *)
Theorem outer_chainring_crossings_are_blocks (self : NuSui) (sprocket_idx sprocket_idx' : Z) :
  num_sprockets self < 2 ^ 63 →
  sprocket_idx ≤ sprocket_idx' →
  (crossing_flag self 0 sprocket_idx = Ok true →
   crossing_flag self 0 sprocket_idx' = Ok true)
  ∧ (crossing_flag self (num_chainrings self - 1) sprocket_idx' = Ok true →
     crossing_flag self (num_chainrings self - 1) sprocket_idx = Ok true).
Proof.
  intros Hn Hj.
  destruct (crossing_flag_shape self Hn)
    as [[H1 H]|[[H2 (e & _ & He & H)]|[[H3 (e & m & _ & _ & He & Hm & H)]|[H4 (e & _ & He & H)]]]];
    rewrite !H; split; intros Hc; try discriminate; f_equal;
    injection Hc as Hc; flag_cases.
Qed.

Lemma outer_chainring_crossings_are_blocks_witness :
  crossing_flag road_10 0 9 = Ok true ∧ crossing_flag road_10 1 0 = Ok true.
Proof.
  destruct (outer_chainring_crossings_are_blocks road_10 6 9) as [Hup _];
    [vm_compute; reflexivity | lia |].
  destruct (outer_chainring_crossings_are_blocks road_10 0 3) as [_ Hdown];
    [vm_compute; reflexivity | lia |].
  split; [apply Hup|apply Hdown]; vm_compute; reflexivity.
Defined.

Lemma all_gears_cross (self : NuSui) (i j chainring sprocket : Z) :
  (2 ≤ num_chainrings self ∧ num_sprockets self = 1)
  ∨ ((num_chainrings self = 2 ∨ num_chainrings self = 3) ∧ num_sprockets self = 2) →
  gear self i j chainring sprocket →
  crossing_flag self i j = Ok true.
Proof.
  intros Hc Hg.
  assert (Hn : num_sprockets self < 2 ^ 63) by lia.
  apply elem_of_gear_pairs in Hg as [Hi Hj]. cbn [fst snd] in Hi, Hj.
  apply elem_of_enumerate in Hi as (ni & -> & Hi), Hj as (nj & -> & Hj).
  apply lookup_lt_Some in Hi, Hj.
  destruct (crossing_flag_shape self Hn)
    as [[H1 H]|[[H2 (e & _ & He & H)]|[[H3 (e & m & _ & _ & He & Hm & H)]|[H4 (e & _ & He & H)]]]];
    unfold num_chainrings, num_sprockets in *; try lia;
    rewrite H; f_equal; flag_cases.
Qed.

(** X6: with a single sprocket and two or more chainrings, or with two
    sprockets and two or three chainrings, every gear of the
    configuration is a crossing. *)
Theorem few_sprockets_all_cross (self : NuSui) (i j chainring sprocket : Z) :
  (2 ≤ num_chainrings self ∧ num_sprockets self = 1)
  ∨ ((num_chainrings self = 2 ∨ num_chainrings self = 3) ∧ num_sprockets self = 2) →
  gear self i j chainring sprocket →
  crossing_flag self i j = Ok true.
Proof. apply all_gears_cross. Qed.

Lemma few_sprockets_all_cross_witness :
  crossing_flag twin_chainrings 1 0 = Ok true.
Proof.
  apply (few_sprockets_all_cross twin_chainrings 1 0 34 14);
    [left; split; [discriminate|reflexivity]|].
  unfold gear. apply elem_of_gear_pairs.
  split; apply elem_of_enumerate; [exists 1%nat|exists 0%nat]; auto.
Defined.

Lemma extreme_below_length :
  forallb (λ n,
    match extreme 2 n (F64.lit 35 100), extreme 2 n (F64.lit 4 10),
          extreme 1 n (F64.lit 3 10) with
    | Ok a, Ok b, Ok c => ((n <? 3) || ((a <? n) && (b <? n))) && ((n <? 2) || (c <? n))
    | _, _, _ => false
    end) (seqZ 1 64) = true.
Proof. vm_compute. reflexivity. Qed.

(** Outside those shapes, and up to 64 sprockets, the largest chainring
    with the first sprocket is never a crossing. *)
Lemma first_gear_usable (self : NuSui) :
  1 ≤ num_sprockets self ≤ 64 →
  num_chainrings self ≤ 1 ∨ 3 ≤ num_sprockets self
  ∨ (4 ≤ num_chainrings self ∧ num_sprockets self = 2) →
  crossing_flag self 0 0 = Ok false.
Proof.
  intros Hn Hshape.
  pose proof extreme_below_length as T. rewrite forallb_forall in T.
  assert (Hin : num_sprockets self ∈ seqZ 1 64) by (apply elem_of_seqZ; lia).
  specialize (T (num_sprockets self) (proj1 (list_elem_of_In _ _) Hin)).
  destruct (crossing_flag_shape self ltac:(lia))
    as [[H1 H]|[[H2 (e & Ee & He & H)]|[[H3 (e & m & Ee & _ & He & Hm & H)]|[H4 (e & Ee & He & H)]]]];
    rewrite H; try reflexivity; f_equal;
    destruct (extreme 2 _ (F64.lit 35 100)) as [a|]; try discriminate;
    destruct (extreme 2 _ (F64.lit 4 10)) as [b|]; try discriminate;
    destruct (extreme 1 _ (F64.lit 3 10)) as [c|]; try discriminate;
    injection Ee as <-; apply bool_decide_eq_false; lia.
Qed.

(** ** More on the gear math *)

(** Each valid tooth count against the next one. *)
Lemma gear_ratio_step_table :
  forallb (λ a,
    forallb (λ b,
      F64.ltb (ratio_of b a) (ratio_of (b + 1) a)
      && F64.ltb (ratio_of a (b + 1)) (ratio_of a b))
      (seqZ MIN_TEETH (MAX_TEETH - MIN_TEETH))) teeth_range = true.
Proof. vm_compute. reflexivity. Qed.

Lemma ratio_order (a b b' : Z) :
  MIN_TEETH ≤ a ≤ MAX_TEETH → MIN_TEETH ≤ b ≤ MAX_TEETH → MIN_TEETH ≤ b' ≤ MAX_TEETH →
  b < b' →
  flt (ratio_of b a) (ratio_of b' a) ∧ flt (ratio_of a b') (ratio_of a b).
Proof.
  intros Ha Hb Hb' Hlt.
  assert (Hstep : ∀ x, MIN_TEETH ≤ x < MAX_TEETH →
            flt (ratio_of x a) (ratio_of (x + 1) a) ∧ flt (ratio_of a (x + 1)) (ratio_of a x)).
  { intros x Hx. pose proof gear_ratio_step_table as T.
    rewrite forallb_forall in T.
    specialize (T a (proj1 (list_elem_of_In _ _) (elem_of_teeth_range _ Ha))).
    rewrite forallb_forall in T.
    assert (Hin : x ∈ seqZ MIN_TEETH (MAX_TEETH - MIN_TEETH))
      by (apply elem_of_seqZ; unfold MIN_TEETH, MAX_TEETH in *; lia).
    specialize (T x (proj1 (list_elem_of_In _ _) Hin)).
    apply andb_true_iff in T. exact T. }
  replace b' with (b + 1 + Z.of_nat (Z.to_nat (b' - b - 1))) in * by lia.
  induction (Z.to_nat (b' - b - 1)) as [|n IH].
  - rewrite Z.add_0_r. apply Hstep. lia.
  - destruct IH as [IH1 IH2]; [lia|lia|].
    destruct (Hstep (b + 1 + Z.of_nat n) ltac:(lia)) as [S1 S2].
    replace (b + 1 + Z.of_nat (S n)) with (b + 1 + Z.of_nat n + 1) by lia.
    split.
    + exact (flt_fle_trans _ _ _ IH1 (flt_fle _ _ S1)).
    + exact (flt_fle_trans _ _ _ S2 (flt_fle _ _ IH2)).
Qed.

Lemma ratio_of_Ok (chainring sprocket : Z) :
  MIN_TEETH ≤ chainring ≤ MAX_TEETH → MIN_TEETH ≤ sprocket ≤ MAX_TEETH →
  calculate_gear_ratio chainring sprocket = Ok (ratio_of chainring sprocket).
Proof.
  intros Hc Hs. unfold ratio_of, MIN_TEETH, MAX_TEETH in *.
  destruct (calculate_gear_ratio_below chainring sprocket ltac:(lia) ltac:(lia)) as (g & -> & _).
  reflexivity.
Qed.

(** X7: over the valid tooth counts the ratio grows strictly with the
    chainring and falls strictly with the sprocket: the rounding of the
    division never merges or swaps two gears. *)
Theorem gear_ratio_strictly_monotone (teeth small large : Z) :
  MIN_TEETH ≤ teeth ≤ MAX_TEETH →
  MIN_TEETH ≤ small → small < large → large ≤ MAX_TEETH →
  ∃ r_small r_large q_small q_large,
    calculate_gear_ratio small teeth = Ok r_small
    ∧ calculate_gear_ratio large teeth = Ok r_large
    ∧ flt r_small r_large
    ∧ calculate_gear_ratio teeth small = Ok q_small
    ∧ calculate_gear_ratio teeth large = Ok q_large
    ∧ flt q_large q_small.
Proof.
  intros Ht Hs Hlt Hl.
  assert (Hsmall : MIN_TEETH ≤ small ≤ MAX_TEETH) by (unfold MAX_TEETH in *; lia).
  assert (Hlarge : MIN_TEETH ≤ large ≤ MAX_TEETH) by (unfold MIN_TEETH in *; lia).
  destruct (ratio_order teeth small large Ht Hsmall Hlarge Hlt) as [T1 T2].
  exists (ratio_of small teeth), (ratio_of large teeth),
         (ratio_of teeth small), (ratio_of teeth large).
  repeat split; try (apply ratio_of_Ok; assumption); assumption.
Qed.

Lemma gear_ratio_strictly_monotone_witness :
  ∃ r_small r_large q_small q_large,
    calculate_gear_ratio 34 16 = Ok r_small
    ∧ calculate_gear_ratio 50 16 = Ok r_large
    ∧ flt r_small r_large
    ∧ calculate_gear_ratio 16 34 = Ok q_small
    ∧ calculate_gear_ratio 16 50 = Ok q_large
    ∧ flt q_large q_small.
Proof.
  apply (gear_ratio_strictly_monotone 16 34 50);
    [vm_compute; split; discriminate | vm_compute; discriminate | lia
     | vm_compute; discriminate].
Defined.

(** *** Signs *)

Lemma binary_round_aux_sign (s : bool) (m e : Z) (l : location) :
  match binary_round_aux F64.prec F64.emax s m e l with
  | S754_zero s' | S754_finite s' _ _ | S754_infinity s' => s' = s
  | S754_nan => True
  end.
Proof.
  unfold binary_round_aux.
  destruct (shr_fexp F64.prec F64.emax m e l) as [mrs1 e1].
  destruct (shr_fexp F64.prec F64.emax _ e1 loc_Exact) as [mrs2 e2].
  destruct (shr_m mrs2); try exact I; try reflexivity.
  destruct (e2 <=? F64.emax - F64.prec); reflexivity.
Qed.

Lemma mul_sign_clear (x y : float) :
  sign_clear x = true → sign_clear y = true →
  F64.is_finite (F64.mul x y) = true → sign_clear (F64.mul x y) = true.
Proof.
  unfold F64.mul, SFmul.
  destruct x as [sx|sx| |sx mx ex], y as [sy|sy| |sy my ey]; cbn [sign_clear F64.is_finite];
    intros Hx Hy Hf; try discriminate;
    try (apply negb_true_iff in Hx; subst sx); try (apply negb_true_iff in Hy; subst sy);
    try reflexivity.
  pose proof (binary_round_aux_sign (xorb false false) (Z.pos (mx * my)) (ex + ey) loc_Exact) as H.
  destruct (binary_round_aux _ _ _ _ _ _); try discriminate; cbn [sign_clear]; subst; reflexivity.
Qed.

Lemma div_sign_clear (x y : float) :
  sign_clear x = true → sign_clear y = true →
  F64.is_finite (F64.div x y) = true → sign_clear (F64.div x y) = true.
Proof.
  unfold F64.div, SFdiv.
  destruct x as [sx|sx| |sx mx ex], y as [sy|sy| |sy my ey]; cbn [sign_clear F64.is_finite];
    intros Hx Hy Hf; try discriminate;
    try (apply negb_true_iff in Hx; subst sx); try (apply negb_true_iff in Hy; subst sy);
    try reflexivity.
  destruct (SFdiv_core_binary F64.prec F64.emax (Z.pos mx) ex (Z.pos my) ey) as [[q e'] l].
  pose proof (binary_round_aux_sign (xorb false false) q e' l) as H.
  destruct (binary_round_aux _ _ _ _ _ _); try discriminate; cbn [sign_clear]; subst; reflexivity.
Qed.

Lemma of_Z_sign_clear (n : Z) : 0 ≤ n → F64.is_finite (F64.of_Z n) = true →
  sign_clear (F64.of_Z n) = true.
Proof.
  intros Hn. unfold F64.of_Z, binary_normalize. destruct n as [|p|p]; [reflexivity| |lia].
  unfold binary_round. destruct (shl_align p 0 _) as [mz ez].
  pose proof (binary_round_aux_sign false (Z.pos mz) ez loc_Exact) as H.
  destruct (binary_round_aux _ _ _ _ _ _); try discriminate; cbn [sign_clear]; subst; reflexivity.
Qed.

Lemma sign_clear_fle_zero (x : float) :
  F64.is_finite x = true → sign_clear x = true → fle (F64.of_Z 0) x.
Proof.
  unfold fle, F64.leb. destruct x as [s|s| |[] m e]; cbn; intros; try discriminate; reflexivity.
Qed.

Lemma wheel_sizes_sign_clear (key : string) (w : float) :
  wheel_sizes !! key = Some w → sign_clear w = true.
Proof.
  intros H. apply elem_of_list_to_map_2 in H.
  assert (Hall : forallb (λ kv : string * float, sign_clear kv.2) wheel_sizes_items = true)
    by (vm_compute; reflexivity).
  rewrite forallb_forall in Hall.
  exact (Hall (key, w) (proj1 (list_elem_of_In _ _) H)).
Qed.

(** X8: for valid tooth counts, a wheel size of the catalog and a cadence
    that is not negative and below [2^64], neither the ratio nor the
    speed raises, and the speed is a finite number that is not
    negative. *)
Theorem speed_defined_and_not_negative (self : NuSui) (chainring sprocket cadence : Z) :
  MIN_TEETH ≤ chainring ≤ MAX_TEETH → MIN_TEETH ≤ sprocket ≤ MAX_TEETH →
  is_Some (wheel_sizes !! wheel_size_var self) →
  0 ≤ cadence < 2 ^ 64 →
  ∃ gear_ratio speed,
    handle_errors (calculate_gear_ratio chainring sprocket) = Some gear_ratio
    ∧ handle_errors (calculate_speed self (Some gear_ratio) cadence) = Some speed
    ∧ F64.is_finite speed = true
    ∧ fle (F64.of_Z 0) speed.
Proof.
  intros Hc Hs Hw Hcad. unfold MIN_TEETH, MAX_TEETH in *.
  destruct (calculate_gear_ratio_below chainring sprocket ltac:(lia) ltac:(lia)) as (g & Eg & Hg).
  destruct (calculate_speed_below self g cadence Hw ltac:(lia) Hg) as (v & Ev & Hv).
  exists g, v. rewrite Eg, Ev. split; [reflexivity|]. split; [reflexivity|].
  pose proof (below_finite _ _ Hv) as Hfin. split; [exact Hfin|].
  apply sign_clear_fle_zero; [exact Hfin|].
  (* follow the signs through the formula *)
  assert (Sg : sign_clear g = true).
  { unfold calculate_gear_ratio, int_truediv in Eg.
    destruct (sprocket =? 0); [discriminate|].
    destruct (F64.is_finite _) eqn:Ef; [|discriminate]. injection Eg as <-.
    apply div_sign_clear; [| |exact Ef].
    - destruct chainring; try lia; reflexivity.
    - destruct sprocket; try lia; reflexivity. }
  destruct Hw as [w Hw].
  unfold calculate_speed, wheel_circumference, float_of_int in Ev.
  rewrite Hw in Ev. cbn [mbind result_bind require_float] in Ev.
  destruct (F64.is_finite (F64.of_Z cadence)) eqn:Ec; [|discriminate].
  cbn [mbind result_bind] in Ev. unfold float_div in Ev.
  destruct (F64.is_zero (F64.of_Z 1000)); [discriminate|]. injection Ev as Ev.
  rewrite <- Ev in Hfin |- *.
  assert (Fdiv : ∀ x y, F64.is_finite (F64.div x y) = true → F64.is_zero y = false →
                        F64.is_finite x = true).
  { intros x y. unfold F64.div, SFdiv. destruct x, y; cbn; congruence. }
  assert (Fmul : ∀ x y, F64.is_finite (F64.mul x y) = true →
                        F64.is_finite x = true ∧ F64.is_finite y = true).
  { intros x y. unfold F64.mul, SFmul. destruct x, y; cbn; intros; split; congruence. }
  pose proof (Fdiv _ _ Hfin eq_refl) as F3.
  destruct (Fmul _ _ F3) as [F2 _]. destruct (Fmul _ _ F2) as [F1 _].
  apply div_sign_clear; [|reflexivity|exact Hfin].
  apply mul_sign_clear; [|reflexivity|exact F3].
  apply mul_sign_clear; [| |exact F2].
  - apply mul_sign_clear; [exact Sg| |exact F1]. exact (wheel_sizes_sign_clear _ _ Hw).
  - apply of_Z_sign_clear; [lia|exact Ec].
Qed.

Lemma speed_defined_and_not_negative_witness :
  ∃ gear_ratio speed,
    handle_errors (calculate_gear_ratio 50 14) = Some gear_ratio
    ∧ handle_errors (calculate_speed road_preset (Some gear_ratio) 90) = Some speed
    ∧ F64.is_finite speed = true
    ∧ fle (F64.of_Z 0) speed.
Proof.
  apply speed_defined_and_not_negative;
    [vm_compute; split; discriminate | vm_compute; split; discriminate
     | eexists; vm_compute; reflexivity | lia].
Defined.

(** ** The recommendation engine at its edges *)

Lemma gear_pairs_without_gears (self : NuSui) :
  crankset_teeth self = [] ∨ cassette_teeth self = [] → gear_pairs self = [].
Proof.
  unfold gear_pairs. intros [->| ->]; [reflexivity|].
  induction (enumerate (crankset_teeth self)) as [|ic l IH]; [reflexivity|].
  exact IH.
Qed.

(** X9: with no chainring or no sprocket configured (the state after
    choosing the custom bike type, before anything is saved) neither loop
    runs, and the engine fails on the unbound variable [best_i] instead
    of leaving the panel empty. *)
Theorem recommendation_without_gears_raises (self : NuSui) :
  crankset_teeth self = [] ∨ cassette_teeth self = [] →
  calculate_recommended_gear self = Raise (UnboundLocalError "best_i").
Proof.
  intros H. unfold calculate_recommended_gear.
  rewrite gear_loops_flat, (gear_pairs_without_gears self H).
  cbn [for_each mbind result_bind search_init best_chainring].
  rewrite gear_loops_flat, (gear_pairs_without_gears self H). reflexivity.
Qed.

Lemma recommendation_without_gears_raises_witness :
  calculate_recommended_gear custom_selected = Raise (UnboundLocalError "best_i").
Proof. apply recommendation_without_gears_raises. left. reflexivity. Defined.

Lemma speed_diff_unknown_wheel (self : NuSui) (chainring sprocket : Z) :
  wheel_sizes !! wheel_size_var self = None →
  speed_diff self chainring sprocket = Raise TypeError.
Proof.
  intros H. unfold speed_diff, calculate_speed, wheel_circumference. rewrite H. reflexivity.
Qed.

Lemma first_pass_unknown_wheel (self : NuSui) (pairs : list ((Z * Z) * (Z * Z))) (st : search) :
  wheel_sizes !! wheel_size_var self = None → num_sprockets self < 2 ^ 63 →
  for_each (λ st p, first_pass_body self p.1.1 p.1.2 st p.2) pairs st = Ok st
  ∨ for_each (λ st p, first_pass_body self p.1.1 p.1.2 st p.2) pairs st = Raise TypeError.
Proof.
  intros Hw Hn. induction pairs as [|[[i c] [j s]] l IH]; [left; reflexivity|].
  cbn [for_each fst snd]. unfold first_pass_body.
  destruct (is_chain_crossing_total self i j Hn) as ([] & msg & ->); cbn [mbind result_bind].
  - exact IH.
  - rewrite (speed_diff_unknown_wheel self c s Hw). right. reflexivity.
Qed.

(** X10: with a wheel size that the catalog does not have (the combobox can
    be typed into) and at least one chainring and one sprocket, the
    engine fails with a [TypeError]: the speed of the first gear it
    weighs is [None]. *)
Theorem recommendation_unknown_wheel_raises (self : NuSui) :
  wheel_sizes !! wheel_size_var self = None →
  crankset_teeth self ≠ [] → cassette_teeth self ≠ [] →
  num_sprockets self < 2 ^ 63 →
  calculate_recommended_gear self = Raise TypeError.
Proof.
  intros Hw Hc Hs Hn. unfold calculate_recommended_gear.
  rewrite gear_loops_flat.
  destruct (first_pass_unknown_wheel self (gear_pairs self) search_init Hw Hn) as [-> | ->];
    [|reflexivity].
  cbn [mbind result_bind search_init best_chainring].
  rewrite gear_loops_flat.
  pose proof (gear_pairs_nonempty self Hc Hs) as Hne.
  destruct (gear_pairs self) as [|[[i c] [j s]] l]; [contradiction|].
  cbn [for_each fst snd]. unfold second_pass_body.
  rewrite (speed_diff_unknown_wheel self c s Hw). reflexivity.
Qed.

Lemma recommendation_unknown_wheel_raises_witness :
  calculate_recommended_gear unknown_wheel = Raise TypeError.
Proof.
  apply recommendation_unknown_wheel_raises;
    [vm_compute; reflexivity | discriminate | discriminate | vm_compute; reflexivity].
Defined.

(** *** What the panel displays *)

Lemma second_pass_indexed (self : NuSui) (pairs : list ((Z * Z) * (Z * Z))) (st st' : search) :
  (∀ p, p ∈ pairs → p ∈ gear_pairs self) →
  indexed_gear self st →
  for_each (λ st p, second_pass_body self p.1.1 p.1.2 st p.2) pairs st = Ok st' →
  indexed_gear self st'.
Proof.
  revert st. induction pairs as [|[[i c] [j s]] l IH]; intros st Hin Hst H.
  - injection H as <-. exact Hst.
  - cbn [for_each fst snd] in H. apply bind_Ok in H as (st1 & H1 & H).
    apply (IH st1); [intros p Hp; apply Hin; right; exact Hp| |exact H].
    unfold second_pass_body in H1. apply bind_Ok in H1 as (diff & _ & H1).
    destruct (F64.ltb diff (min_diff st)); injection H1 as <-; [|exact Hst].
    intros i' j' Hi Hj. cbn in Hi, Hj. injection Hi as <-. injection Hj as <-.
    exists c, s. split; [reflexivity|]. split; [reflexivity|].
    apply Hin. left.
Qed.

Lemma py_index_lookup (x : Z) (l : list Z) (n : Z) :
  py_index x l = Ok n →
  0 ≤ n < Z.of_nat (length l) ∧ l !! Z.to_nat n = Some x
  ∧ ∀ k : nat, (k < Z.to_nat n)%nat → l !! k ≠ Some x.
Proof.
  unfold py_index. destruct (list_find _ l) as [[i y]|] eqn:E; [|discriminate].
  intros H. injection H as <-. apply list_find_Some in E as (Hl & -> & Hfirst).
  rewrite Nat2Z.id. split; [|split].
  - apply lookup_lt_Some in Hl. lia.
  - exact Hl.
  - intros k Hk Hx. exact (Hfirst k x Hx Hk eq_refl).
Qed.

Lemma first_pass_keeps_indices (self : NuSui) (pairs : list ((Z * Z) * (Z * Z)))
    (st st' : search) :
  for_each (λ st p, first_pass_body self p.1.1 p.1.2 st p.2) pairs st = Ok st' →
  best_i st' = best_i st ∧ best_j st' = best_j st.
Proof.
  revert st. induction pairs as [|[[i c] [j s]] l IH]; intros st H.
  - injection H as <-. split; reflexivity.
  - cbn [for_each fst snd] in H. apply bind_Ok in H as (st1 & H1 & H).
    destruct (IH st1 H) as [-> ->].
    unfold first_pass_body in H1. apply bind_Ok in H1 as ([crossing msg] & _ & H1).
    destruct crossing; [injection H1 as <-; split; reflexivity|].
    apply bind_Ok in H1 as (diff & _ & H1).
    destruct (F64.ltb diff (min_diff st)); injection H1 as <-; split; reflexivity.
Qed.

Lemma recommendation_inv (self : NuSui) (r : Recommendation) :
  calculate_recommended_gear self = Ok (Some r) →
  handle_errors (calculate_gear_ratio (rec_chainring r) (rec_sprocket r))
    = Some (rec_gear_ratio r)
  ∧ handle_errors (calculate_speed self (Some (rec_gear_ratio r)) (cadencia_var self))
    = Some (rec_actual_speed r)
  ∧ (∃ wheel_circum,
       wheel_sizes !! wheel_size_var self = Some wheel_circum
       ∧ rec_development r = F64.mul (rec_gear_ratio r) wheel_circum)
  ∧ py_index (rec_chainring r) (crankset_teeth self) = Ok (rec_chainring_idx r - 1)
  ∧ py_index (rec_sprocket r) (cassette_teeth self) = Ok (rec_sprocket_idx r - 1)
  ∧ ((rec_crossing r = false ∧ rec_crossing_message r = None)
     ∨ ∃ i j, gear self i j (rec_chainring r) (rec_sprocket r)
              ∧ is_chain_crossing self i j = Ok (rec_crossing r, rec_crossing_message r)).
Proof.
  unfold calculate_recommended_gear. intros H.
  apply bind_Ok in H as (st1 & Hfirst & H).
  apply bind_Ok in H as ([[st crossing] msg] & Hsel & H).
  assert (Hcross : (crossing = false ∧ msg = None)
                   ∨ ∃ i j, is_chain_crossing self i j = Ok (crossing, msg)
                            ∧ ∃ chainring sprocket,
                                best_chainring st = Some chainring
                                ∧ best_sprocket st = Some sprocket
                                ∧ gear self i j chainring sprocket).
  { destruct (best_chainring st1) as [c1|] eqn:E1.
    - injection Hsel as <- <- <-. left. split; reflexivity.
    - right. apply bind_Ok in Hsel as (st2 & H2 & Hsel).
      apply bind_Ok in Hsel as (bi & Hbi & Hsel).
      apply bind_Ok in Hsel as (bj & Hbj & Hsel).
      apply bind_Ok in Hsel as ([crossing' msg'] & Hic & Hsel).
      injection Hsel as <- <- <-.
      exists bi, bj. split; [exact Hic|].
      rewrite gear_loops_flat in Hfirst, H2.
      destruct (best_i st2) as [i|] eqn:Ei; [|discriminate].
      destruct (best_j st2) as [j|] eqn:Ej; [|discriminate].
      injection Hbi as <-. injection Hbj as <-.
      refine (second_pass_indexed self (gear_pairs self) _ st2 (λ p Hp, Hp) _ H2 i j Ei Ej).
      (* [best_i] is unbound when the second loop starts *)
      destruct (first_pass_keeps_indices _ _ _ _ Hfirst) as [Hi _].
      intros i' j' Hi'. cbn [best_i] in Hi'. rewrite Hi in Hi'. discriminate. }
  destruct (best_chainring st) as [chainring|] eqn:Ec; [|discriminate].
  destruct (best_sprocket st) as [sprocket|] eqn:Es; [|discriminate].
  destruct ((chainring =? 0) || (sprocket =? 0)); [discriminate|].
  apply bind_Ok in H as (chainring_idx & Hci & H).
  apply bind_Ok in H as (sprocket_idx & Hsi & H).
  apply bind_Ok in H as (speed & Hspeed & H).
  apply bind_Ok in H as (ratio & Hratio & H).
  apply bind_Ok in H as (wheel_circum & Hwheel & H).
  injection H as <-.
  cbn [rec_chainring rec_sprocket rec_chainring_idx rec_sprocket_idx rec_actual_speed
       rec_gear_ratio rec_development rec_crossing rec_crossing_message].
  destruct (handle_errors (calculate_gear_ratio chainring sprocket)) as [g|] eqn:Eg;
    [|discriminate].
  injection Hratio as ->.
  destruct (handle_errors (calculate_speed self (Some ratio) (cadencia_var self))) as [v|];
    [|discriminate].
  injection Hspeed as ->.
  split; [reflexivity|]. split; [reflexivity|]. split.
  { exists wheel_circum. split; [|reflexivity].
    unfold wheel_circumference in Hwheel.
    destruct (wheel_sizes !! wheel_size_var self); [congruence|discriminate]. }
  replace (chainring_idx + 1 - 1) with chainring_idx by lia.
  replace (sprocket_idx + 1 - 1) with sprocket_idx by lia.
  split; [exact Hci|]. split; [exact Hsi|].
  destruct Hcross as [Hno|(i & j & Hic & c' & s' & Hc' & Hs' & Hg)]; [left; exact Hno|].
  right. exists i, j. split; [|exact Hic]. congruence.
Qed.

(** X11: for a validated configuration and form inputs in range, the figures
    of the panel belong to the recommended gear: its ratio and its speed
    at the chosen cadence are the values of the gear math, the
    development is the ratio times the circumference of the chosen wheel,
    and each displayed position is the 1-based position of the first
    chainring (sprocket) of the list with the recommended tooth count. *)
Theorem recommendation_figures_coherent (self : NuSui) :
  validate_gear_configuration self = true → bounded_inputs self →
  ∃ r wheel_circum,
    calculate_recommended_gear self = Ok (Some r)
    ∧ calculate_gear_ratio (rec_chainring r) (rec_sprocket r) = Ok (rec_gear_ratio r)
    ∧ calculate_speed self (Some (rec_gear_ratio r)) (cadencia_var self)
      = Ok (rec_actual_speed r)
    ∧ wheel_sizes !! wheel_size_var self = Some wheel_circum
    ∧ rec_development r = F64.mul (rec_gear_ratio r) wheel_circum
    ∧ 1 ≤ rec_chainring_idx r ≤ num_chainrings self
    ∧ crankset_teeth self !! Z.to_nat (rec_chainring_idx r - 1) = Some (rec_chainring r)
    ∧ (∀ k : nat, (k < Z.to_nat (rec_chainring_idx r - 1))%nat →
         crankset_teeth self !! k ≠ Some (rec_chainring r))
    ∧ 1 ≤ rec_sprocket_idx r ≤ num_sprockets self
    ∧ cassette_teeth self !! Z.to_nat (rec_sprocket_idx r - 1) = Some (rec_sprocket r)
    ∧ (∀ k : nat, (k < Z.to_nat (rec_sprocket_idx r - 1))%nat →
         cassette_teeth self !! k ≠ Some (rec_sprocket r)).
Proof.
  intros Hv Hb.
  destruct (recommendation_search self Hv Hb) as (r & p & Hr & _).
  destruct (recommendation_inv self r Hr)
    as (Hg & Hs & (w & Hw & Hd) & Hci & Hsi & _).
  exists r, w. split; [exact Hr|].
  split. { destruct (calculate_gear_ratio _ _); [cbn in Hg; congruence|discriminate]. }
  split. { destruct (calculate_speed _ _ _); [cbn in Hs; congruence|discriminate]. }
  split; [exact Hw|]. split; [exact Hd|].
  apply py_index_lookup in Hci as (Hc1 & Hc2 & Hc3).
  apply py_index_lookup in Hsi as (Hs1 & Hs2 & Hs3).
  unfold num_chainrings, num_sprockets.
  repeat split; try assumption; lia.
Qed.

Lemma recommendation_figures_coherent_witness :
  ∃ r wheel_circum,
    calculate_recommended_gear road_preset = Ok (Some r)
    ∧ calculate_gear_ratio (rec_chainring r) (rec_sprocket r) = Ok (rec_gear_ratio r)
    ∧ calculate_speed road_preset (Some (rec_gear_ratio r)) 90 = Ok (rec_actual_speed r)
    ∧ wheel_sizes !! "700x25C" = Some wheel_circum
    ∧ rec_development r = F64.mul (rec_gear_ratio r) wheel_circum
    ∧ 1 ≤ rec_chainring_idx r ≤ 2
    ∧ [50; 34] !! Z.to_nat (rec_chainring_idx r - 1) = Some (rec_chainring r)
    ∧ (∀ k : nat, (k < Z.to_nat (rec_chainring_idx r - 1))%nat →
         [50; 34] !! k ≠ Some (rec_chainring r))
    ∧ 1 ≤ rec_sprocket_idx r ≤ 7
    ∧ [14; 16; 18; 20; 22; 24; 28] !! Z.to_nat (rec_sprocket_idx r - 1) = Some (rec_sprocket r)
    ∧ (∀ k : nat, (k < Z.to_nat (rec_sprocket_idx r - 1))%nat →
         [14; 16; 18; 20; 22; 24; 28] !! k ≠ Some (rec_sprocket r)).
Proof.
  apply (recommendation_figures_coherent road_preset);
    [vm_compute; reflexivity | exact road_preset_bounded].
Defined.

(** X12: for a validated configuration and form inputs in range, the
    crossing flag that triggers the warning of the panel is set exactly
    when a reason was recorded in [crossing_message], and then the
    classifier reports a crossing, with that reason, for the recommended
    chainring and sprocket themselves, at indices where the
    configuration has them. *)
Theorem recommendation_warning_is_for_recommended_gear (self : NuSui) :
  validate_gear_configuration self = true → bounded_inputs self →
  ∃ r,
    calculate_recommended_gear self = Ok (Some r)
    ∧ (rec_crossing r = true ↔ is_Some (rec_crossing_message r))
    ∧ (rec_crossing r = true →
         ∃ i j, gear self i j (rec_chainring r) (rec_sprocket r)
                ∧ is_chain_crossing self i j = Ok (true, rec_crossing_message r)).
Proof.
  intros Hv Hb.
  destruct (recommendation_search self Hv Hb) as (r & p & Hr & _).
  exists r. split; [exact Hr|].
  destruct (recommendation_inv self r Hr)
    as (_ & _ & _ & _ & _ & [[Hf Hm]|(i & j & Hg & Hic)]).
  - rewrite Hf, Hm. split; [split; [discriminate|intros [? [=]]]|discriminate].
  - split; [exact (crossing_reason_iff _ _ _ _ _ Hic)|].
    intros Ht. exists i, j. split; [exact Hg|]. rewrite <- Ht. exact Hic.
Qed.

Lemma twin_chainrings_bounded : bounded_inputs twin_chainrings.
Proof.
  unfold bounded_inputs. split; [eexists; vm_compute; reflexivity|].
  repeat split; vm_compute; reflexivity.
Qed.

Lemma recommendation_warning_is_for_recommended_gear_witness :
  ∃ r,
    calculate_recommended_gear twin_chainrings = Ok (Some r)
    ∧ rec_crossing r = true
    ∧ (rec_crossing r = true ↔ is_Some (rec_crossing_message r))
    ∧ (rec_crossing r = true →
         ∃ i j, gear twin_chainrings i j (rec_chainring r) (rec_sprocket r)
                ∧ is_chain_crossing twin_chainrings i j = Ok (true, rec_crossing_message r)).
Proof.
  destruct (recommendation_warning_is_for_recommended_gear twin_chainrings)
    as (r & Hr & Hiff & Hgear);
    [vm_compute; reflexivity | exact twin_chainrings_bounded |].
  exists r. split; [exact Hr|]. split; [|split; assumption].
  vm_compute in Hr. injection Hr as <-. reflexivity.
Defined.

(** ** From a preset to a recommendation *)

Lemma select_bike_type_form (self : NuSui) (bike_type : BikeType) :
  cadencia_var (select_bike_type self bike_type) = cadencia_var self
  ∧ target_speed_var (select_bike_type self bike_type) = target_speed_var self
  ∧ slope_var (select_bike_type self bike_type) = slope_var self.
Proof.
  unfold select_bike_type.
  destruct (String.eqb (value bike_type) "custom"), (wheel_options (value bike_type));
    repeat split.
Qed.

Lemma offered_sizes_in_catalog (bike_value : string) (sizes : list string) (size : string) :
  wheel_option_sizes bike_value = Some sizes → size ∈ sizes →
  is_Some (wheel_sizes !! size).
Proof.
  intros Hs Hin.
  assert (Hall : ∀ l, forallb (λ s, bool_decide (is_Some (wheel_sizes !! s))) l = true →
                 size ∈ l → is_Some (wheel_sizes !! size)).
  { intros l Hl Hx. rewrite forallb_forall in Hl.
    eapply bool_decide_eq_true_1. apply Hl. apply list_elem_of_In. exact Hx. }
  unfold wheel_option_sizes in Hs.
  repeat match type of Hs with
  | (if ?b then _ else _) = _ => destruct b
  end; try discriminate; injection Hs as <-;
  (refine (Hall _ _ Hin); vm_compute; reflexivity).
Qed.

Lemma default_size_offered (bike_value default_size : string) (sizes : list string) :
  wheel_options bike_value = Some default_size →
  wheel_option_sizes bike_value = Some sizes →
  default_size ∈ sizes.
Proof.
  unfold wheel_options, wheel_option_sizes. intros Hd Hs.
  repeat match type of Hs with
  | (if ?b then _ else _) = _ => destruct b
  end; try discriminate; injection Hs as <-; injection Hd as <-;
  eapply bool_decide_eq_true_1; vm_compute; reflexivity.
Qed.

Lemma recommendation_without_warning (self : NuSui) :
  validate_gear_configuration self = true → bounded_inputs self →
  some_non_crossing self →
  ∃ r, calculate_recommended_gear self = Ok (Some r)
       ∧ rec_crossing r = false ∧ rec_crossing_message r = None.
Proof.
  intros Hv Hb Hsome.
  destruct (recommendation_search self Hv Hb)
    as (r & p & Hr & _ & _ & Ex & _ & _ & [_ Hcase] & _).
  exists r. split; [exact Hr|].
  destruct Hcase as [Hf|Hnone]; [|contradiction].
  assert (Hflag : rec_crossing r = false) by (rewrite Ex; exact (crossing_of_false self p Hf)).
  split; [exact Hflag|].
  destruct (recommendation_inv self r Hr)
    as (_ & _ & _ & _ & _ & [[_ Hm]|(i & j & _ & Hic)]); [exact Hm|].
  pose proof (crossing_reason_iff _ _ _ _ _ Hic) as Hiff.
  destruct (rec_crossing_message r) as [msg|]; [|reflexivity].
  rewrite Hflag in Hiff. discriminate (proj2 Hiff (mk_is_Some _ _ eq_refl)).
Qed.

(** X13: after one of the three preset bike types is selected, with the
    preselected wheel size or any other size the selection offers, the
    configuration passes validation and, for form inputs in range, the
    engine recommends a gear that does not cross the chain: the crossing
    flag is clear, so no warning is shown, and no reason is recorded. *)
Theorem preset_recommendation_never_crosses (self : NuSui) (bike_type : BikeType)
    (sizes : list string) (size : string) :
  bike_type ∈ bike_types → value bike_type ≠ "custom" →
  wheel_option_sizes (value bike_type) = Some sizes → size ∈ sizes →
  Z.abs (cadencia_var self) < 2 ^ 64 →
  below 64 (target_speed_var self) = true → below 64 (slope_var self) = true →
  wheel_size_var (select_bike_type self bike_type) ∈ sizes
  ∧ validate_gear_configuration (set_wheel_size (select_bike_type self bike_type) size) = true
  ∧ ∃ r,
      calculate_recommended_gear (set_wheel_size (select_bike_type self bike_type) size)
      = Ok (Some r)
      ∧ rec_crossing r = false ∧ rec_crossing_message r = None.
Proof.
  intros Hbt Hcustom Hsizes Hsize Hcad Htarget Hslope.
  pose proof (offered_sizes_in_catalog _ _ _ Hsizes Hsize) as Hwheel.
  destruct (select_bike_type_form self bike_type) as (Ec & Et & Es).
  set (self' := set_wheel_size (select_bike_type self bike_type) size).
  assert (Hteeth : (wheel_options (value bike_type) = Some (wheel_size_var (select_bike_type self bike_type)))
                   ∧ validate_gear_configuration self' = true
                   ∧ crossing_flag self' 0 0 = Ok false
                   ∧ gear self' 0 0 (default 0 (crankset_teeth self' !! 0%nat))
                                    (default 0 (cassette_teeth self' !! 0%nat))
                   ∧ num_sprockets self' < 2 ^ 63).
  { subst self'. unfold bike_types in Hbt.
    repeat (apply elem_of_cons in Hbt as [->|Hbt]);
      [| | |exfalso; apply Hcustom; reflexivity|apply elem_of_nil in Hbt; destruct Hbt];
      (split; [reflexivity|]); (split; [vm_compute; reflexivity|]);
      (split; [vm_compute; reflexivity|]); (split; [|vm_compute; reflexivity]);
      unfold gear; apply elem_of_gear_pairs;
      split; apply elem_of_enumerate; exists 0%nat; split; reflexivity. }
  destruct Hteeth as (Hdefault & Hv & Hflag & Hgear & Hn).
  split; [exact (default_size_offered _ _ _ Hdefault Hsizes)|].
  split; [exact Hv|].
  apply recommendation_without_warning; [exact Hv| |].
  - unfold bounded_inputs. subst self'. cbn [set_wheel_size wheel_size_var cadencia_var
      target_speed_var slope_var]. rewrite Ec, Et, Es. auto.
  - eexists 0, 0, _, _. split; [exact Hgear|exact Hflag].
Qed.

Lemma preset_recommendation_never_crosses_witness :
  ∃ r,
    calculate_recommended_gear
      (set_wheel_size
         (select_bike_type custom_selected
            {| name := "Urban/Commuter"; value := "urban"; chainrings := [24; 34; 42];
               sprockets := [14; 16; 18; 20; 22; 24; 28] |}) "26x1.75")
    = Ok (Some r)
    ∧ rec_crossing r = false ∧ rec_crossing_message r = None.
Proof.
  apply (preset_recommendation_never_crosses custom_selected
           {| name := "Urban/Commuter"; value := "urban"; chainrings := [24; 34; 42];
              sprockets := [14; 16; 18; 20; 22; 24; 28] |}
           ["700x35C"; "700x38C"; "700x40C"; "26x1.75"] "26x1.75").
  - unfold bike_types. do 2 right. left.
  - discriminate.
  - reflexivity.
  - do 3 right. left.
  - vm_compute. reflexivity.
  - vm_compute. reflexivity.
  - vm_compute. reflexivity.
Defined.

(** ** When the engine falls back to a crossing gear *)

(** X14: for a validated configuration of up to 64 sprockets and form inputs
    in range, the recommended gear is a crossing exactly when the
    configuration has a single sprocket with two or more chainrings, or
    two sprockets with two or three chainrings; with three sprockets or
    more the recommendation never crosses the chain. *)
Theorem recommendation_crosses_iff_few_sprockets (self : NuSui) :
  validate_gear_configuration self = true → bounded_inputs self →
  num_sprockets self ≤ 64 →
  ∃ r,
    calculate_recommended_gear self = Ok (Some r)
    ∧ (rec_crossing r = true
       ↔ (2 ≤ num_chainrings self ∧ num_sprockets self = 1)
         ∨ ((num_chainrings self = 2 ∨ num_chainrings self = 3) ∧ num_sprockets self = 2)).
Proof.
  intros Hv Hb Hn.
  destruct (validated_teeth self Hv) as (Hc & Hs & _ & _).
  destruct (recommendation_search self Hv Hb)
    as (r & p & Hr & _ & _ & Ex & _ & _ & [Hg Hcase] & _).
  exists r. split; [exact Hr|].
  assert (Hlen : 1 ≤ num_chainrings self ∧ 1 ≤ num_sprockets self).
  { unfold num_chainrings, num_sprockets.
    destruct (crankset_teeth self), (cassette_teeth self); try contradiction; cbn; lia. }
  pose proof (crossing_flag_of self p ltac:(lia)) as Hflag.
  split.
  - intros Htrue.
    destruct (Z.eq_dec (num_sprockets self) 1) as [E1|E1];
      [destruct (Z.le_gt_cases 2 (num_chainrings self)); [left; lia|]|];
      [|destruct (Z.eq_dec (num_sprockets self) 2) as [E2|E2];
        [destruct (Z.eq_dec (num_chainrings self) 2); [right; lia|];
         destruct (Z.eq_dec (num_chainrings self) 3); [right; lia|]|]];
      exfalso;
      (assert (H00 : crossing_flag self 0 0 = Ok false) by (apply first_gear_usable; lia));
      (assert (Hsome : some_non_crossing self);
       [destruct (crankset_teeth self) as [|c0 ?] eqn:Ecr; [contradiction|];
        destruct (cassette_teeth self) as [|s0 ?] eqn:Ecs; [contradiction|];
        exists 0, 0, c0, s0; split; [|exact H00];
        unfold gear; apply elem_of_gear_pairs; rewrite Ecr, Ecs;
        split; apply elem_of_enumerate; exists 0%nat; split; reflexivity|]);
      (destruct Hcase as [Hf|Hnone]; [|contradiction]);
      rewrite Ex, (crossing_of_false self p Hf) in Htrue; discriminate.
  - intros Hshape. rewrite Ex.
    destruct p as [[i c] [j s]]. cbn [fst snd] in Hflag.
    rewrite (all_gears_cross self i j c s Hshape Hg) in Hflag.
    injection Hflag as <-. reflexivity.
Qed.

Lemma recommendation_crosses_iff_few_sprockets_witness :
  (∃ r, calculate_recommended_gear twin_chainrings = Ok (Some r) ∧ rec_crossing r = true)
  ∧ (∃ r, calculate_recommended_gear road_preset = Ok (Some r) ∧ rec_crossing r = false).
Proof.
  split.
  - destruct (recommendation_crosses_iff_few_sprockets twin_chainrings) as (r & Hr & Hiff);
      [vm_compute; reflexivity | exact twin_chainrings_bounded | vm_compute; discriminate |].
    exists r. split; [exact Hr|]. apply Hiff. left. split; [discriminate|reflexivity].
  - destruct (recommendation_crosses_iff_few_sprockets road_preset) as (r & Hr & Hiff);
      [vm_compute; reflexivity | exact road_preset_bounded | vm_compute; discriminate |].
    exists r. split; [exact Hr|].
    destruct (rec_crossing r); [|reflexivity].
    destruct (proj1 Hiff eq_refl) as [[_ H]|[_ H]]; vm_compute in H; discriminate.
Defined.

(** ** Saving a manual configuration *)

Lemma py_sort_sorted (l : list Z) : ascending l → py_sort l = l.
Proof.
  intros Hs. apply (Sorted_unique Z.le); [apply py_sort_ascending|exact Hs|apply py_sort_perm].
Qed.

Lemma py_sort_reverse_sorted (l : list Z) : descending l → py_sort_reverse l = l.
Proof.
  intros Hs.
  assert (AntiSymm (=) (flip Z.le)) by (intros x y; unfold flip; lia).
  assert (Transitive (flip Z.le)) by (intros x y z; unfold flip; lia).
  apply (Sorted_unique (flip Z.le));
    [apply py_sort_reverse_descending|exact Hs|apply py_sort_reverse_perm].
Qed.

Lemma perm_nonempty (l l' : list Z) : l ≡ₚ l' → l' ≠ [] → l ≠ [].
Proof. intros Hp Hne ->. apply Permutation_nil_l in Hp. auto. Qed.

(** X15: saving is idempotent: saving again the lists that a save left in
    the configuration (what the dialog shows when it is reopened)
    changes nothing and gives the same outcome, also when the first save
    was refused. *)
Theorem save_custom_gears_idempotent (self : NuSui) (platos pinones : list Z) :
  save_custom_gears (save_custom_gears self platos pinones).1
    (crankset_teeth (save_custom_gears self platos pinones).1)
    (cassette_teeth (save_custom_gears self platos pinones).1)
  = save_custom_gears self platos pinones.
Proof.
  destruct (decide (platos = [])) as [Hp|Hp]; [|destruct (decide (pinones = [])) as [Hq|Hq]].
  - subst platos. reflexivity.
  - subst pinones. unfold save_custom_gears.
    cbn [set_teeth crankset_teeth cassette_teeth].
    rewrite (bool_decide_eq_true_2 ([] = [])) by reflexivity.
    rewrite orb_true_r. cbn [fst set_teeth crankset_teeth cassette_teeth].
    rewrite (bool_decide_eq_true_2 ([] = [])) by reflexivity.
    rewrite orb_true_r. reflexivity.
  - rewrite (save_custom_gears_teeth self platos pinones Hp Hq). cbn [fst].
    cbn [set_teeth crankset_teeth cassette_teeth].
    rewrite save_custom_gears_teeth.
    + rewrite (py_sort_reverse_sorted _ (py_sort_reverse_descending platos)),
              (py_sort_sorted _ (py_sort_ascending pinones)).
      reflexivity.
    + exact (perm_nonempty _ _ (py_sort_reverse_perm platos) Hp).
    + exact (perm_nonempty _ _ (py_sort_perm pinones) Hq).
Qed.

Lemma forallb_perm {A : Type} (f : A → bool) (l l' : list A) :
  l ≡ₚ l' → forallb f l = forallb f l'.
Proof.
  induction 1 as [|x l l' _ IH|x y l|l l' l'' _ IH1 _ IH2]; cbn.
  - reflexivity.
  - rewrite IH. reflexivity.
  - destruct (f x), (f y); reflexivity.
  - congruence.
Qed.

Lemma saved_validates_iff (self : NuSui) (platos pinones : list Z) :
  validate_gear_configuration (save_custom_gears self platos pinones).1 = true
  ↔ platos ≠ [] ∧ pinones ≠ []
    ∧ ∀ teeth, teeth ∈ platos ++ pinones → MIN_TEETH ≤ teeth ≤ MAX_TEETH.
Proof.
  destruct (decide (platos = [])) as [Hp|Hp]; [|destruct (decide (pinones = [])) as [Hq|Hq]].
  - subst platos. split; [discriminate|intros [H _]; contradiction].
  - subst pinones. unfold save_custom_gears, validate_gear_configuration.
    cbn [set_teeth crankset_teeth cassette_teeth].
    rewrite (bool_decide_eq_true_2 ([] = [])) by reflexivity.
    rewrite orb_true_r. cbn [fst snd set_teeth crankset_teeth cassette_teeth].
    rewrite (bool_decide_eq_true_2 ([] = [])) by reflexivity.
    rewrite orb_true_r.
    split; [discriminate|intros (_ & H & _); contradiction].
  - rewrite (save_custom_gears_teeth self platos pinones Hp Hq). cbn [fst snd].
    unfold validate_gear_configuration. cbn [set_teeth crankset_teeth cassette_teeth].
    rewrite !bool_decide_eq_false_2
      by eauto using perm_nonempty, py_sort_reverse_perm, py_sort_perm.
    cbn [orb].
    rewrite (forallb_perm _ (py_sort_reverse platos ++ py_sort pinones) (platos ++ pinones))
      by (rewrite py_sort_reverse_perm, py_sort_perm; reflexivity).
    rewrite forallb_forall. split.
    + intros H. split; [exact Hp|]. split; [exact Hq|]. intros teeth Hin.
      apply list_elem_of_In in Hin. apply H in Hin. unfold MIN_TEETH, MAX_TEETH in *. lia.
    + intros (_ & _ & H) teeth Hin. apply list_elem_of_In in Hin. apply H in Hin.
      unfold MIN_TEETH, MAX_TEETH in *. lia.
Qed.

(** X16: a save succeeds exactly when both entries are non-empty, whatever
    the tooth counts; the saved configuration then passes validation
    exactly when every entered tooth count lies between [MIN_TEETH] and
    [MAX_TEETH].  So out-of-range counts are saved with the success
    message and are rejected only by the later validation. *)
Theorem saved_configuration_validates_iff (self : NuSui) (platos pinones : list Z) :
  ((save_custom_gears self platos pinones).2 = true ↔ platos ≠ [] ∧ pinones ≠ [])
  ∧ (validate_gear_configuration (save_custom_gears self platos pinones).1 = true
     ↔ platos ≠ [] ∧ pinones ≠ []
       ∧ ∀ teeth, teeth ∈ platos ++ pinones → MIN_TEETH ≤ teeth ≤ MAX_TEETH).
Proof.
  split; [|apply saved_validates_iff].
  unfold save_custom_gears. cbn [set_teeth crankset_teeth cassette_teeth].
  destruct (decide (platos = [])) as [->|Hp];
    [split; [discriminate|intros [H _]; contradiction]|].
  destruct (decide (pinones = [])) as [->|Hq].
  - rewrite (bool_decide_eq_true_2 ([] = [])) by reflexivity. rewrite orb_true_r.
    split; [discriminate|intros [_ H]; contradiction].
  - rewrite !bool_decide_eq_false_2 by assumption. split; auto.
Qed.

(** ** Gear table *)

Lemma count_hidden_app (l1 l2 : list table_cell) :
  count_hidden (l1 ++ l2) = count_hidden l1 + count_hidden l2.
Proof. induction l1 as [|[|v] l1 IH]; cbn [app count_hidden]; lia. Qed.

Lemma count_hidden_bound (l : list table_cell) : 0 ≤ count_hidden l ≤ Z.of_nat (length l).
Proof. induction l as [|[|v] l IH]; cbn [count_hidden length]; lia. Qed.

Lemma gear_table_cell_eq (self : NuSui) (cadence i chainring j sprocket : Z)
    (acc : list table_cell * Z) (crossing : bool) (msg : option string) :
  is_chain_crossing self i j = Ok (crossing, msg) →
  gear_table_cell self cadence i chainring acc (j, sprocket)
  = if crossing then Ok (acc.1 ++ [Hidden], acc.2 + 1)
    else v ← require_float
               (handle_errors
                  (calculate_speed self
                     (handle_errors (calculate_gear_ratio chainring sprocket)) cadence));
         Ok (acc.1 ++ [Shown v], acc.2).
Proof. intros H. unfold gear_table_cell. rewrite H. reflexivity. Qed.

Lemma gear_table_row_eq (self : NuSui) (cadence i chainring : Z)
    (acc : list (Z * list table_cell) * Z) :
  gear_table_row self cadence acc (i, chainring)
  = row ← for_each (gear_table_cell self cadence i chainring)
                   (enumerate (cassette_teeth self)) ([], acc.2);
    Ok (acc.1 ++ [(chainring, row.1)], row.2).
Proof. reflexivity. Qed.

Lemma gear_table_cells_filled (self : NuSui) (cadence i chainring : Z)
    (sprockets : list (Z * Z)) (acc : list table_cell * Z) :
  is_Some (wheel_sizes !! wheel_size_var self) → Z.abs cadence < 2 ^ 64 →
  num_sprockets self < 2 ^ 63 →
  MIN_TEETH ≤ chainring ≤ MAX_TEETH →
  (∀ js, js ∈ sprockets → MIN_TEETH ≤ js.2 ≤ MAX_TEETH) →
  ∃ cells,
    for_each (gear_table_cell self cadence i chainring) sprockets acc
    = Ok (acc.1 ++ cells, acc.2 + count_hidden cells)
    ∧ Forall2 (cell_agrees self cadence (i, chainring)) sprockets cells.
Proof.
  intros Hw Hcad Hn Hc. revert acc.
  induction sprockets as [|[j s] l IH]; intros acc Hs.
  - exists []. cbn [for_each count_hidden]. rewrite app_nil_r, Z.add_0_r.
    destruct acc; split; [reflexivity|constructor].
  - pose proof (Hs (j, s) ltac:(left)) as Hjs. cbn [snd] in Hjs.
    unfold MIN_TEETH, MAX_TEETH in Hc, Hjs.
    destruct (calculate_gear_ratio_below chainring s ltac:(lia) ltac:(lia)) as (g & Eg & Hg).
    destruct (calculate_speed_below self g cadence Hw Hcad Hg) as (v & Ev & _).
    destruct (is_chain_crossing_total self i j Hn) as (crossing & msg & Ec).
    cbn [for_each]. rewrite (gear_table_cell_eq self cadence i chainring j s acc _ _ Ec).
    rewrite Eg. cbn [handle_errors]. rewrite Ev. cbn [handle_errors].
    destruct crossing; cbn [require_float mbind result_bind].
    + destruct (IH (acc.1 ++ [Hidden], acc.2 + 1)) as (cells & -> & Hall);
        [intros js Hin; apply Hs; right; exact Hin|].
      exists (Hidden :: cells). cbn [fst snd count_hidden].
      rewrite <- app_assoc. split; [do 2 f_equal; lia|].
      constructor; [|exact Hall]. cbn [cell_agrees fst]. unfold crossing_flag. rewrite Ec.
      reflexivity.
    + destruct (IH (acc.1 ++ [Shown v], acc.2)) as (cells & -> & Hall);
        [intros js Hin; apply Hs; right; exact Hin|].
      exists (Shown v :: cells). cbn [fst snd count_hidden].
      rewrite <- app_assoc. split; [reflexivity|].
      constructor; [|exact Hall]. cbn [cell_agrees fst snd]. unfold crossing_flag. rewrite Ec.
      split; [reflexivity|]. exists g. split; assumption.
Qed.

Lemma gear_table_rows_filled (self : NuSui) (cadence : Z)
    (chainrings : list (Z * Z)) (acc : list (Z * list table_cell) * Z) :
  is_Some (wheel_sizes !! wheel_size_var self) → Z.abs cadence < 2 ^ 64 →
  num_sprockets self < 2 ^ 63 →
  (∀ ic, ic ∈ chainrings → MIN_TEETH ≤ ic.2 ≤ MAX_TEETH) →
  (∀ teeth, teeth ∈ cassette_teeth self → MIN_TEETH ≤ teeth ≤ MAX_TEETH) →
  ∃ rows,
    for_each (gear_table_row self cadence) chainrings acc
    = Ok (acc.1 ++ rows, acc.2 + count_hidden (mjoin (rows.*2)))
    ∧ Forall2 (row_agrees self cadence) chainrings rows.
Proof.
  intros Hw Hcad Hn Hc Hs. revert acc Hc.
  induction chainrings as [|[i c] l IH]; intros acc Hc.
  - exists []. cbn. rewrite app_nil_r, Z.add_0_r. destruct acc; split; [reflexivity|constructor].
  - cbn [for_each]. rewrite gear_table_row_eq.
    destruct (gear_table_cells_filled self cadence i c (enumerate (cassette_teeth self))
                ([], acc.2) Hw Hcad Hn) as (cells & -> & Hcells).
    { exact (Hc (i, c) ltac:(left)). }
    { intros js Hin. apply Hs. exact (enumerate_teeth _ _ Hin). }
    cbn [fst snd mbind result_bind app].
    destruct (IH (acc.1 ++ [(c, cells)], acc.2 + count_hidden cells)) as (rows & -> & Hrows);
      [intros ic Hin; apply Hc; right; exact Hin|].
    exists ((c, cells) :: rows). cbn [fst snd].
    rewrite <- app_assoc. split.
    + cbn [fmap list_fmap mjoin list_join snd]. rewrite count_hidden_app.
      rewrite Z.add_assoc. reflexivity.
    + constructor; [|exact Hrows]. split; [reflexivity|exact Hcells].
Qed.

(** X17: for a validated configuration, a wheel size of the catalog and a
    cadence below [2^64] in magnitude, the table is produced with one
    row per chainring, labelled with its tooth count, and one cell per
    sprocket: the cell is hidden exactly when the classifier reports a
    crossing for the pair, and otherwise holds the speed of that gear at
    the given cadence. *)
Theorem gear_table_cells_agree (self : NuSui) (cadence : Z) :
  validate_gear_configuration self = true →
  is_Some (wheel_sizes !! wheel_size_var self) → Z.abs cadence < 2 ^ 64 →
  num_sprockets self < 2 ^ 63 →
  ∃ table,
    create_gear_table self cadence = Ok table
    ∧ Forall2 (row_agrees self cadence) (enumerate (crankset_teeth self)) (table_rows table).
Proof.
  intros Hv Hw Hcad Hn.
  destruct (validated_teeth self Hv) as (_ & _ & Hc & Hs).
  destruct (gear_table_rows_filled self cadence (enumerate (crankset_teeth self)) ([], 0)
              Hw Hcad Hn) as (rows & Hrows & Hall); [|exact Hs|].
  { intros ic Hin. apply Hc. exact (enumerate_teeth _ _ Hin). }
  unfold create_gear_table. rewrite Hrows. unfold wheel_circumference.
  destruct Hw as [w ->]. cbn [mbind result_bind fst snd app].
  eexists. split; [reflexivity|]. exact Hall.
Qed.

Lemma gear_table_cells_agree_witness :
  ∃ table,
    create_gear_table road_preset 90 = Ok table
    ∧ Forall2 (row_agrees road_preset 90) [(0, 50); (1, 34)] (table_rows table).
Proof.
  apply (gear_table_cells_agree road_preset 90);
    [vm_compute; reflexivity | eexists; vm_compute; reflexivity | reflexivity
     | vm_compute; reflexivity].
Defined.

Lemma Forall2_cells_length (self : NuSui) (cadence : Z) (chainrings : list (Z * Z))
    (rows : list (Z * list table_cell)) :
  Forall2 (row_agrees self cadence) chainrings rows →
  length (mjoin (rows.*2)) = (length chainrings * length (cassette_teeth self))%nat.
Proof.
  induction 1 as [|ic row l rows [_ Hrow] _ IH]; [reflexivity|].
  change (mjoin (((row :: rows).*2))) with (row.2 ++ mjoin (rows.*2)).
  cbn [length]. rewrite length_app, IH.
  apply Forall2_length in Hrow. rewrite <- Hrow. unfold enumerate. rewrite length_imap.
  reflexivity.
Qed.

(** X18: under the same conditions the two numbers of the warning are the
    number of hidden cells of the table and the number of all its
    cells, so the first never exceeds the second. *)
Theorem gear_table_warning_counts (self : NuSui) (cadence : Z) :
  validate_gear_configuration self = true →
  is_Some (wheel_sizes !! wheel_size_var self) → Z.abs cadence < 2 ^ 64 →
  num_sprockets self < 2 ^ 63 →
  ∃ table,
    create_gear_table self cadence = Ok table
    ∧ crossing_count table = count_hidden (mjoin ((table_rows table).*2))
    ∧ total_combinations table = Z.of_nat (length (mjoin ((table_rows table).*2)))
    ∧ 0 ≤ crossing_count table ≤ total_combinations table.
Proof.
  intros Hv Hw Hcad Hn.
  destruct (validated_teeth self Hv) as (_ & _ & Hc & Hs).
  destruct (gear_table_rows_filled self cadence (enumerate (crankset_teeth self)) ([], 0)
              Hw Hcad Hn) as (rows & Hrows & Hall); [|exact Hs|].
  { intros ic Hin. apply Hc. exact (enumerate_teeth _ _ Hin). }
  unfold create_gear_table. rewrite Hrows. unfold wheel_circumference.
  destruct Hw as [w ->]. cbn [mbind result_bind fst snd app].
  eexists. split; [reflexivity|].
  cbn [crossing_count total_combinations table_rows].
  pose proof (Forall2_cells_length _ _ _ _ Hall) as Hlen.
  unfold enumerate in Hlen. rewrite length_imap in Hlen.
  pose proof (count_hidden_bound (mjoin (rows.*2))) as Hb.
  unfold num_chainrings, num_sprockets. rewrite Hlen.
  split; [lia|]. split; lia.
Qed.

Lemma gear_table_warning_counts_witness :
  ∃ table,
    create_gear_table road_preset 90 = Ok table
    ∧ crossing_count table = count_hidden (mjoin ((table_rows table).*2))
    ∧ total_combinations table = Z.of_nat (length (mjoin ((table_rows table).*2)))
    ∧ 0 ≤ crossing_count table ≤ total_combinations table.
Proof.
  apply (gear_table_warning_counts road_preset 90);
    [vm_compute; reflexivity | eexists; vm_compute; reflexivity | reflexivity
     | vm_compute; reflexivity].
Defined.

(** *** The table with a wheel size that the catalog does not have *)

Lemma gear_table_cells_unknown_wheel (self : NuSui) (cadence i chainring : Z)
    (sprockets : list (Z * Z)) (acc : list table_cell * Z) :
  wheel_sizes !! wheel_size_var self = None → num_sprockets self < 2 ^ 63 →
  (for_each (gear_table_cell self cadence i chainring) sprockets acc = Raise TypeError
   ∧ ∃ js, js ∈ sprockets ∧ crossing_flag self i js.1 = Ok false)
  ∨ ((∃ acc', for_each (gear_table_cell self cadence i chainring) sprockets acc = Ok acc')
     ∧ ∀ js, js ∈ sprockets → crossing_flag self i js.1 = Ok true).
Proof.
  intros Hw Hn. revert acc. induction sprockets as [|[j s] l IH]; intros acc.
  - right. split; [eexists; reflexivity|]. intros js Hin. apply elem_of_nil in Hin. destruct Hin.
  - destruct (is_chain_crossing_total self i j Hn) as (crossing & msg & Ec).
    assert (Ef : crossing_flag self i j = Ok crossing) by (unfold crossing_flag; rewrite Ec; reflexivity).
    cbn [for_each]. rewrite (gear_table_cell_eq self cadence i chainring j s acc _ _ Ec).
    destruct crossing.
    + cbn [mbind result_bind].
      destruct (IH (acc.1 ++ [Hidden], acc.2 + 1)) as [[E (js & Hin & Hjs)]|[E Hall]].
      * left. split; [exact E|]. exists js. split; [right; exact Hin|exact Hjs].
      * right. split; [exact E|]. intros js Hin.
        apply elem_of_cons in Hin as [->|Hin]; [exact Ef|exact (Hall js Hin)].
    + left. split.
      * unfold calculate_speed, wheel_circumference. rewrite Hw. reflexivity.
      * exists (j, s). split; [left|exact Ef].
Qed.

Lemma gear_table_rows_unknown_wheel (self : NuSui) (cadence : Z)
    (chainrings : list (Z * Z)) (acc : list (Z * list table_cell) * Z) :
  wheel_sizes !! wheel_size_var self = None → num_sprockets self < 2 ^ 63 →
  (for_each (gear_table_row self cadence) chainrings acc = Raise TypeError
   ∧ ∃ ic js, ic ∈ chainrings ∧ js ∈ enumerate (cassette_teeth self)
              ∧ crossing_flag self ic.1 js.1 = Ok false)
  ∨ ((∃ acc', for_each (gear_table_row self cadence) chainrings acc = Ok acc')
     ∧ ∀ ic js, ic ∈ chainrings → js ∈ enumerate (cassette_teeth self) →
         crossing_flag self ic.1 js.1 = Ok true).
Proof.
  intros Hw Hn. revert acc. induction chainrings as [|[i c] l IH]; intros acc.
  - right. split; [eexists; reflexivity|]. intros ic js Hin. apply elem_of_nil in Hin.
    destruct Hin.
  - cbn [for_each]. rewrite gear_table_row_eq.
    destruct (gear_table_cells_unknown_wheel self cadence i c (enumerate (cassette_teeth self))
                ([], acc.2) Hw Hn) as [[E (js & Hin & Hjs)]|[[row E] Hall]]; rewrite E.
    + left. split; [reflexivity|]. exists (i, c), js. split; [left|]. split; assumption.
    + cbn [mbind result_bind].
      destruct (IH (acc.1 ++ [(c, row.1)], row.2)) as [[E' (ic & js & Hic & Hin & Hjs)]|[E' Hall']].
      * left. split; [exact E'|]. exists ic, js. split; [right; exact Hic|]. split; assumption.
      * right. split; [exact E'|]. intros ic js Hic Hin.
        apply elem_of_cons in Hic as [->|Hic]; [exact (Hall js Hin)|exact (Hall' ic js Hic Hin)].
Qed.

(** X19: with a wheel size that the catalog does not have, the table is
    never produced: the first gear that is not a crossing fails with a
    [TypeError] when its missing speed is formatted, and when every gear
    is a crossing (or there is none) the legend fails with the
    [KeyError] of the wheel size. *)
Theorem gear_table_unknown_wheel_raises (self : NuSui) (cadence : Z) :
  wheel_sizes !! wheel_size_var self = None → num_sprockets self < 2 ^ 63 →
  (some_non_crossing self → create_gear_table self cadence = Raise TypeError)
  ∧ (¬ some_non_crossing self →
       create_gear_table self cadence = Raise (KeyError (wheel_size_var self))).
Proof.
  intros Hw Hn. unfold create_gear_table.
  destruct (gear_table_rows_unknown_wheel self cadence (enumerate (crankset_teeth self))
              ([], 0) Hw Hn) as [[E (ic & js & Hic & Hjs & Hf)]|[[filled E] Hall]]; rewrite E.
  - split; [reflexivity|]. intros Hnone. exfalso. apply Hnone.
    exists ic.1, js.1, ic.2, js.2. split; [|exact Hf].
    unfold gear. apply elem_of_gear_pairs. destruct ic, js. split; assumption.
  - split.
    + intros (i & j & c & s & Hg & Hf). apply elem_of_gear_pairs in Hg as [Hi Hj].
      pose proof (Hall _ _ Hi Hj) as Ht. cbn [fst snd] in Ht. congruence.
    + intros _. cbn [mbind result_bind]. unfold wheel_circumference. rewrite Hw. reflexivity.
Qed.

Lemma gear_table_unknown_wheel_raises_witness :
  create_gear_table unknown_wheel 90 = Raise TypeError
  ∧ create_gear_table (set_wheel_size twin_chainrings "28x1.5") 80 = Raise (KeyError "28x1.5").
Proof.
  split.
  - apply (gear_table_unknown_wheel_raises unknown_wheel 90);
      [vm_compute; reflexivity | vm_compute; reflexivity |].
    exists 0, 0, 50, 14. split; [|vm_compute; reflexivity].
    unfold gear. apply elem_of_gear_pairs. split; apply elem_of_enumerate; exists 0%nat; auto.
  - apply (gear_table_unknown_wheel_raises (set_wheel_size twin_chainrings "28x1.5") 80);
      [vm_compute; reflexivity | vm_compute; reflexivity |].
    intros (i & j & c & s & Hg & Hf).
    rewrite (all_gears_cross _ i j c s) in Hf; [discriminate| |exact Hg].
    left. split; [discriminate|reflexivity].
Defined.

(** ** Overlap analysis *)

Lemma overlap_row_filled (self : NuSui) (ic : Z * Z) (sprockets : list (Z * Z))
    (row : list float * list bool) :
  num_sprockets self < 2 ^ 63 →
  MIN_TEETH ≤ ic.2 ≤ MAX_TEETH →
  (∀ js, js ∈ sprockets → MIN_TEETH ≤ js.2 ≤ MAX_TEETH) →
  for_each
    (λ (row : list float * list bool) (js : Z * Z),
       gear_ratio ← require_float (handle_errors (calculate_gear_ratio (snd ic) (snd js)));
       '(crossing, _) ← is_chain_crossing self (fst ic) (fst js);
       Ok (fst row ++ [gear_ratio], snd row ++ [crossing]))
    sprockets row
  = Ok (row.1 ++ ((λ js : Z * Z, ratio_of ic.2 js.2) <$> sprockets),
        row.2 ++ ((λ js : Z * Z, crossing_of self (ic, js)) <$> sprockets)).
Proof.
  intros Hn Hc. revert row. induction sprockets as [|js l IH]; intros row Hs.
  - cbn [for_each fmap list_fmap]. rewrite !app_nil_r. destruct row; reflexivity.
  - cbn [for_each].
    rewrite (ratio_of_Ok ic.2 js.2 Hc (Hs js ltac:(left))).
    destruct (crossing_of_spec self (ic, js) Hn) as [msg Hcr]. cbn [fst snd] in Hcr.
    cbn [handle_errors require_float mbind result_bind]. rewrite Hcr.
    cbn [mbind result_bind]. rewrite IH by (intros x Hx; apply Hs; right; exact Hx).
    cbn [fst snd fmap list_fmap]. rewrite <- !app_assoc. reflexivity.
Qed.

Lemma overlap_rows_filled (self : NuSui) (chainrings : list (Z * Z))
    (acc : list (list float) * list (list bool)) :
  num_sprockets self < 2 ^ 63 →
  (∀ ic, ic ∈ chainrings → MIN_TEETH ≤ ic.2 ≤ MAX_TEETH) →
  (∀ js, js ∈ enumerate (cassette_teeth self) → MIN_TEETH ≤ js.2 ≤ MAX_TEETH) →
  for_each
    (λ (acc : list (list float) * list (list bool)) (ic : Z * Z),
       row ← for_each
               (λ (row : list float * list bool) (js : Z * Z),
                  gear_ratio ← require_float
                    (handle_errors (calculate_gear_ratio (snd ic) (snd js)));
                  '(crossing, _) ← is_chain_crossing self (fst ic) (fst js);
                  Ok (fst row ++ [gear_ratio], snd row ++ [crossing]))
               (enumerate (cassette_teeth self)) ([], []);
       Ok (fst acc ++ [fst row], snd acc ++ [snd row]))
    chainrings acc
  = Ok (acc.1 ++ ((λ ic : Z * Z, (λ js : Z * Z, ratio_of ic.2 js.2)
                                   <$> enumerate (cassette_teeth self)) <$> chainrings),
        acc.2 ++ ((λ ic : Z * Z, (λ js : Z * Z, crossing_of self (ic, js))
                                   <$> enumerate (cassette_teeth self)) <$> chainrings)).
Proof.
  intros Hn Hc Hs. revert acc. induction chainrings as [|ic l IH]; intros acc.
  - cbn [for_each fmap list_fmap]. rewrite !app_nil_r. destruct acc; reflexivity.
  - cbn [for_each].
    rewrite (overlap_row_filled self ic _ ([], []) Hn (Hc ic ltac:(left)) Hs).
    cbn [mbind result_bind fst snd app].
    rewrite IH by (intros x Hx; apply Hc; right; exact Hx).
    cbn [fst snd fmap list_fmap]. rewrite <- !app_assoc. reflexivity.
Qed.

Lemma overlap_tab_data_eq (self : NuSui) :
  validate_gear_configuration self = true → num_sprockets self < 2 ^ 63 →
  overlap_tab_data self = Ok (ratio_rows self, crossing_rows self).
Proof.
  intros Hv Hn. destruct (validated_teeth self Hv) as (_ & _ & Hc & Hs).
  unfold overlap_tab_data. rewrite overlap_rows_filled; [reflexivity|exact Hn| |].
  - intros ic Hin. apply Hc. exact (enumerate_teeth _ _ Hin).
  - intros js Hin. apply Hs. exact (enumerate_teeth _ _ Hin).
Qed.

(** X20: for a validated configuration the overlap tab hands to the analysis
    one row of ratios and one row of crossing flags per chainring, with
    one entry per sprocket: the ratio of the pair as
    [calculate_gear_ratio] returns it, and the flag that the classifier
    returns for its indices. *)
Theorem overlap_data_agree (self : NuSui) :
  validate_gear_configuration self = true → num_sprockets self < 2 ^ 63 →
  ∃ all_ratios crosses,
    overlap_tab_data self = Ok (all_ratios, crosses)
    ∧ Forall2 (λ ic ratios,
                 Forall2 (λ js r, calculate_gear_ratio ic.2 js.2 = Ok r)
                         (enumerate (cassette_teeth self)) ratios)
              (enumerate (crankset_teeth self)) all_ratios
    ∧ Forall2 (λ ic flags,
                 Forall2 (λ js b, crossing_flag self ic.1 js.1 = Ok b)
                         (enumerate (cassette_teeth self)) flags)
              (enumerate (crankset_teeth self)) crosses.
Proof.
  intros Hv Hn. destruct (validated_teeth self Hv) as (_ & _ & Hc & Hs).
  exists (ratio_rows self), (crossing_rows self).
  split; [exact (overlap_tab_data_eq self Hv Hn)|].
  unfold ratio_rows, crossing_rows. split.
  - apply Forall2_fmap_r, Forall_Forall2_diag, Forall_forall. intros ic Hic.
    apply Forall2_fmap_r, Forall_Forall2_diag, Forall_forall. intros js Hjs.
    apply ratio_of_Ok; [apply Hc|apply Hs]; eapply enumerate_teeth; eassumption.
  - apply Forall2_fmap_r, Forall_Forall2_diag, Forall_forall. intros ic Hic.
    apply Forall2_fmap_r, Forall_Forall2_diag, Forall_forall. intros js Hjs.
    exact (crossing_flag_of self (ic, js) Hn).
Qed.

Lemma overlap_data_agree_witness :
  ∃ all_ratios crosses,
    overlap_tab_data road_preset = Ok (all_ratios, crosses)
    ∧ Forall2 (λ ic ratios,
                 Forall2 (λ js r, calculate_gear_ratio ic.2 js.2 = Ok r)
                         (enumerate (cassette_teeth road_preset)) ratios)
              (enumerate (crankset_teeth road_preset)) all_ratios
    ∧ Forall2 (λ ic flags,
                 Forall2 (λ js b, crossing_flag road_preset ic.1 js.1 = Ok b)
                         (enumerate (cassette_teeth road_preset)) flags)
              (enumerate (crankset_teeth road_preset)) crosses.
Proof.
  apply (overlap_data_agree road_preset); vm_compute; reflexivity.
Defined.

(** X21: with a single chainring the overlap panel only says that two
    chainrings are needed. *)
Theorem overlap_single_chainring (self : NuSui) :
  validate_gear_configuration self = true → num_sprockets self < 2 ^ 63 →
  length (crankset_teeth self) = 1%nat →
  overlap_tab_text self = Ok (Some [NeedTwoChainrings]).
Proof.
  intros Hv Hn H1. unfold overlap_tab_text.
  rewrite (overlap_tab_data_eq self Hv Hn). cbn [mbind result_bind fst snd].
  unfold calculate_overlap_analysis, ratio_rows, enumerate.
  rewrite length_fmap, length_imap, H1. reflexivity.
Qed.

Lemma overlap_single_chainring_witness :
  overlap_tab_text single_chainring = Ok (Some [NeedTwoChainrings]).
Proof. apply overlap_single_chainring; vm_compute; reflexivity. Defined.

(** *** The analysis on configurations without repeated chainrings *)

Lemma ratio_gaps_table : forallb ratio_gaps_nonzero teeth_range = true.
Proof. vm_compute. reflexivity. Qed.

Lemma ratio_facts (c s : Z) :
  MIN_TEETH ≤ c ≤ MAX_TEETH → MIN_TEETH ≤ s ≤ MAX_TEETH →
  F64.is_zero (ratio_of c s) = false ∧ F64.is_finite (ratio_of c s) = true
  ∧ ∀ s', MIN_TEETH ≤ s' ≤ MAX_TEETH → s < s' →
      F64.is_zero (F64.sub (ratio_of c s) (ratio_of c s')) = false.
Proof.
  intros Hc Hs. pose proof ratio_gaps_table as T.
  rewrite forallb_forall in T.
  specialize (T c (proj1 (list_elem_of_In _ _) (elem_of_teeth_range _ Hc))).
  unfold ratio_gaps_nonzero in T. cbv zeta in T. rewrite forallb_forall in T.
  assert (Hrow : ∀ x, MIN_TEETH ≤ x ≤ MAX_TEETH → In (x, ratio_of c x) (ratio_row_of c)).
  { intros x Hx. apply list_elem_of_In. unfold ratio_row_of.
    apply (list_elem_of_fmap_2 (λ s, (s, ratio_of c s))). apply elem_of_teeth_range, Hx. }
  specialize (T _ (Hrow s Hs)). cbn [fst snd] in T.
  apply andb_true_iff in T as [T T3]. apply andb_true_iff in T as [T1 T2].
  split; [apply negb_true_iff; exact T1|]. split; [exact T2|].
  intros s' Hs' Hlt. rewrite forallb_forall in T3.
  specialize (T3 _ (Hrow s' Hs')). cbn [fst snd] in T3.
  apply orb_true_iff in T3 as [T3|T3]; [apply Z.leb_le in T3; lia|].
  apply negb_true_iff; exact T3.
Qed.

Lemma ratio_not_nan (c s : Z) :
  MIN_TEETH ≤ c ≤ MAX_TEETH → MIN_TEETH ≤ s ≤ MAX_TEETH → not_nan (ratio_of c s).
Proof. intros Hc Hs. apply finite_not_nan. apply (ratio_facts c s Hc Hs). Qed.

Lemma ratio_le_sprocket (c s s' : Z) :
  MIN_TEETH ≤ c ≤ MAX_TEETH → MIN_TEETH ≤ s ≤ MAX_TEETH → MIN_TEETH ≤ s' ≤ MAX_TEETH →
  s ≤ s' → fle (ratio_of c s') (ratio_of c s).
Proof.
  intros Hc Hs Hs' Hle. destruct (Z.eq_dec s s') as [->|Hne].
  - apply fle_refl, ratio_not_nan; assumption.
  - apply flt_fle. apply (ratio_order c s s'); try assumption. lia.
Qed.

Lemma flt_not_fle (x y : float) : flt x y → F64.leb y x = false.
Proof.
  intros H. destruct (flt_not_nan _ _ H) as [Hx Hy].
  destruct (F64.leb y x) eqn:E; [|reflexivity].
  apply (fle_key y x) in E; auto. apply flt_key in H; auto.
  unfold lex_lt, lex_le in *. lia.
Qed.

(** [max] and [min] of the ratios of one chainring over sprockets in
    ascending order: the first and the last of the list. *)
Lemma py_max_ratios (c t : Z) (T : list Z) :
  MIN_TEETH ≤ c ≤ MAX_TEETH →
  (∀ x, x ∈ t :: T → MIN_TEETH ≤ x ≤ MAX_TEETH) →
  (∀ x, x ∈ T → t ≤ x) →
  py_max (ratio_of c <$> t :: T) = Ok (ratio_of c t).
Proof.
  intros Hc Hv Hle. rewrite fmap_cons. unfold py_max. f_equal.
  induction T as [|t' T IH]; [reflexivity|].
  rewrite fmap_cons. cbn [foldl].
  assert (Hstep : py_max2 (ratio_of c t) (ratio_of c t') = ratio_of c t).
  { unfold py_max2. rewrite (fle_not_flt (ratio_of c t') (ratio_of c t)); [reflexivity|].
    apply ratio_le_sprocket; [exact Hc|apply Hv; left|apply Hv; right; left|apply Hle; left]. }
  rewrite Hstep.
  apply IH; [intros x Hx|intros x Hx; apply Hle; right; exact Hx].
  apply Hv. apply elem_of_cons in Hx as [->|Hx]; [left|do 2 right; exact Hx].
Qed.

Lemma last_cons_default (x d : Z) (l : list Z) : List.last (x :: l) d = List.last l x.
Proof.
  revert x d. induction l as [|y l IH]; intros x d; [reflexivity|].
  change (List.last (x :: y :: l) d) with (List.last (y :: l) d).
  rewrite (IH y d), (IH y x). reflexivity.
Qed.

Lemma py_min_ratios (c t : Z) (T : list Z) :
  MIN_TEETH ≤ c ≤ MAX_TEETH →
  (∀ x, x ∈ t :: T → MIN_TEETH ≤ x ≤ MAX_TEETH) →
  StronglySorted Z.le (t :: T) →
  py_min (ratio_of c <$> t :: T) = Ok (ratio_of c (List.last T t)).
Proof.
  intros Hc Hv Hs. rewrite fmap_cons. unfold py_min. f_equal.
  revert t Hv Hs. induction T as [|t' T IH]; intros t Hv Hs; [reflexivity|].
  rewrite fmap_cons. cbn [foldl].
  assert (Hstep : py_min2 (ratio_of c t) (ratio_of c t') = ratio_of c t').
  { apply StronglySorted_inv in Hs as [_ Hall]. apply Forall_cons in Hall as [Hle _].
    unfold py_min2. destruct (Z.eq_dec t t') as [->|Hne].
    - destruct (F64.ltb _ _); reflexivity.
    - pose proof (proj2 (ratio_order c t t' Hc (Hv t ltac:(left))
                           (Hv t' ltac:(right; left)) ltac:(lia))) as Hlt.
      unfold flt in Hlt. rewrite Hlt. reflexivity. }
  rewrite Hstep.
  rewrite IH; [|intros x Hx; apply Hv; right; exact Hx
               |apply StronglySorted_inv in Hs as [Hs _]; exact Hs].
  rewrite last_cons_default. reflexivity.
Qed.

Lemma last_elem (t : Z) (T : list Z) : List.last T t ∈ t :: T.
Proof.
  revert t. induction T as [|y T IH]; intros t; [left|].
  rewrite last_cons_default. right. apply IH.
Qed.

Lemma last_ge (t : Z) (T : list Z) : StronglySorted Z.le (t :: T) → t ≤ List.last T t.
Proof.
  intros Hs. apply StronglySorted_inv in Hs as [_ Hall].
  pose proof (last_elem t T) as Hin.
  apply elem_of_cons in Hin as [->|Hin]; [lia|].
  rewrite Forall_forall in Hall. exact (Hall _ Hin).
Qed.

(** The part of the loop body after the ranges: it cannot divide by
    zero when the second chainring is smaller and, should all the
    sprockets of the first range be equal, the second range starts at a
    sprocket that is not smaller. *)
Lemma overlap_lines_total (header : overlap_line) (c1 c2 h1 l1 h2 l2 : Z) :
  MIN_TEETH ≤ c1 ≤ MAX_TEETH → MIN_TEETH ≤ c2 ≤ MAX_TEETH →
  MIN_TEETH ≤ h1 ≤ MAX_TEETH → MIN_TEETH ≤ l1 ≤ MAX_TEETH →
  MIN_TEETH ≤ h2 ≤ MAX_TEETH → MIN_TEETH ≤ l2 ≤ MAX_TEETH →
  c2 < c1 → h1 ≤ l1 → h2 ≤ l2 → (h1 = l1 → h1 ≤ h2) →
  ∃ lines,
    overlap_lines header (ratio_of c1 l1) (ratio_of c1 h1) (ratio_of c2 l2) (ratio_of c2 h2)
    = Ok lines.
Proof.
  intros Hc1 Hc2 Hh1 Hl1 Hh2 Hl2 Hc Hhl1 Hhl2 Hsingle.
  unfold overlap_lines.
  destruct (F64.leb _ _) eqn:E; [|eexists; reflexivity].
  destruct (Z.eq_dec h1 l1) as [Heq|Hne].
  - exfalso. subst l1. specialize (Hsingle eq_refl).
    (* the whole second range lies below the single ratio of the first *)
    assert (Hmax2 : flt (ratio_of c2 h2) (ratio_of c1 h1)).
    { apply (fle_flt_trans _ (ratio_of c2 h1)).
      - apply ratio_le_sprocket; assumption.
      - apply (ratio_order h1 c2 c1); assumption. }
    assert (Hmin2 : flt (ratio_of c2 l2) (ratio_of c1 h1)).
    { apply (fle_flt_trans _ (ratio_of c2 h2)); [|exact Hmax2].
      apply ratio_le_sprocket; assumption. }
    unfold py_max2, py_min2 in E.
    rewrite (fle_not_flt _ _ (flt_fle _ _ Hmin2)) in E.
    unfold flt in Hmax2. rewrite Hmax2 in E.
    rewrite (flt_not_fle _ _ Hmax2) in E. discriminate.
  - unfold float_div.
    rewrite (proj2 (proj2 (ratio_facts c1 h1 Hc1 Hh1)) l1 Hl1 ltac:(lia)).
    cbn [mbind result_bind]. eexists; reflexivity.
Qed.

Lemma getitem_Some {A : Type} (l : list A) (i : nat) (x : A) :
  l !! i = Some x → getitem l i = Ok x.
Proof. intros H. unfold getitem. rewrite H. reflexivity. Qed.

(** The list comprehension that keeps the ratios of the gears that do
    not cross. *)
Lemma usable_from_map {A : Type} (fr : A → float) (fb : A → bool) (l : list A)
    (crosses : list (list bool)) (i : nat) (flags : list bool) (j : nat) :
  crosses !! i = Some flags →
  (∀ k x, l !! k = Some x → flags !! (j + k)%nat = Some (fb x)) →
  usable_from (fr <$> l) crosses i j = Ok (fr <$> filter (λ x, fb x = false) l).
Proof.
  intros Hrow. revert j. induction l as [|x l IH]; intros j Hflags; [reflexivity|].
  rewrite fmap_cons. cbn [usable_from]. rewrite (getitem_Some _ _ _ Hrow).
  cbn [mbind result_bind].
  pose proof (Hflags 0%nat x eq_refl) as H0. rewrite Nat.add_0_r in H0.
  rewrite (getitem_Some _ _ _ H0). cbn [mbind result_bind].
  rewrite (IH (S j));
    [|intros k y Hk; replace (S j + k)%nat with (j + S k)%nat by lia;
      apply Hflags; exact Hk].
  cbn [mbind result_bind]. rewrite filter_cons.
  destruct (fb x) eqn:E.
  - destruct (decide (true = false)); [discriminate|reflexivity].
  - destruct (decide (false = false)); [|contradiction]. rewrite fmap_cons. reflexivity.
Qed.

Lemma enumerate_lookup {A : Type} (l : list A) (i : nat) (x : A) :
  l !! i = Some x → enumerate l !! i = Some (Z.of_nat i, x).
Proof. intros H. unfold enumerate. rewrite list_lookup_imap, H. reflexivity. Qed.

Lemma usable_ratios_row (self : NuSui) (i : nat) (c : Z) :
  crankset_teeth self !! i = Some c →
  usable_ratios ((λ js : Z * Z, ratio_of c js.2) <$> enumerate (cassette_teeth self))
                (crossing_rows self) i
  = Ok ((λ js : Z * Z, ratio_of c js.2) <$> usable_sprockets self (Z.of_nat i, c)).
Proof.
  intros Hc. unfold usable_ratios, usable_sprockets.
  apply (usable_from_map _ (λ js, crossing_of self ((Z.of_nat i, c), js)) _ _ _
           ((λ js, crossing_of self ((Z.of_nat i, c), js)) <$> enumerate (cassette_teeth self))).
  - unfold crossing_rows. rewrite list_lookup_fmap, (enumerate_lookup _ _ _ Hc). reflexivity.
  - intros k x Hk. rewrite list_lookup_fmap. cbn [Nat.add]. rewrite Hk. reflexivity.
Qed.

Lemma ratio_rows_lookup (self : NuSui) (i : nat) (c : Z) :
  crankset_teeth self !! i = Some c →
  ratio_rows self !! i
  = Some ((λ js : Z * Z, ratio_of c js.2) <$> enumerate (cassette_teeth self)).
Proof.
  intros Hc. unfold ratio_rows. rewrite list_lookup_fmap, (enumerate_lookup _ _ _ Hc).
  reflexivity.
Qed.

(** *** Order of the sprockets that remain *)

Lemma imap_from_ascending (l : list Z) (k : nat) :
  StronglySorted Z.le l →
  StronglySorted (λ a b : Z * Z, a.1 < b.1 ∧ a.2 ≤ b.2)
                 (imap (λ i x, (Z.of_nat (k + i), x)) l).
Proof.
  revert k. induction l as [|x l IH]; intros k Hs; [constructor|].
  apply StronglySorted_inv in Hs as [Hs Hall].
  cbn [imap]. constructor.
  - rewrite (imap_ext _ (λ i y, (Z.of_nat (S k + i), y)))
      by (intros; cbn; f_equal; lia).
    apply IH. exact Hs.
  - rewrite Forall_forall in Hall. apply Forall_forall. intros [j y] Hin.
    apply elem_of_lookup_imap in Hin as (n & z & Heq & Hz). injection Heq as -> ->.
    cbn [fst snd]. split; [cbn; lia|]. apply Hall. eapply list_elem_of_lookup_2. exact Hz.
Qed.

Lemma enumerate_ascending (l : list Z) :
  StronglySorted Z.le l →
  StronglySorted (λ a b : Z * Z, a.1 < b.1 ∧ a.2 ≤ b.2) (enumerate l).
Proof. exact (imap_from_ascending l 0). Qed.

Lemma usable_sprockets_sorted (self : NuSui) (ic : Z * Z) :
  StronglySorted Z.le (cassette_teeth self) →
  StronglySorted (λ a b : Z * Z, a.1 < b.1 ∧ a.2 ≤ b.2) (usable_sprockets self ic).
Proof.
  intros Hs. unfold usable_sprockets. apply StronglySorted_filter.
  apply enumerate_ascending. exact Hs.
Qed.

Lemma sorted_teeth (l : list (Z * Z)) :
  StronglySorted (λ a b : Z * Z, a.1 < b.1 ∧ a.2 ≤ b.2) l → StronglySorted Z.le (l.*2).
Proof.
  induction 1 as [|x l _ IH Hall]; [constructor|].
  rewrite fmap_cons. constructor; [exact IH|].
  apply Forall_fmap. eapply Forall_impl; [exact Hall|]. intros y [_ Hy]. exact Hy.
Qed.

Lemma thresholds_ordered :
  forallb (λ n,
    match extreme 2 n (F64.lit 4 10), extreme 1 n (F64.lit 15 100) with
    | Ok e, Ok m => m <=? e
    | _, _ => false
    end) (seqZ 0 65) = true.
Proof. vm_compute. reflexivity. Qed.

(** A candidate for the first usable sprocket of a chainring. *)
Ltac first_usable_candidate Hfirst H k :=
  let Hk := fresh "Hk" in
  pose proof (Hfirst k) as Hk; rewrite H in Hk;
  match type of Hk with
  | _ → Ok (bool_decide ?Q) = _ → _ =>
      let Hq := fresh "Hq" in
      destruct (decide Q) as [Hq|Hq];
      [clear Hk|specialize (λ Hr, Hk Hr (f_equal Ok (bool_decide_eq_false_2 _ Hq)))]
  end.

(** Up to 64 sprockets, the first sprocket that does not cross on a
    chainring comes no later than any sprocket that does not cross on the
    next chainring. *)
Lemma first_usable_le (self : NuSui) (i a b : Z) :
  num_sprockets self ≤ 64 →
  0 ≤ i → i + 1 ≤ num_chainrings self - 1 →
  0 ≤ a < num_sprockets self → 0 ≤ b < num_sprockets self →
  crossing_flag self i a = Ok false → crossing_flag self (i + 1) b = Ok false →
  (∀ a', 0 ≤ a' < num_sprockets self → crossing_flag self i a' = Ok false → a ≤ a') →
  a ≤ b.
Proof.
  intros Hn Hi Hi1 Ha Hb Hfa Hfb Hfirst.
  assert (Hns : num_sprockets self ∈ seqZ 0 65) by (apply elem_of_seqZ; lia).
  pose proof thresholds_ordered as T. rewrite forallb_forall in T.
  specialize (T _ (proj1 (list_elem_of_In _ _) Hns)).
  destruct (crossing_flag_shape self ltac:(lia))
    as [[H1 H]|[[H2 (e & _ & He & H)]|[[H3 (e & m & Ee & Em & He & Hm & H)]|[H4 (e & _ & He & H)]]]].
  - lia.
  - rewrite H in Hfa, Hfb. injection Hfa as Hfa. injection Hfb as Hfb.
    apply bool_decide_eq_false in Hfa, Hfb.
    first_usable_candidate Hfirst H 0; lia.
  - rewrite Ee, Em in T. apply Z.leb_le in T.
    rewrite H in Hfa, Hfb. injection Hfa as Hfa. injection Hfb as Hfb.
    apply bool_decide_eq_false in Hfa, Hfb.
    first_usable_candidate Hfirst H 0; first_usable_candidate Hfirst H m; lia.
  - rewrite H in Hfa, Hfb. injection Hfa as Hfa. injection Hfb as Hfb.
    apply bool_decide_eq_false in Hfa, Hfb.
    first_usable_candidate Hfirst H 0; first_usable_candidate Hfirst H 1; lia.
Qed.

Lemma ranges_lines_total (header : overlap_line) (c1 c2 : Z) (P1 P2 : list (Z * Z)) :
  MIN_TEETH ≤ c1 ≤ MAX_TEETH → MIN_TEETH ≤ c2 ≤ MAX_TEETH → c2 < c1 →
  StronglySorted (λ a b : Z * Z, a.1 < b.1 ∧ a.2 ≤ b.2) P1 →
  StronglySorted (λ a b : Z * Z, a.1 < b.1 ∧ a.2 ≤ b.2) P2 →
  (∀ p, p ∈ P1 → MIN_TEETH ≤ p.2 ≤ MAX_TEETH) →
  (∀ p, p ∈ P2 → MIN_TEETH ≤ p.2 ≤ MAX_TEETH) →
  (∃ p1 p2, head P1 = Some p1 ∧ head P2 = Some p2 ∧ p1.2 ≤ p2.2) →
  ∃ lines,
    ranges_of header ((λ js : Z * Z, ratio_of c1 js.2) <$> P1)
                     ((λ js : Z * Z, ratio_of c2 js.2) <$> P2)
    ≫= (λ '(header, (min_ratio1, max_ratio1), (min_ratio2, max_ratio2)),
          overlap_lines header min_ratio1 max_ratio1 min_ratio2 max_ratio2)
    = Ok lines.
Proof.
  intros Hc1 Hc2 Hc Hs1 Hs2 Hv1 Hv2 (p1 & p2 & Hh1 & Hh2 & Hle).
  destruct P1 as [|q1 P1]; [discriminate|]. destruct P2 as [|q2 P2]; [discriminate|].
  injection Hh1 as ->. injection Hh2 as ->.
  apply sorted_teeth in Hs1, Hs2. rewrite fmap_cons in Hs1, Hs2.
  assert (Hv1' : ∀ x, x ∈ p1.2 :: P1.*2 → MIN_TEETH ≤ x ≤ MAX_TEETH).
  { intros x Hx. rewrite <- fmap_cons in Hx. apply list_elem_of_fmap in Hx as (p & -> & Hp).
    exact (Hv1 p Hp). }
  assert (Hv2' : ∀ x, x ∈ p2.2 :: P2.*2 → MIN_TEETH ≤ x ≤ MAX_TEETH).
  { intros x Hx. rewrite <- fmap_cons in Hx. apply list_elem_of_fmap in Hx as (p & -> & Hp).
    exact (Hv2 p Hp). }
  replace ((λ js : Z * Z, ratio_of c1 js.2) <$> p1 :: P1)
    with (ratio_of c1 <$> p1.2 :: P1.*2)
    by (rewrite <- fmap_cons, <- list_fmap_compose; reflexivity).
  replace ((λ js : Z * Z, ratio_of c2 js.2) <$> p2 :: P2)
    with (ratio_of c2 <$> p2.2 :: P2.*2)
    by (rewrite <- fmap_cons, <- list_fmap_compose; reflexivity).
  unfold ranges_of.
  rewrite (py_min_ratios c1 _ _ Hc1 Hv1' Hs1), (py_min_ratios c2 _ _ Hc2 Hv2' Hs2).
  rewrite (py_max_ratios c1 _ _ Hc1 Hv1'), (py_max_ratios c2 _ _ Hc2 Hv2');
    [|apply StronglySorted_inv in Hs2 as [_ Hall]; rewrite Forall_forall in Hall; exact Hall
     |apply StronglySorted_inv in Hs1 as [_ Hall]; rewrite Forall_forall in Hall; exact Hall].
  cbn [mbind result_bind].
  apply overlap_lines_total; try assumption.
  - apply Hv1'. left.
  - apply Hv1'. apply last_elem.
  - apply Hv2'. left.
  - apply Hv2'. apply last_elem.
  - apply last_ge. exact Hs1.
  - apply last_ge. exact Hs2.
  - intros _. exact Hle.
Qed.

Lemma adjacent_descending (l : list Z) (i : nat) (c1 c2 : Z) :
  descending l → NoDup l → l !! i = Some c1 → l !! S i = Some c2 → c2 < c1.
Proof.
  intros Hs Hnd H1 H2.
  assert (Hle : c2 ≤ c1).
  { revert i H1 H2. induction Hs as [|x l Hs IH Hhd]; intros i H1 H2; [discriminate|].
    apply NoDup_cons in Hnd as [_ Hnd].
    destruct i as [|i].
    - injection H1 as <-. destruct l as [|y l]; [discriminate|]. injection H2 as <-.
      apply HdRel_inv in Hhd. exact Hhd.
    - exact (IH Hnd i H1 H2). }
  assert (c1 ≠ c2); [|lia].
  intros <-. pose proof (NoDup_lookup l i (S i) c1 Hnd H1 H2). lia.
Qed.

Lemma enumerate_index {A : Type} (l : list A) (p : Z * A) :
  p ∈ enumerate l → 0 ≤ p.1 < Z.of_nat (length l) ∧ l !! Z.to_nat p.1 = Some p.2.
Proof.
  destruct p as [j x]. intros Hin. apply elem_of_enumerate in Hin as (n & -> & Hn).
  cbn [fst snd]. rewrite Nat2Z.id. split; [|exact Hn]. apply lookup_lt_Some in Hn. lia.
Qed.

Lemma enumerate_monotone (l : list Z) (p q : Z * Z) :
  StronglySorted Z.le l → p ∈ enumerate l → q ∈ enumerate l → p.1 ≤ q.1 → p.2 ≤ q.2.
Proof.
  intros Hs Hp Hq Hle.
  destruct (enumerate_index l p Hp) as [Hp1 Hp2], (enumerate_index l q Hq) as [Hq1 Hq2].
  destruct (Z.eq_dec p.1 q.1) as [E|E]; [rewrite E in Hp2; rewrite Hp2 in Hq2; injection Hq2; lia|].
  apply enumerate_ascending in Hs.
  apply list_elem_of_split in Hp as (l1 & l2 & Hsplit).
  rewrite Hsplit in Hs, Hq.
  apply StronglySorted_app in Hs as (Hall & Hs1 & Hs2).
  apply elem_of_app in Hq as [Hq|Hq].
  - specialize (Hall q p Hq ltac:(left)). lia.
  - apply elem_of_cons in Hq as [->|Hq]; [lia|].
    apply StronglySorted_inv in Hs2 as [_ Hall2]. rewrite Forall_forall in Hall2.
    apply (Hall2 q Hq).
Qed.

Lemma usable_sprockets_elem (self : NuSui) (ic js : Z * Z) :
  num_sprockets self < 2 ^ 63 →
  js ∈ usable_sprockets self ic
  ↔ js ∈ enumerate (cassette_teeth self) ∧ crossing_flag self ic.1 js.1 = Ok false.
Proof.
  intros Hn. unfold usable_sprockets. rewrite list_elem_of_filter.
  pose proof (crossing_flag_of self (ic, js) Hn) as Hf. cbn [fst snd] in Hf.
  rewrite Hf. split; intros [H1 H2]; split; first [assumption|congruence].
Qed.

Lemma truthy_crossing_rows (self : NuSui) :
  crankset_teeth self ≠ [] →
  truthy (Some (crossing_rows self)) = Some (crossing_rows self).
Proof.
  intros Hne. unfold crossing_rows.
  destruct (crankset_teeth self) as [|c l]; [contradiction|]. reflexivity.
Qed.

Lemma ascending_strongly (l : list Z) : ascending l → StronglySorted Z.le l.
Proof. intros H. apply Sorted_StronglySorted; [|exact H]. intros x y z. lia. Qed.

Lemma enumerate_head {A : Type} (x : A) (l : list A) :
  head (enumerate (x :: l)) = Some (0, x).
Proof. reflexivity. Qed.

(** One step of the loop over adjacent chainrings. *)
Lemma overlap_between_total (self : NuSui) (i : nat) (c1 c2 : Z) :
  validate_gear_configuration self = true → num_sprockets self ≤ 64 →
  ascending (cassette_teeth self) →
  crankset_teeth self !! i = Some c1 → crankset_teeth self !! S i = Some c2 → c2 < c1 →
  ∃ lines,
    overlap_between self (ratio_rows self) (Some (crossing_rows self)) i = Ok lines.
Proof.
  intros Hv Hn Hasc H1 H2 Hlt.
  destruct (validated_teeth self Hv) as (Hne1 & Hne2 & Hcr & Hcs).
  assert (Hn' : num_sprockets self < 2 ^ 63) by lia.
  pose proof (ascending_strongly _ Hasc) as Hss.
  pose proof (Hcr c1 (list_elem_of_lookup_2 _ _ _ H1)) as Hc1.
  pose proof (Hcr c2 (list_elem_of_lookup_2 _ _ _ H2)) as Hc2.
  assert (Hteeth : ∀ p, p ∈ enumerate (cassette_teeth self) → MIN_TEETH ≤ p.2 ≤ MAX_TEETH)
    by (intros p Hp; apply Hcs; exact (enumerate_teeth _ _ Hp)).
  (* the range of all the sprockets, used when a chainring has no usable gear *)
  assert (Hincluding : ∃ lines,
            ranges_of (BetweenIncluding c1 c2)
              ((λ js : Z * Z, ratio_of c1 js.2) <$> enumerate (cassette_teeth self))
              ((λ js : Z * Z, ratio_of c2 js.2) <$> enumerate (cassette_teeth self))
            ≫= (λ '(header, (min_ratio1, max_ratio1), (min_ratio2, max_ratio2)),
                  overlap_lines header min_ratio1 max_ratio1 min_ratio2 max_ratio2)
            = Ok lines).
  { apply ranges_lines_total; try assumption; try (apply enumerate_ascending; exact Hss).
    destruct (cassette_teeth self) as [|s0 l]; [contradiction|].
    exists (0, s0), (0, s0). rewrite enumerate_head. repeat split. cbn. lia. }
  unfold overlap_between. replace (i + 1)%nat with (S i) by lia.
  rewrite (getitem_Some _ _ _ H1), (getitem_Some _ _ _ H2). cbn [mbind result_bind].
  rewrite (getitem_Some _ _ _ (ratio_rows_lookup self i c1 H1)),
          (getitem_Some _ _ _ (ratio_rows_lookup self (S i) c2 H2)).
  cbn [mbind result_bind].
  rewrite (truthy_crossing_rows self Hne1).
  rewrite (usable_ratios_row self i c1 H1), (usable_ratios_row self (S i) c2 H2).
  cbn [mbind result_bind].
  destruct (usable_sprockets self (Z.of_nat i, c1)) as [|u1 U1] eqn:E1;
    [exact Hincluding|].
  destruct (usable_sprockets self (Z.of_nat (S i), c2)) as [|u2 U2] eqn:E2;
    [exact Hincluding|].
  rewrite !fmap_cons. cbv beta iota.
  change (ratio_of c1 u1.2 :: ((λ js : Z * Z, ratio_of c1 js.2) <$> U1))
    with ((λ js : Z * Z, ratio_of c1 js.2) <$> u1 :: U1).
  change (ratio_of c2 u2.2 :: ((λ js : Z * Z, ratio_of c2 js.2) <$> U2))
    with ((λ js : Z * Z, ratio_of c2 js.2) <$> u2 :: U2).
  rewrite <- E1, <- E2.
  assert (Hu1 : u1 ∈ usable_sprockets self (Z.of_nat i, c1)) by (rewrite E1; left).
  assert (Hu2 : u2 ∈ usable_sprockets self (Z.of_nat (S i), c2)) by (rewrite E2; left).
  apply (usable_sprockets_elem self _ _ Hn') in Hu1 as [Hu1 Hf1], Hu2 as [Hu2 Hf2].
  cbn [fst] in Hf1, Hf2.
  apply ranges_lines_total; try assumption;
    try (apply usable_sprockets_sorted; exact Hss);
    try (intros p Hp; apply Hteeth; apply (usable_sprockets_elem self _ _ Hn') in Hp;
         apply Hp).
  exists u1, u2. rewrite E1, E2. split; [reflexivity|]. split; [reflexivity|].
  apply (enumerate_monotone (cassette_teeth self)); try assumption.
  destruct (enumerate_index _ _ Hu1) as [Hr1 _], (enumerate_index _ _ Hu2) as [Hr2 _].
  apply (first_usable_le self (Z.of_nat i)); try assumption; try lia.
  - apply lookup_lt_Some in H2. unfold num_chainrings. lia.
  - replace (Z.of_nat i + 1) with (Z.of_nat (S i)) by lia. exact Hf2.
  - intros a' Ha' Hf'.
    destruct (lookup_lt_is_Some_2 (cassette_teeth self) (Z.to_nat a')) as [s' Hs'];
      [unfold num_sprockets in Ha'; lia|].
    assert (Hin : (a', s') ∈ usable_sprockets self (Z.of_nat i, c1)).
    { apply (usable_sprockets_elem self _ _ Hn'). split; [|exact Hf'].
      apply elem_of_enumerate. exists (Z.to_nat a'). split; [lia|exact Hs']. }
    pose proof (usable_sprockets_sorted self (Z.of_nat i, c1) Hss) as Hsorted.
    rewrite E1 in Hin, Hsorted.
    apply elem_of_cons in Hin as [<-|Hin]; [cbn; lia|].
    apply StronglySorted_inv in Hsorted as [_ Hall]. rewrite Forall_forall in Hall.
    specialize (Hall _ Hin). cbn [fst] in Hall. lia.
Qed.

Lemma for_each_total {A S : Type} (body : S → A → result S) (l : list A) :
  (∀ x st, x ∈ l → ∃ st', body st x = Ok st') →
  ∀ st, ∃ st', for_each body l st = Ok st'.
Proof.
  induction l as [|x l IH]; intros Hbody st; [eexists; reflexivity|].
  cbn [for_each]. destruct (Hbody x st ltac:(left)) as [st1 ->]. cbn [mbind result_bind].
  apply IH. intros y st' Hy. apply Hbody. right. exact Hy.
Qed.

(** *** The range section *)

Lemma py_min2_choice (a b : float) : py_min2 a b = a ∨ py_min2 a b = b.
Proof. unfold py_min2. destruct (F64.ltb b a); auto. Qed.

Lemma py_max2_choice (a b : float) : py_max2 a b = a ∨ py_max2 a b = b.
Proof. unfold py_max2. destruct (F64.ltb a b); auto. Qed.

Lemma foldl_choice (f : float → float → float) (x : float) (l : list float) :
  (∀ a b, f a b = a ∨ f a b = b) → foldl f x l ∈ x :: l.
Proof.
  intros Hf. revert x. induction l as [|y l IH]; intros x; [left|].
  cbn [foldl]. specialize (IH (f x y)).
  apply elem_of_cons in IH as [->|IH]; [|do 2 right; exact IH].
  destruct (Hf x y) as [-> | ->]; [left|right; left].
Qed.

Lemma py_min_elem (l : list float) : l ≠ [] → ∃ m, py_min l = Ok m ∧ m ∈ l.
Proof.
  destruct l as [|x l]; [contradiction|]. intros _. eexists. split; [reflexivity|].
  apply foldl_choice, py_min2_choice.
Qed.

Lemma py_max_elem (l : list float) : l ≠ [] → ∃ m, py_max l = Ok m ∧ m ∈ l.
Proof.
  destruct l as [|x l]; [contradiction|]. intros _. eexists. split; [reflexivity|].
  apply foldl_choice, py_max2_choice.
Qed.

Lemma range_ratio_total (l : list float) :
  l ≠ [] → Forall (λ r, F64.is_zero r = false) l →
  ∃ min_ratio max_ratio,
    py_min l = Ok min_ratio ∧ py_max l = Ok max_ratio
    ∧ float_div max_ratio min_ratio = Ok (F64.div max_ratio min_ratio).
Proof.
  intros Hne Hnz. destruct (py_min_elem l Hne) as (m & Hm & Hin).
  destruct (py_max_elem l Hne) as (M & HM & _).
  exists m, M. split; [exact Hm|]. split; [exact HM|].
  rewrite Forall_forall in Hnz. unfold float_div. rewrite (Hnz m Hin). reflexivity.
Qed.

Lemma ratio_row_nonzero (self : NuSui) (c : Z) (P : list (Z * Z)) :
  validate_gear_configuration self = true →
  c ∈ crankset_teeth self → (∀ p, p ∈ P → p ∈ enumerate (cassette_teeth self)) →
  Forall (λ r, F64.is_zero r = false) ((λ js : Z * Z, ratio_of c js.2) <$> P).
Proof.
  intros Hv Hc HP. destruct (validated_teeth self Hv) as (_ & _ & Hcr & Hcs).
  apply Forall_fmap, Forall_forall. intros p Hp. cbn.
  apply ratio_facts; [apply Hcr; exact Hc|apply Hcs].
  exact (enumerate_teeth _ _ (HP p Hp)).
Qed.

Lemma filtered_loop_total (self : NuSui) (rows : list (nat * list float)) (acc : list float) :
  validate_gear_configuration self = true → num_sprockets self < 2 ^ 63 →
  (∀ ir, ir ∈ rows →
     ∃ c, crankset_teeth self !! ir.1 = Some c
          ∧ ir.2 = (λ js : Z * Z, ratio_of c js.2) <$> enumerate (cassette_teeth self)) →
  Forall (λ r, F64.is_zero r = false) acc →
  ∃ filtered,
    for_each (λ acc ir, filtered ← usable_ratios (snd ir) (crossing_rows self) (fst ir);
                        Ok (acc ++ filtered)) rows acc
    = Ok filtered
    ∧ Forall (λ r, F64.is_zero r = false) filtered.
Proof.
  intros Hv Hn. revert acc. induction rows as [|[i ratios] rows IH]; intros acc Hrows Hacc.
  - exists acc. split; [reflexivity|exact Hacc].
  - destruct (Hrows (i, ratios) ltac:(left)) as (c & Hc & Hr). cbn [fst snd] in Hc, Hr.
    cbn [for_each fst snd]. rewrite Hr, (usable_ratios_row self i c Hc).
    cbn [mbind result_bind].
    apply IH; [intros ir Hir; apply Hrows; right; exact Hir|].
    apply Forall_app. split; [exact Hacc|].
    apply (ratio_row_nonzero self c _ Hv (list_elem_of_lookup_2 _ _ _ Hc)).
    intros p Hp. apply (usable_sprockets_elem self _ _ Hn) in Hp. apply Hp.
Qed.

Lemma total_range_total (self : NuSui) :
  validate_gear_configuration self = true → num_sprockets self < 2 ^ 63 →
  ∃ lines, total_range (ratio_rows self) (Some (crossing_rows self)) = Ok lines.
Proof.
  intros Hv Hn. destruct (validated_teeth self Hv) as (Hne1 & Hne2 & Hcr & Hcs).
  unfold total_range. rewrite (truthy_crossing_rows self Hne1).
  destruct (filtered_loop_total self (imap (λ i ratios, (i, ratios)) (ratio_rows self)) []
              Hv Hn) as (filtered & -> & Hnz); [|constructor|].
  { intros [i ratios] Hin. apply elem_of_lookup_imap in Hin as (k & r & Heq & Hk).
    injection Heq as -> ->. cbn [fst snd]. unfold ratio_rows in Hk.
    rewrite list_lookup_fmap in Hk.
    destruct (enumerate (crankset_teeth self) !! k) as [[j c]|] eqn:Ek; [|discriminate].
    injection Hk as <-. exists c. split; [|reflexivity].
    unfold enumerate in Ek. rewrite list_lookup_imap in Ek.
    destruct (crankset_teeth self !! k) as [c'|]; [|discriminate].
    injection Ek as _ ->. reflexivity. }
  cbn [mbind result_bind].
  assert (Hflat : concat (ratio_rows self) ≠ []
                  ∧ Forall (λ r, F64.is_zero r = false) (concat (ratio_rows self))).
  { split.
    - unfold ratio_rows. destruct (crankset_teeth self) as [|c l]; [contradiction|].
      destruct (cassette_teeth self) as [|s l']; [contradiction|]. discriminate.
    - apply Forall_concat. unfold ratio_rows. apply Forall_fmap, Forall_forall.
      intros ic Hic. apply (ratio_row_nonzero self ic.2 _ Hv (enumerate_teeth _ _ Hic)).
      auto. }
  destruct Hflat as [Hflat1 Hflat2].
  destruct (range_ratio_total _ Hflat1 Hflat2) as (m & M & Em & EM & Ediv).
  destruct filtered as [|r filtered].
  - cbn [mbind result_bind]. rewrite Em, EM. cbn [mbind result_bind]. rewrite Ediv.
    cbn [mbind result_bind]. eexists; reflexivity.
  - destruct (range_ratio_total (r :: filtered) ltac:(discriminate) Hnz)
      as (m' & M' & Em' & EM' & Ediv').
    rewrite Em', EM'. cbn [mbind result_bind]. rewrite Ediv'. cbn [mbind result_bind].
    rewrite Em, EM. cbn [mbind result_bind]. rewrite Ediv. cbn [mbind result_bind].
    eexists; reflexivity.
Qed.

Lemma overlap_analysis_total (self : NuSui) :
  validate_gear_configuration self = true →
  descending (crankset_teeth self) → NoDup (crankset_teeth self) →
  ascending (cassette_teeth self) →
  num_sprockets self ≤ 64 →
  ∃ lines, overlap_tab_text self = Ok (Some lines) ∧ lines ≠ [].
Proof.
  intros Hv Hdesc Hnd Hasc Hn.
  assert (Hn' : num_sprockets self < 2 ^ 63) by lia.
  unfold overlap_tab_text. rewrite (overlap_tab_data_eq self Hv Hn').
  cbn [mbind result_bind fst snd]. unfold calculate_overlap_analysis.
  destruct (length (ratio_rows self) <=? 1)%nat eqn:Elen.
  { eexists. split; [reflexivity|discriminate]. }
  assert (Hlen : length (ratio_rows self) = length (crankset_teeth self))
    by (unfold ratio_rows, enumerate; rewrite length_fmap, length_imap; reflexivity).
  destruct (for_each_total
              (λ acc i, lines ← overlap_between self (ratio_rows self)
                                  (Some (crossing_rows self)) i;
                        Ok (acc ++ lines))
              (seq 0 (length (ratio_rows self) - 1))) with (st := @nil overlap_line)
    as [pairs Hpairs].
  { intros i acc Hi. apply elem_of_seq in Hi. rewrite Hlen in Hi.
    destruct (lookup_lt_is_Some_2 (crankset_teeth self) i) as [c1 H1]; [lia|].
    destruct (lookup_lt_is_Some_2 (crankset_teeth self) (S i)) as [c2 H2]; [lia|].
    destruct (overlap_between_total self i c1 c2 Hv Hn Hasc H1 H2
                (adjacent_descending _ _ _ _ Hdesc Hnd H1 H2)) as [lines ->].
    eexists. reflexivity. }
  rewrite Hpairs. cbn [mbind result_bind].
  destruct (total_range_total self Hv Hn') as [totals Htotals].
  rewrite Htotals. cbn [mbind result_bind handle_errors].
  eexists. split; [reflexivity|].
  intros Happ. apply app_eq_nil in Happ as [_ ->].
  unfold total_range in Htotals.
  destruct (truthy _); repeat match type of Htotals with
  | _ ≫= _ = Ok _ => let a := fresh "a" in let Ha := fresh "Ha" in
                     apply bind_Ok in Htotals as (a & Ha & Htotals)
  end; injection Htotals as Htotals; apply app_eq_nil in Htotals as [_ [=]].
Qed.

(** X22: for a validated configuration of up to 64 sprockets whose lists are
    in the order the program keeps (chainrings descending, sprockets
    ascending) and whose chainrings are all different, the overlap
    analysis completes and its report is displayed: it neither divides
    by zero nor takes the minimum of an empty list. *)
Theorem overlap_analysis_completes (self : NuSui) :
  validate_gear_configuration self = true →
  descending (crankset_teeth self) → NoDup (crankset_teeth self) →
  ascending (cassette_teeth self) →
  num_sprockets self ≤ 64 →
  ∃ lines, overlap_tab_text self = Ok (Some lines) ∧ lines ≠ [].
Proof. apply overlap_analysis_total. Qed.

Lemma overlap_analysis_completes_witness :
  ∃ lines, overlap_tab_text mtb_preset = Ok (Some lines) ∧ lines ≠ [].
Proof.
  apply (overlap_analysis_completes mtb_preset).
  - vm_compute. reflexivity.
  - repeat constructor; unfold flip; cbn; lia.
  - cbn [mtb_preset crankset_teeth].
    repeat (apply NoDup_cons; split; [rewrite ?elem_of_cons, elem_of_nil; lia|]).
    apply NoDup_nil_2.
  - repeat constructor; cbn; lia.
  - vm_compute. discriminate.
Defined.

(** X23: any manual configuration that is saved with tooth counts in range,
    no chainring entered twice and at most 64 sprockets can be analysed,
    in whatever order it was typed: [save_custom_gears] leaves the
    chainrings in descending and the sprockets in ascending order, and
    the overlap analysis then completes with a report. *)
Theorem saved_configuration_analysable (self : NuSui) (platos pinones : list Z) :
  platos ≠ [] → pinones ≠ [] → NoDup platos →
  (∀ teeth, teeth ∈ platos ++ pinones → MIN_TEETH ≤ teeth ≤ MAX_TEETH) →
  (length pinones ≤ 64)%nat →
  ∃ lines,
    overlap_tab_text (save_custom_gears self platos pinones).1 = Ok (Some lines)
    ∧ lines ≠ [].
Proof.
  intros Hp Hq Hnd Hteeth Hlen.
  apply overlap_analysis_total.
  - apply saved_validates_iff. auto.
  - rewrite (save_custom_gears_teeth self platos pinones Hp Hq). cbn.
    apply py_sort_reverse_descending.
  - rewrite (save_custom_gears_teeth self platos pinones Hp Hq). cbn.
    rewrite py_sort_reverse_perm. exact Hnd.
  - rewrite (save_custom_gears_teeth self platos pinones Hp Hq). cbn.
    apply py_sort_ascending.
  - rewrite (save_custom_gears_teeth self platos pinones Hp Hq).
    unfold num_sprockets. cbn [fst set_teeth cassette_teeth].
    rewrite py_sort_perm. lia.
Qed.

Lemma saved_configuration_analysable_witness :
  ∃ lines,
    overlap_tab_text (save_custom_gears custom_selected [34; 50] [28; 11; 14; 21; 17]).1
    = Ok (Some lines)
    ∧ lines ≠ [].
Proof.
  apply saved_configuration_analysable; try discriminate.
  - repeat (apply NoDup_cons; split; [rewrite ?elem_of_cons, elem_of_nil; lia|]).
    apply NoDup_nil_2.
  - intros teeth Hin. unfold MIN_TEETH, MAX_TEETH.
    repeat (apply elem_of_cons in Hin as [->|Hin]; [lia|]).
    apply elem_of_nil in Hin. destruct Hin.
  - cbn. lia.
Defined.
